(** * Expression compiler visualizer: the pipeline of [server.js]

    A shallow embedding of the compile pipeline served by [POST /compile]:
    [tokenize], the recursive-descent [Parser], [printTree],
    [semanticAnalysis], [generateTAC], [generateFinalCode] and the request
    handler itself, followed by the properties of the pipeline.

    Conventions of the embedding.
    - A JavaScript string is a [string]; one [ascii] stands for one
      character of the input.  The embedding is exact on ASCII text; the
      box-drawing and symbol glyphs of the report literals are kept as the
      bytes of the literal.
    - [throw new Error(msg)] is the result [Throw msg]; the handler's
      [catch] turns it into a 400 response carrying [msg].
    - The [while] loops and the mutual recursion of the parser are driven by
      a fuel argument; [OutOfFuel] is the result of a run that was given too
      little of it, and the entry points are proved never to produce it.
    - Arrays built with [push] are lists extended on the right; the [Set] of
      [semanticAnalysis] is a duplicate-free list in insertion order.
    - [Process] is the same pipeline with its arrays, its [Set], its
      [Parser] object and the variables that closures capture held in the
      store of the process, [Heap], which outlives a request; it is proved
      to return what the state-passing functions return. *)

From Stdlib Require Import String Ascii List Arith Bool Lia.
From Stdlib Require Import DecimalString.
Import ListNotations.

Local Open Scope list_scope.
Local Open Scope string_scope.

(** ** Results of fallible code *)

Inductive Result (A : Type) : Type :=
| Ok (a : A)
| Throw (message : string)
| OutOfFuel.

Arguments Ok {A} a.
Arguments Throw {A} message.
Arguments OutOfFuel {A}.

Definition bind {A B : Type} (r : Result A) (k : A -> Result B) : Result B :=
  match r with
  | Ok a => k a
  | Throw m => Throw m
  | OutOfFuel => OutOfFuel
  end.

Notation "' p <- r ;; k" := (bind r (fun p => k))
  (at level 61, p pattern, r at next level, right associativity).

(** ** Strings and characters *)

Module Js.

(** Template-literal rendering of a number: [`${n}`]. *)
Definition showNat (n : nat) : string :=
  NilEmpty.string_of_uint (Nat.to_uint n).

Definition code (c : ascii) : nat := nat_of_ascii c.

(** [/\d/] *)
Definition isDigit (c : ascii) : bool :=
  Nat.leb 48 (code c) && Nat.leb (code c) 57.

(** [/[a-zA-Z]/] *)
Definition isAlpha (c : ascii) : bool :=
  (Nat.leb 65 (code c) && Nat.leb (code c) 90)
  || (Nat.leb 97 (code c) && Nat.leb (code c) 122).

(** [/[a-zA-Z0-9]/] *)
Definition isAlnum (c : ascii) : bool := isAlpha c || isDigit c.

(** [/[\d.]/] *)
Definition isDigitOrDot (c : ascii) : bool := isDigit c || Nat.eqb (code c) 46.

(** [/\s/] on ASCII: tab, line feed, vertical tab, form feed, carriage
    return and space. *)
Definition isSpace (c : ascii) : bool :=
  (Nat.leb 9 (code c) && Nat.leb (code c) 13) || Nat.eqb (code c) 32.

(** [s.includes(c)] for a one-character needle. *)
Fixpoint includesChar (s : string) (c : ascii) : bool :=
  match s with
  | EmptyString => false
  | String d r => Ascii.eqb d c || includesChar r c
  end.

(** [s.startsWith(p)] *)
Fixpoint startsWith (p s : string) : bool :=
  match p, s with
  | EmptyString, _ => true
  | String a p', String b s' => Ascii.eqb a b && startsWith p' s'
  | String _ _, EmptyString => false
  end.

(** [s.includes(p)] *)
Fixpoint includes (s p : string) : bool :=
  startsWith p s ||
  match s with
  | EmptyString => false
  | String _ r => includes r p
  end.

(** [s.split(sep)] for a non-empty separator: the pieces between the
    non-overlapping occurrences of [sep], found left to right.  [cur] is
    the piece being read; [skip] counts the characters of a
    matched separator still to be passed over. *)
Fixpoint splitAux (sep : string) (s : string) (cur : string) (skip : nat)
  : list string :=
  match s with
  | EmptyString => [cur]
  | String c r =>
      match skip with
      | S k => splitAux sep r cur k
      | O =>
          if startsWith sep s
          then cur :: splitAux sep r EmptyString (String.length sep - 1)
          else splitAux sep r (cur ++ String c EmptyString) 0
      end
  end.

Definition split (s sep : string) : list string := splitAux sep s "" 0.

Fixpoint trimStart (s : string) : string :=
  match s with
  | String c r => if isSpace c then trimStart r else s
  | EmptyString => EmptyString
  end.

(** Removes trailing blanks: a blank is kept only when a non-blank
    follows it. *)
Fixpoint trimEnd (s : string) : string :=
  match s with
  | EmptyString => EmptyString
  | String c r =>
      match trimEnd r with
      | EmptyString => if isSpace c then EmptyString else String c EmptyString
      | r' => String c r'
      end
  end.

(** [s.trim()] *)
Definition trim (s : string) : string := trimEnd (trimStart s).

(** [arr.push(x)] *)
Definition push {A : Type} (arr : list A) (x : A) : list A := (arr ++ [x])%list.

(** [arr.join(sep)] *)
Fixpoint join (sep : string) (l : list string) : string :=
  match l with
  | [] => ""
  | [x] => x
  | x :: rest => x ++ sep ++ join sep rest
  end.

(** [s.padEnd(n)] with the default filler, a space. *)
Fixpoint spaces (n : nat) : string :=
  match n with
  | O => ""
  | S k => String " " (spaces k)
  end.

Definition padEnd (n : nat) (s : string) : string :=
  s ++ spaces (n - String.length s).

(** Truthiness of a string: [""] is falsy. *)
Definition truthy (s : string) : bool :=
  match s with
  | EmptyString => false
  | String _ _ => true
  end.

(** [a || b] on strings. *)
Definition orElse (a b : string) : string := if truthy a then a else b.

End Js.

(** ** Tokenizer *)

Record Token : Type := mkToken { type : string; value : string }.

Module Lexer.

(** The cursor of [tokenize] is the index [i] together with the text
    [rest] that starts at [input[i]]. *)

(** [while (i < input.length && /\s/.test(input[i])) i++] *)
Fixpoint skipWhitespace (rest : string) (i : nat) : string * nat :=
  match rest with
  | String c r => if Js.isSpace c then skipWhitespace r (S i) else (rest, i)
  | EmptyString => (rest, i)
  end.

(** [while (i < input.length && p.test(input[i])) acc += input[i++]],
    returning the accumulated text and the cursor after it. *)
Fixpoint scan (p : ascii -> bool) (rest : string) (i : nat)
  : string * (string * nat) :=
  match rest with
  | String c r =>
      if p c
      then let '(acc, cur) := scan p r (S i) in (String c acc, cur)
      else ("", (rest, i))
  | EmptyString => ("", (rest, i))
  end.

(** [(num.match(/\./g) || []).length] *)
Fixpoint countDots (s : string) : nat :=
  match s with
  | EmptyString => 0
  | String c r => (if Nat.eqb (Js.code c) 46 then 1 else 0) + countDots r
  end.

(** [/\d/.test(input[i+1] || '')] on the text that starts at [input[i]]. *)
Definition nextIsDigit (rest : string) : bool :=
  match rest with
  | String _ (String d _) => Js.isDigit d
  | _ => false
  end.

Definition invalidCharacter (ch : ascii) (i : nat) : string :=
  "Invalid character: '" ++ String ch "" ++ "' at position " ++ Js.showNat (i + 1).

(** One turn of the outer [while (i < input.length)] per unit of fuel. *)
Fixpoint tokenizeLoop (fuel : nat) (rest : string) (i : nat)
         (tokens : list Token) : Result (list Token) :=
  match fuel with
  | O => OutOfFuel
  | S fuel' =>
      match rest with
      | EmptyString => Ok tokens
      | String _ _ =>
          let '(rest1, i1) := skipWhitespace rest i in
          match rest1 with
          | EmptyString => Ok tokens
          | String ch r =>
              if Js.isDigit ch || (Nat.eqb (Js.code ch) 46 && nextIsDigit rest1) then
                let '(num, (rest2, i2)) := scan Js.isDigitOrDot rest1 i1 in
                if Nat.ltb 1 (countDots num)
                then Throw "Invalid number format: multiple dots"
                else tokenizeLoop fuel' rest2 i2 (Js.push tokens (mkToken "NUMBER" num))
              else if Js.isAlpha ch then
                let '(id, (rest2, i2)) := scan Js.isAlnum rest1 i1 in
                tokenizeLoop fuel' rest2 i2 (Js.push tokens (mkToken "IDENT" id))
              else if Js.includesChar "+-*/()" ch then
                tokenizeLoop fuel' r (S i1) (Js.push tokens (mkToken "OPERATOR" (String ch "")))
              else Throw (invalidCharacter ch i1)
          end
      end
  end.

Definition tokenize (input : string) : Result (list Token) :=
  tokenizeLoop (S (String.length input)) input 0 [].

End Lexer.

(** ** Recursive-descent parser *)

(** An AST node is an object tagged by its [type] field; the parser builds
    these four shapes and no other.  The node of type ["Variable"] is
    [VariableRef] here, [Variable] being a reserved word. *)
Inductive Node : Type :=
| Number (value : string)
| VariableRef (name : string)
| BinaryOp (operator : string) (left right : Node)
| UnaryOp (operator : string) (operand : Node).

Module Parser.

Section WithTokens.

(** [this.tokens]; the only field that changes is [this.pos], which the
    methods below take and return. *)
Variable tokens : list Token.

(** [this.tokens[this.pos] || null] *)
Definition peek (pos : nat) : option Token := nth_error tokens pos.

(** [this.tokens[this.pos++]]: the cursor after the token at [pos]. *)
Definition consume (pos : nat) : nat := S pos.

Definition expected (ty val got : string) : string :=
  "Expected " ++ ty ++ " "
    ++ (if Js.truthy val then "'" ++ val ++ "'" else "")
    ++ " but got " ++ got.

Definition eat (ty val : string) (pos : nat) : Result (Token * nat) :=
  match peek pos with
  | None => Throw (expected ty val "EOF")
  | Some tok =>
      if negb (String.eqb (type tok) ty)
         || (Js.truthy val && negb (String.eqb (value tok) val))
      then Throw (expected ty val (type tok))
      else Ok (tok, consume pos)
  end.

(** [["+", "-"].includes(v)] and [["*", "/"].includes(v)] *)
Definition isAdditive (v : string) : bool := String.eqb v "+" || String.eqb v "-".
Definition isMultiplicative (v : string) : bool := String.eqb v "*" || String.eqb v "/".

(** The three methods and the two [while] loops, each call and each loop
    turn taking one unit of fuel.  A loop carries the [node] built so
    far. *)
Fixpoint parseExpression (fuel : nat) (pos : nat) : Result (Node * nat) :=
  match fuel with
  | O => OutOfFuel
  | S f =>
      '(node, pos1) <- parseTerm f pos ;;
      parseExpressionLoop f node pos1
  end

with parseExpressionLoop (fuel : nat) (node : Node) (pos : nat)
  : Result (Node * nat) :=
  match fuel with
  | O => OutOfFuel
  | S f =>
      match peek pos with
      | Some tok =>
          if isAdditive (value tok) then
            let op := value tok in
            '(right', pos1) <- parseTerm f (consume pos) ;;
            parseExpressionLoop f (BinaryOp op node right') pos1
          else Ok (node, pos)
      | None => Ok (node, pos)
      end
  end

with parseTerm (fuel : nat) (pos : nat) : Result (Node * nat) :=
  match fuel with
  | O => OutOfFuel
  | S f =>
      '(node, pos1) <- parseFactor f pos ;;
      parseTermLoop f node pos1
  end

with parseTermLoop (fuel : nat) (node : Node) (pos : nat)
  : Result (Node * nat) :=
  match fuel with
  | O => OutOfFuel
  | S f =>
      match peek pos with
      | Some tok =>
          if isMultiplicative (value tok) then
            let op := value tok in
            '(right', pos1) <- parseFactor f (consume pos) ;;
            parseTermLoop f (BinaryOp op node right') pos1
          else Ok (node, pos)
      | None => Ok (node, pos)
      end
  end

with parseFactor (fuel : nat) (pos : nat) : Result (Node * nat) :=
  match fuel with
  | O => OutOfFuel
  | S f =>
      match peek pos with
      | None => Throw "Unexpected end of input"
      | Some tok =>
          if String.eqb (type tok) "NUMBER" then
            Ok (Number (value tok), consume pos)
          else if String.eqb (type tok) "IDENT" then
            Ok (VariableRef (value tok), consume pos)
          else if String.eqb (value tok) "(" then
            '(node, pos1) <- parseExpression f (consume pos) ;;
            '(_, pos2) <- eat "OPERATOR" ")" pos1 ;;
            Ok (node, pos2)
          else if String.eqb (value tok) "-" then
            '(expr, pos1) <- parseFactor f (consume pos) ;;
            Ok (UnaryOp "-" expr, pos1)
          else
            Throw ("Unexpected token: " ++ type tok ++ " '" ++ value tok ++ "'")
      end
  end.

End WithTokens.

(** Fuel that covers every run over [tokens]. *)
Definition enough (tokens : list Token) : nat := 3 * List.length tokens + 3.

End Parser.

(** [new Parser(tokens).parseExpression()] followed by the caller's check
    that the cursor reached the end of the tokens. *)
Definition parse (tokens : list Token) : Result Node :=
  '(ast, pos) <- Parser.parseExpression tokens (Parser.enough tokens) 0 ;;
  if negb (Nat.eqb pos (List.length tokens))
  then Throw "Extra tokens after expression"
  else Ok ast.

(** ** Tree printer *)

Definition nl : string := String (ascii_of_nat 10) "".

(** [printTree(node, prefix = "", isLeft = true, isRoot = true)] *)
Fixpoint printTreeFrom (node : Node) (prefix : string) (isLeft isRoot : bool)
  : string :=
  let connector := if isRoot then "" else if isLeft then "├── " else "└── " in
  let childPrefix := if isRoot then "" else if isLeft then "│   " else "    " in
  match node with
  | BinaryOp operator leftNode rightNode =>
      (prefix ++ connector ++ "[" ++ operator ++ "]" ++ nl)
        ++ printTreeFrom leftNode (prefix ++ childPrefix) true false
        ++ printTreeFrom rightNode (prefix ++ childPrefix) false false
  | UnaryOp operator operand =>
      (prefix ++ connector ++ "[unary " ++ operator ++ "]" ++ nl)
        ++ printTreeFrom operand (prefix ++ childPrefix) false false
  | Number value => prefix ++ connector ++ value ++ nl
  | VariableRef name => prefix ++ connector ++ name ++ nl
  end.

Definition printTree (node : Node) : string := printTreeFrom node "" true true.

(** ** Semantic analysis *)

Module Semantic.

(** The four accumulators that [semanticAnalysis] declares before it
    walks the tree. *)
Record Analysis : Type := mkAnalysis {
  variables : list string;
  constants : list string;
  operators : list string;
  nodeCount : nat
}.

Definition empty : Analysis := mkAnalysis [] [] [] 0.

(** [set.add(x)]: insertion order, no duplicates. *)
Definition setAdd (x : string) (set : list string) : list string :=
  if existsb (String.eqb x) set then set else Js.push set x.

Definition countNode (st : Analysis) : Analysis :=
  mkAnalysis (variables st) (constants st) (operators st) (S (nodeCount st)).

Definition addVariable (name : string) (st : Analysis) : Analysis :=
  mkAnalysis (setAdd name (variables st)) (constants st) (operators st) (nodeCount st).

Definition pushConstant (v : string) (st : Analysis) : Analysis :=
  mkAnalysis (variables st) (Js.push (constants st) v) (operators st) (nodeCount st).

Definition pushOperator (op : string) (st : Analysis) : Analysis :=
  mkAnalysis (variables st) (constants st) (Js.push (operators st) op) (nodeCount st).

Fixpoint walk (node : Node) (st : Analysis) : Analysis :=
  let st := countNode st in
  match node with
  | VariableRef name => addVariable name st
  | Number value => pushConstant value st
  | BinaryOp operator leftNode rightNode =>
      walk rightNode (walk leftNode (pushOperator operator st))
  | UnaryOp operator operand =>
      walk operand (pushOperator ("unary " ++ operator) st)
  end.

Definition nonEmpty (l : list string) : bool := Nat.ltb 0 (List.length l).

Definition report (st : Analysis) : string :=
  "── Semantic Analysis Report ──" ++ nl ++ nl
  ++ "AST Nodes     : " ++ Js.showNat (nodeCount st) ++ nl
  ++ "Variables     : "
     ++ (if nonEmpty (variables st) then Js.join ", " (variables st) else "(none)") ++ nl
  ++ "Constants     : "
     ++ (if nonEmpty (constants st) then Js.join ", " (constants st) else "(none)") ++ nl
  ++ "Operators     : " ++ Js.join ", " (operators st) ++ nl
  ++ "Result Type   : "
     ++ (if nonEmpty (variables st)
         then "symbolic (contains variables)" else "numeric (can evaluate)") ++ nl
  ++ (if nonEmpty (variables st)
      then nl ++ "⚠ Undeclared symbols: " ++ Js.join ", " (variables st)
           ++ nl ++ "  (values needed at runtime)"
      else nl ++ "✓ Expression is fully evaluable at compile time").

End Semantic.

Definition semanticAnalysis (ast : Node) : string :=
  Semantic.report (Semantic.walk ast Semantic.empty).

(** ** Three-address code *)

Module Tac.

(** The two locals of [generateTAC] that the inner [gen] closes over. *)
Record GenState : Type := mkGenState {
  tac : list string;
  tempCounter : nat
}.

Definition initial : GenState := mkGenState [] 0.

(** [const temp = `t${tempCounter++}`; tac.push(line temp)] *)
Definition emit (line : string -> string) (st : GenState) : string * GenState :=
  let temp := "t" ++ Js.showNat (tempCounter st) in
  (temp, mkGenState (Js.push (tac st) (line temp)) (S (tempCounter st))).

Fixpoint gen (node : Node) (st : GenState) : Result (string * GenState) :=
  match node with
  | Number value => Ok (value, st)
  | VariableRef name => Ok (name, st)
  | UnaryOp operator operand =>
      if String.eqb operator "-" then
        '(operand', st1) <- gen operand st ;;
        Ok (emit (fun temp => temp ++ " = -" ++ operand') st1)
      else Throw "Unknown node type in TAC generation"
  | BinaryOp operator leftNode rightNode =>
      '(left', st1) <- gen leftNode st ;;
      '(right', st2) <- gen rightNode st1 ;;
      Ok (emit (fun temp => temp ++ " = " ++ left' ++ " " ++ operator ++ " " ++ right') st2)
  end.

End Tac.

Definition generateTAC (node : Node) : Result (list string) :=
  '(result, st) <- Tac.gen node Tac.initial ;;
  if Nat.eqb (List.length (Tac.tac st)) 0
  then Ok (Js.push (Tac.tac st) ("result = " ++ result))
  else Ok (Js.push (Tac.tac st) ("result = " ++ result)).

(** ** Pseudo-assembly *)

(** The [for ... of] loop of [generateFinalCode]; [lines] is the array
    built so far.  A line that holds [=] but not [" = "] leaves [expr]
    undefined, and [expr.trim()] throws a [TypeError] (the message is the
    one of V8). *)
Fixpoint finalCodeLines (tacLines : list string) (lines : list string)
  : Result (list string) :=
  match tacLines with
  | [] => Ok lines
  | line :: rest =>
      if Js.includes line "=" then
        match Js.split line " = " with
        | target :: expr :: _ =>
            finalCodeLines rest
              (Js.push lines ("MOV " ++ Js.trim target ++ ", " ++ Js.trim expr))
        | _ => Throw "Cannot read properties of undefined (reading 'trim')"
        end
      else finalCodeLines rest lines
  end.

Definition generateFinalCode (tacLines : list string) : Result string :=
  'lines <- finalCodeLines tacLines [] ;;
  Ok (Js.join nl lines).

(** ** The [POST /compile] handler *)

(** The value found under [expression] in the request body.  [JsNumber]
    carries a natural number, the guard looking only at zero or not;
    [JsObject] stands for objects and arrays. *)
Inductive JsValue : Type :=
| JsUndefined
| JsNull
| JsBoolean (b : bool)
| JsNumber (n : nat)
| JsString (s : string)
| JsObject.

(** [!v] *)
Definition falsy (v : JsValue) : bool :=
  match v with
  | JsUndefined | JsNull => true
  | JsBoolean b => negb b
  | JsNumber n => Nat.eqb n 0
  | JsString s => negb (Js.truthy s)
  | JsObject => false
  end.

(** [typeof v] *)
Definition typeOf (v : JsValue) : string :=
  match v with
  | JsUndefined => "undefined"
  | JsNull | JsObject => "object"
  | JsBoolean _ => "boolean"
  | JsNumber _ => "number"
  | JsString _ => "string"
  end.

Inductive Body : Type :=
| ErrorBody (error : string)
| PhaseResults (tokens syntaxTree semantic intermediate final : string).

Record Response : Type := mkResponse { status : nat; body : Body }.

Section Handler.

(** The two observed variants of the service differ in the tree printer
    and in what they send as [semantic]; everything else is shared. *)
Variable renderTree : Node -> string.
Variable renderSemantic : Node -> string.

(** [tokens.map(t => `${t.type.padEnd(8)} ${t.value}`).join("\n")] *)
Definition tokenLines (tokens : list Token) : string :=
  Js.join nl (map (fun t => Js.padEnd 8 (type t) ++ " " ++ value t) tokens).

(** The body of the [try] block after the guard. *)
Definition pipelineWith (expression : string) : Result Body :=
  'tokens <- Lexer.tokenize expression ;;
  'ast <- parse tokens ;;
  let syntaxTree := Js.orElse (Js.trim (renderTree ast)) "(empty tree)" in
  'tacLines <- generateTAC ast ;;
  'finalCode <- generateFinalCode tacLines ;;
  Ok (PhaseResults (tokenLines tokens) syntaxTree (renderSemantic ast)
        (Js.join nl tacLines)
        (Js.orElse finalCode "(single value - no operations)")).

(** [!expression || typeof expression !== "string"] *)
Definition rejected (expression : JsValue) : bool :=
  falsy expression || negb (String.eqb (typeOf expression) "string").

Definition invalidRequest : Response :=
  mkResponse 400 (ErrorBody "Missing or invalid expression").

(** The handler; [None] only when a loop ran out of fuel.  Whatever is
    not a string is [rejected], so the pipeline runs on strings alone. *)
Definition compileWith (expression : JsValue) : option Response :=
  if rejected expression then Some invalidRequest
  else
    match expression with
    | JsString s =>
        match pipelineWith s with
        | Ok results => Some (mkResponse 200 results)
        | Throw message => Some (mkResponse 400 (ErrorBody message))
        | OutOfFuel => None
        end
    | _ => Some invalidRequest
    end.

End Handler.

Definition pipeline : string -> Result Body := pipelineWith printTree semanticAnalysis.

Definition compile : JsValue -> option Response := compileWith printTree semanticAnalysis.

(** ** The second variant of the service

    Same lexer, parser, code generators and handler; the tree is printed by
    indentation and [semantic] is [JSON.stringify(ast, null, 2)]. *)

Module Variant.

(** ["  ".repeat(indent)] *)
Fixpoint indentation (indent : nat) : string :=
  match indent with
  | O => ""
  | S k => "  " ++ indentation k
  end.

(** [printTree(node, indent = 0)] *)
Fixpoint printTreeAt (node : Node) (indent : nat) : string :=
  let prefix := indentation indent in
  match node with
  | BinaryOp operator leftNode rightNode =>
      (prefix ++ operator ++ nl)
        ++ printTreeAt leftNode (indent + 1)
        ++ printTreeAt rightNode (indent + 1)
  | UnaryOp operator operand =>
      (prefix ++ operator ++ " (unary)" ++ nl)
        ++ printTreeAt operand (indent + 1)
  | Number value => prefix ++ value ++ nl
  | VariableRef name => prefix ++ name ++ nl
  end.

Definition printTree (node : Node) : string := printTreeAt node 0.

Definition hexDigit (n : nat) : ascii :=
  if Nat.ltb n 10 then ascii_of_nat (48 + n) else ascii_of_nat (87 + n).

Definition dq : string := String (ascii_of_nat 34) "".

(** One character of a JSON string literal. *)
Definition quoteChar (c : ascii) : string :=
  let n := Js.code c in
  if Nat.eqb n 34 then "\" ++ dq
  else if Nat.eqb n 92 then "\\"
  else if Nat.eqb n 8 then "\b"
  else if Nat.eqb n 9 then "\t"
  else if Nat.eqb n 10 then "\n"
  else if Nat.eqb n 12 then "\f"
  else if Nat.eqb n 13 then "\r"
  else if Nat.ltb n 32
       then "\u00" ++ String (hexDigit (n / 16)) (String (hexDigit (n mod 16)) "")
  else String c "".

Fixpoint quoteBody (s : string) : string :=
  match s with
  | EmptyString => ""
  | String c r => quoteChar c ++ quoteBody r
  end.

Definition quote (s : string) : string := dq ++ quoteBody s ++ dq.

(** An object with its members in insertion order, each on its own line,
    two more blanks in than the object's own [indent]. *)
Definition object (indent : string) (members : list (string * string)) : string :=
  "{" ++ nl
  ++ Js.join ("," ++ nl)
       (map (fun m => indent ++ "  " ++ quote (fst m) ++ ": " ++ snd m) members)
  ++ nl ++ indent ++ "}".

Fixpoint stringifyAt (node : Node) (indent : string) : string :=
  let inner := indent ++ "  " in
  match node with
  | Number value =>
      object indent [("type", quote "Number"); ("value", quote value)]
  | VariableRef name =>
      object indent [("type", quote "Variable"); ("name", quote name)]
  | BinaryOp operator leftNode rightNode =>
      object indent [("type", quote "BinaryOp"); ("operator", quote operator);
                     ("left", stringifyAt leftNode inner);
                     ("right", stringifyAt rightNode inner)]
  | UnaryOp operator operand =>
      object indent [("type", quote "UnaryOp"); ("operator", quote operator);
                     ("operand", stringifyAt operand inner)]
  end.

(** [JSON.stringify(ast, null, 2)] *)
Definition stringify (ast : Node) : string := stringifyAt ast "".

Definition compile : JsValue -> option Response := compileWith printTree stringify.

End Variant.

(** ** The store of the process

    The pipeline once more, this time run against the store of the Node.js
    process, which lives as long as the process does and is handed from
    one request to the next.  Every array literal, [new Set()],
    [new Parser(tokens)] and every [let] variable that a closure captures
    is a cell of the store, allocated where the source declares it and
    read and written through its address.  Tokens, AST nodes and strings
    are never modified once built and stay values; so do the locals that
    no closure captures. *)

Module Heap.

Definition address : Type := nat.

Inductive Cell : Type :=
| NumberCell (n : nat)
| StringsCell (items : list string)
| TokensCell (items : list Token)
| ParserCell (tokens : address) (pos : nat).

(** The cells handed out so far are those below [next]. *)
Record heap : Type := mkHeap { next : address; cell : address -> option Cell }.

Definition empty : heap := mkHeap 0 (fun _ => None).

Definition write (a : address) (c : Cell) (h : heap) : heap :=
  mkHeap (next h) (fun b => if Nat.eqb b a then Some c else cell h b).

Definition allocate (c : Cell) (h : heap) : address * heap :=
  (next h, mkHeap (S (next h)) (fun b => if Nat.eqb b (next h) then Some c else cell h b)).

End Heap.

(** A computation on the store: its result and the store it leaves, also
    when it throws. *)
Definition Run (A : Type) : Type := Heap.heap -> Result A * Heap.heap.

Definition ret {A : Type} (a : A) : Run A := fun h => (Ok a, h).

Definition raise {A : Type} (message : string) : Run A := fun h => (Throw message, h).

Definition exhausted {A : Type} : Run A := fun h => (OutOfFuel, h).

Definition andThen {A B : Type} (m : Run A) (k : A -> Run B) : Run B :=
  fun h =>
    match m h with
    | (Ok a, h') => k a h'
    | (Throw message, h') => (Throw message, h')
    | (OutOfFuel, h') => (OutOfFuel, h')
    end.

Notation "x <~ m ;; k" := (andThen m (fun x => k))
  (at level 61, m at next level, right associativity).

Notation "m ;; k" := (andThen m (fun _ => k))
  (at level 61, right associativity).

Module Process.

Import Heap.

(** A declaration with its initialiser, an assignment, and the reads; a
    read finds the kind of value that the declaration put there. *)
Definition new (c : Cell) : Run address :=
  fun h => let '(a, h') := allocate c h in (Ok a, h').

Definition assign (a : address) (c : Cell) : Run unit :=
  fun h => (Ok tt, write a c h).

Definition wrongCell : string := "TypeError: the cell holds another kind of value".

Definition readNumber (a : address) : Run nat :=
  fun h => match cell h a with
           | Some (NumberCell n) => (Ok n, h)
           | _ => (Throw wrongCell, h)
           end.

Definition readStrings (a : address) : Run (list string) :=
  fun h => match cell h a with
           | Some (StringsCell items) => (Ok items, h)
           | _ => (Throw wrongCell, h)
           end.

Definition readTokens (a : address) : Run (list Token) :=
  fun h => match cell h a with
           | Some (TokensCell items) => (Ok items, h)
           | _ => (Throw wrongCell, h)
           end.

Definition readParser (a : address) : Run (address * nat) :=
  fun h => match cell h a with
           | Some (ParserCell tokens pos) => (Ok (tokens, pos), h)
           | _ => (Throw wrongCell, h)
           end.

(** [arr.push(x)], [set.add(x)], [n++] as an expression and as a
    statement. *)
Definition pushString (arr : address) (x : string) : Run unit :=
  items <~ readStrings arr ;;
  assign arr (StringsCell (Js.push items x)).

Definition pushToken (arr : address) (x : Token) : Run unit :=
  items <~ readTokens arr ;;
  assign arr (TokensCell (Js.push items x)).

Definition addToSet (set : address) (x : string) : Run unit :=
  items <~ readStrings set ;;
  assign set (StringsCell (Semantic.setAdd x items)).

Definition postIncrement (counter : address) : Run nat :=
  n <~ readNumber counter ;;
  assign counter (NumberCell (S n)) ;;
  ret n.

Definition increment (counter : address) : Run unit :=
  n <~ readNumber counter ;;
  assign counter (NumberCell (S n)).

(** *** [tokenize] *)

(** The text of [input] from index [i] on. *)
Fixpoint sliceFrom (i : nat) (input : string) : string :=
  match i, input with
  | O, _ => input
  | S k, String _ r => sliceFrom k r
  | S _, EmptyString => EmptyString
  end.

(** The closure [skipWhitespace] and the two inner [while] loops: each
    reads [i], runs over the text from there and leaves [i] where it
    stopped. *)
Definition skipWhitespace (input : string) (i : address) : Run unit :=
  start <~ readNumber i ;;
  assign i (NumberCell (snd (Lexer.skipWhitespace (sliceFrom start input) start))).

Definition scan (p : ascii -> bool) (input : string) (i : address) : Run string :=
  start <~ readNumber i ;;
  let '(acc, (_, stop)) := Lexer.scan p (sliceFrom start input) start in
  assign i (NumberCell stop) ;;
  ret acc.

Fixpoint tokenizeLoop (fuel : nat) (input : string) (tokens i : address) : Run unit :=
  match fuel with
  | O => exhausted
  | S fuel' =>
      start <~ readNumber i ;;
      match sliceFrom start input with
      | EmptyString => ret tt
      | String _ _ =>
          skipWhitespace input i ;;
          here <~ readNumber i ;;
          match sliceFrom here input with
          | EmptyString => ret tt
          | String ch _ =>
              if Js.isDigit ch
                 || (Nat.eqb (Js.code ch) 46 && Lexer.nextIsDigit (sliceFrom here input))
              then
                num <~ scan Js.isDigitOrDot input i ;;
                if Nat.ltb 1 (Lexer.countDots num)
                then raise "Invalid number format: multiple dots"
                else
                  pushToken tokens (mkToken "NUMBER" num) ;;
                  tokenizeLoop fuel' input tokens i
              else if Js.isAlpha ch then
                id <~ scan Js.isAlnum input i ;;
                pushToken tokens (mkToken "IDENT" id) ;;
                tokenizeLoop fuel' input tokens i
              else if Js.includesChar "+-*/()" ch then
                pushToken tokens (mkToken "OPERATOR" (String ch "")) ;;
                increment i ;;
                tokenizeLoop fuel' input tokens i
              else raise (Lexer.invalidCharacter ch here)
          end
      end
  end.

(** [const tokens = []; let i = 0; ...; return tokens]: the caller gets
    the address of the array. *)
Definition tokenize (input : string) : Run address :=
  tokens <~ new (TokensCell []) ;;
  i <~ new (NumberCell 0) ;;
  tokenizeLoop (S (String.length input)) input tokens i ;;
  ret tokens.

(** *** [class Parser] *)

(** [new Parser(tokens)]: the object refers to the array it was given. *)
Definition newParser (tokens : address) : Run address := new (ParserCell tokens 0).

(** [this.tokens[this.pos] || null] *)
Definition peek (this : address) : Run (option Token) :=
  fields <~ readParser this ;;
  items <~ readTokens (fst fields) ;;
  ret (nth_error items (snd fields)).

(** [this.tokens[this.pos++]] *)
Definition consume (this : address) : Run (option Token) :=
  fields <~ readParser this ;;
  items <~ readTokens (fst fields) ;;
  assign this (ParserCell (fst fields) (S (snd fields))) ;;
  ret (nth_error items (snd fields)).

(** [tok.value] on what [consume] returned. *)
Definition valueOf (tok : option Token) : Run string :=
  match tok with
  | Some t => ret (value t)
  | None => raise "Cannot read properties of undefined (reading 'value')"
  end.

Definition eat (this : address) (ty val : string) : Run (option Token) :=
  tok <~ peek this ;;
  match tok with
  | None => raise (Parser.expected ty val "EOF")
  | Some t =>
      if negb (String.eqb (type t) ty)
         || (Js.truthy val && negb (String.eqb (value t) val))
      then raise (Parser.expected ty val (type t))
      else consume this
  end.

Fixpoint parseExpression (fuel : nat) (this : address) : Run Node :=
  match fuel with
  | O => exhausted
  | S f =>
      node <~ parseTerm f this ;;
      parseExpressionLoop f this node
  end

with parseExpressionLoop (fuel : nat) (this : address) (node : Node) : Run Node :=
  match fuel with
  | O => exhausted
  | S f =>
      tok <~ peek this ;;
      match tok with
      | Some t =>
          if Parser.isAdditive (value t) then
            consumed <~ consume this ;;
            op <~ valueOf consumed ;;
            right' <~ parseTerm f this ;;
            parseExpressionLoop f this (BinaryOp op node right')
          else ret node
      | None => ret node
      end
  end

with parseTerm (fuel : nat) (this : address) : Run Node :=
  match fuel with
  | O => exhausted
  | S f =>
      node <~ parseFactor f this ;;
      parseTermLoop f this node
  end

with parseTermLoop (fuel : nat) (this : address) (node : Node) : Run Node :=
  match fuel with
  | O => exhausted
  | S f =>
      tok <~ peek this ;;
      match tok with
      | Some t =>
          if Parser.isMultiplicative (value t) then
            consumed <~ consume this ;;
            op <~ valueOf consumed ;;
            right' <~ parseFactor f this ;;
            parseTermLoop f this (BinaryOp op node right')
          else ret node
      | None => ret node
      end
  end

with parseFactor (fuel : nat) (this : address) : Run Node :=
  match fuel with
  | O => exhausted
  | S f =>
      tok <~ peek this ;;
      match tok with
      | None => raise "Unexpected end of input"
      | Some t =>
          if String.eqb (type t) "NUMBER" then
            consume this ;;
            ret (Number (value t))
          else if String.eqb (type t) "IDENT" then
            consume this ;;
            ret (VariableRef (value t))
          else if String.eqb (value t) "(" then
            consume this ;;
            node <~ parseExpression f this ;;
            eat this "OPERATOR" ")" ;;
            ret node
          else if String.eqb (value t) "-" then
            consume this ;;
            expr <~ parseFactor f this ;;
            ret (UnaryOp "-" expr)
          else
            raise ("Unexpected token: " ++ type t ++ " '" ++ value t ++ "'")
      end
  end.

(** *** [semanticAnalysis] *)

Fixpoint walk (variables constants operators nodeCount : address) (node : Node)
  : Run unit :=
  increment nodeCount ;;
  match node with
  | VariableRef name => addToSet variables name
  | Number value => pushString constants value
  | BinaryOp operator leftNode rightNode =>
      pushString operators operator ;;
      walk variables constants operators nodeCount leftNode ;;
      walk variables constants operators nodeCount rightNode
  | UnaryOp operator operand =>
      pushString operators ("unary " ++ operator) ;;
      walk variables constants operators nodeCount operand
  end.

Definition semanticAnalysis (ast : Node) : Run string :=
  variables <~ new (StringsCell []) ;;
  constants <~ new (StringsCell []) ;;
  operators <~ new (StringsCell []) ;;
  nodeCount <~ new (NumberCell 0) ;;
  walk variables constants operators nodeCount ast ;;
  vs <~ readStrings variables ;;
  cs <~ readStrings constants ;;
  os <~ readStrings operators ;;
  n <~ readNumber nodeCount ;;
  ret (Semantic.report (Semantic.mkAnalysis vs cs os n)).

(** *** [generateTAC] *)

Fixpoint gen (tac tempCounter : address) (node : Node) : Run string :=
  match node with
  | Number value => ret value
  | VariableRef name => ret name
  | UnaryOp operator operand =>
      if String.eqb operator "-" then
        operand' <~ gen tac tempCounter operand ;;
        n <~ postIncrement tempCounter ;;
        let temp := "t" ++ Js.showNat n in
        pushString tac (temp ++ " = -" ++ operand') ;;
        ret temp
      else raise "Unknown node type in TAC generation"
  | BinaryOp operator leftNode rightNode =>
      left' <~ gen tac tempCounter leftNode ;;
      right' <~ gen tac tempCounter rightNode ;;
      n <~ postIncrement tempCounter ;;
      let temp := "t" ++ Js.showNat n in
      pushString tac (temp ++ " = " ++ left' ++ " " ++ operator ++ " " ++ right') ;;
      ret temp
  end.

(** [const tac = []; let tempCounter = 0; ...; return tac] *)
Definition generateTAC (node : Node) : Run address :=
  tac <~ new (StringsCell []) ;;
  tempCounter <~ new (NumberCell 0) ;;
  result <~ gen tac tempCounter node ;;
  lines <~ readStrings tac ;;
  (if Nat.eqb (List.length lines) 0
   then pushString tac ("result = " ++ result)
   else pushString tac ("result = " ++ result)) ;;
  ret tac.

(** *** [generateFinalCode] *)

(** The [for ... of] loop over the lines found in [tacLines]. *)
Fixpoint finalCodeLoop (tacLines : list string) (lines : address) : Run unit :=
  match tacLines with
  | [] => ret tt
  | line :: rest =>
      if Js.includes line "=" then
        match Js.split line " = " with
        | target :: expr :: _ =>
            pushString lines ("MOV " ++ Js.trim target ++ ", " ++ Js.trim expr) ;;
            finalCodeLoop rest lines
        | _ => raise "Cannot read properties of undefined (reading 'trim')"
        end
      else finalCodeLoop rest lines
  end.

Definition generateFinalCode (tacLines : address) : Run string :=
  lines <~ new (StringsCell []) ;;
  items <~ readStrings tacLines ;;
  finalCodeLoop items lines ;;
  built <~ readStrings lines ;;
  ret (Js.join nl built).

(** *** The [POST /compile] handler *)

(** The body of the [try] block after the guard.  The first read of
    [tokens] only sizes the fuel of the parser. *)
Definition pipeline (expression : string) : Run Body :=
  tokens <~ tokenize expression ;;
  parser <~ newParser tokens ;;
  given <~ readTokens tokens ;;
  ast <~ parseExpression (Parser.enough given) parser ;;
  fields <~ readParser parser ;;
  items <~ readTokens tokens ;;
  if negb (Nat.eqb (snd fields) (List.length items))
  then raise "Extra tokens after expression"
  else
    let syntaxTree := Js.orElse (Js.trim (printTree ast)) "(empty tree)" in
    tacLines <~ generateTAC ast ;;
    finalCode <~ generateFinalCode tacLines ;;
    shown <~ readTokens tokens ;;
    semantic <~ semanticAnalysis ast ;;
    intermediate <~ readStrings tacLines ;;
    ret (PhaseResults (tokenLines shown) syntaxTree semantic
           (Js.join nl intermediate)
           (Js.orElse finalCode "(single value - no operations)")).

(** The handler: the response and the store it leaves to the next
    request. *)
Definition compile (expression : JsValue) (h : heap) : option Response * heap :=
  if rejected expression then (Some invalidRequest, h)
  else
    match expression with
    | JsString s =>
        match pipeline s h with
        | (Ok results, h') => (Some (mkResponse 200 results), h')
        | (Throw message, h') => (Some (mkResponse 400 (ErrorBody message)), h')
        | (OutOfFuel, h') => (None, h')
        end
    | _ => (Some invalidRequest, h)
    end.

(** The requests that the process serves, one after the other, each on
    the store that the one before it left. *)
Fixpoint serve (requests : list JsValue) (h : heap) : list (option Response) * heap :=
  match requests with
  | [] => ([], h)
  | request :: rest =>
      let '(response, h1) := compile request h in
      let '(responses, h2) := serve rest h1 in
      (response :: responses, h2)
  end.

End Process.

(** The store [h'] still holds every cell of [h] as it was: whatever ran
    in between wrote only to cells that it allocated itself. *)
Definition extends (h h' : Heap.heap) : Prop :=
  Heap.next h <= Heap.next h'
  /\ forall a, a < Heap.next h -> Heap.cell h' a = Heap.cell h a.

(** ** Vocabulary of the properties *)

(** A successful call leaves the cursor strictly further, within the
    tokens. *)
Definition advances (tokens : list Token) (pos : nat) (r : Result (Node * nat)) : Prop :=
  forall node pos', r = Ok (node, pos') -> pos < pos' <= List.length tokens.

(** A successful loop leaves the cursor where it was or further. *)
Definition keeps (tokens : list Token) (pos : nat) (r : Result (Node * nat)) : Prop :=
  forall node pos', r = Ok (node, pos') ->
    pos <= pos' /\ (pos <= List.length tokens -> pos' <= List.length tokens).

(** Line [k] of [lines] assigns to the temporary [start + k]. *)
Definition numberedFrom (start : nat) (lines : list string) : Prop :=
  forall k line,
    nth_error lines k = Some line ->
    Js.startsWith ("t" ++ Js.showNat (start + k) ++ " = ") line = true.

(** A line of pseudo-assembly. *)
Definition startsWithMOV (line : string) : Prop := Js.startsWith "MOV " line = true.

(** Fields of a response. *)

Definition intermediateOf (r : option Response) : option string :=
  match r with
  | Some (mkResponse _ (PhaseResults _ _ _ i _)) => Some i
  | _ => None
  end.

Definition finalOf (r : option Response) : option string :=
  match r with
  | Some (mkResponse _ (PhaseResults _ _ _ _ f)) => Some f
  | _ => None
  end.

Definition semanticOf (r : option Response) : option string :=
  match r with
  | Some (mkResponse _ (PhaseResults _ _ m _ _)) => Some m
  | _ => None
  end.

(** ** Vocabulary of the further properties *)

(** Every character of [s] satisfies [p]. *)
Fixpoint forallChars (p : ascii -> bool) (s : string) : bool :=
  match s with
  | EmptyString => true
  | String c r => p c && forallChars p r
  end.

(** The text [rest] is what [input] holds from index [i] on. *)
Definition suffixAt (input : string) (i : nat) (rest : string) : Prop :=
  forall k, String.get k rest = String.get (i + k) input.

(** The shapes of the tokens that [tokenize] pushes: a [NUMBER] starts as a
    number does, is made of digits and dots and has at most one dot; an
    [IDENT] is a letter followed by letters and digits; an [OPERATOR] is one
    of the six operator characters. *)
Definition wellFormedToken (t : Token) : bool :=
  if String.eqb (type t) "NUMBER" then
    match value t with
    | String c _ =>
        (Js.isDigit c || (Nat.eqb (Js.code c) 46 && Lexer.nextIsDigit (value t)))
        && forallChars Js.isDigitOrDot (value t)
        && Nat.leb (Lexer.countDots (value t)) 1
    | EmptyString => false
    end
  else if String.eqb (type t) "IDENT" then
    match value t with
    | String c r => Js.isAlpha c && forallChars Js.isAlnum r
    | EmptyString => false
    end
  else if String.eqb (type t) "OPERATOR" then
    match value t with
    | String c EmptyString => Js.includesChar "+-*/()" c
    | _ => false
    end
  else false.

(** What the two [throw]s of [tokenize] say. *)
Definition lexicalError (input : string) (message : string) : Prop :=
  message = "Invalid number format: multiple dots"
  \/ exists ch i,
       message = Lexer.invalidCharacter ch i
       /\ String.get i input = Some ch
       /\ Js.isSpace ch = false
       /\ Js.isDigit ch = false
       /\ Js.isAlpha ch = false
       /\ Js.includesChar "+-*/()" ch = false.

(** A token that can begin a factor, and one that can end it. *)
Definition opensOperand (t : Token) : bool :=
  String.eqb (type t) "NUMBER" || String.eqb (type t) "IDENT"
  || String.eqb (value t) "(" || String.eqb (value t) "-".

Definition closesOperand (t : Token) : bool :=
  String.eqb (type t) "NUMBER" || String.eqb (type t) "IDENT"
  || (String.eqb (type t) "OPERATOR" && String.eqb (value t) ")").

(** The token before the cursor [pos] ends an operand. *)
Definition endsOperand (tokens : list Token) (pos : nat) : Prop :=
  exists t, 0 < pos /\ nth_error tokens (pos - 1) = Some t /\ closesOperand t = true.

(** The number of nodes of a tree. *)
Fixpoint size (node : Node) : nat :=
  match node with
  | Number _ | VariableRef _ => 1
  | BinaryOp _ l r => 1 + size l + size r
  | UnaryOp _ e => 1 + size e
  end.

(** The operators that the parser writes into a tree. *)
Fixpoint parserShaped (node : Node) : bool :=
  match node with
  | Number _ | VariableRef _ => true
  | BinaryOp op l r =>
      (Parser.isAdditive op || Parser.isMultiplicative op)
      && parserShaped l && parserShaped r
  | UnaryOp op e => String.eqb op "-" && parserShaped e
  end.

(** The names of the [Variable] leaves of a tree, the texts of its [Number]
    leaves, both from left to right, and the labels of its operator nodes,
    parents before children. *)
Fixpoint variableLeaves (node : Node) : list string :=
  match node with
  | VariableRef name => [name]
  | Number _ => []
  | BinaryOp _ l r => (variableLeaves l ++ variableLeaves r)%list
  | UnaryOp _ e => variableLeaves e
  end.

Fixpoint numberLeaves (node : Node) : list string :=
  match node with
  | VariableRef _ => []
  | Number v => [v]
  | BinaryOp _ l r => (numberLeaves l ++ numberLeaves r)%list
  | UnaryOp _ e => numberLeaves e
  end.

Fixpoint operatorLabels (node : Node) : list string :=
  match node with
  | VariableRef _ | Number _ => []
  | BinaryOp op l r => (op :: operatorLabels l ++ operatorLabels r)%list
  | UnaryOp op e => ("unary " ++ op) :: operatorLabels e
  end.

(** Every [UnaryOp] of the tree carries [-]. *)
Fixpoint unaryMinusOnly (node : Node) : bool :=
  match node with
  | VariableRef _ | Number _ => true
  | BinaryOp _ l r => unaryMinusOnly l && unaryMinusOnly r
  | UnaryOp op e => String.eqb op "-" && unaryMinusOnly e
  end.

(** A line that holds the separator of [generateFinalCode]. *)
Definition hasSeparator (line : string) : Prop :=
  exists target rest, line = target ++ " = " ++ rest.

(** The number of line ends of a text. *)
Fixpoint countNewlines (s : string) : nat :=
  match s with
  | EmptyString => 0
  | String c r => (if Nat.eqb (Js.code c) 10 then 1 else 0) + countNewlines r
  end.

(** No operator, value or name of the tree holds a line end. *)
Fixpoint singleLineTexts (node : Node) : bool :=
  match node with
  | Number v => Nat.eqb (countNewlines v) 0
  | VariableRef n => Nat.eqb (countNewlines n) 0
  | BinaryOp op l r =>
      Nat.eqb (countNewlines op) 0 && singleLineTexts l && singleLineTexts r
  | UnaryOp op e => Nat.eqb (countNewlines op) 0 && singleLineTexts e
  end.

(** The tokens that become leaves, and the leaves of a tree written back as
    tokens, from left to right. *)
Definition isOperandToken (t : Token) : bool :=
  String.eqb (type t) "NUMBER" || String.eqb (type t) "IDENT".

Fixpoint leafTokens (node : Node) : list Token :=
  match node with
  | Number v => [mkToken "NUMBER" v]
  | VariableRef n => [mkToken "IDENT" n]
  | BinaryOp _ l r => (leafTokens l ++ leafTokens r)%list
  | UnaryOp _ e => leafTokens e
  end.

(** The tokens from cursor [a] up to cursor [b], and the operands among
    them. *)
Definition between (tokens : list Token) (a b : nat) : list Token :=
  firstn (b - a) (skipn a tokens).

Definition operandsBetween (tokens : list Token) (a b : nat) : list Token :=
  filter isOperandToken (between tokens a b).

(** A token at which both loops of the parser stop. *)
Definition stopsLoops (t : Token) : bool :=
  negb (Parser.isAdditive (value t)) && negb (Parser.isMultiplicative (value t)).

(** The text after a token ends the token: it is empty or starts with a
    blank. *)
Definition endsWord (tail : string) : Prop :=
  match tail with
  | EmptyString => True
  | String c _ => Js.isSpace c = true
  end.

(** ** Vocabulary of left associativity *)

(** The tokens [ts] are one whole operand of the [*]/[/] loop, or of the
    [+]/[-] loop: a call of [parseFactor], or of [parseTerm], that starts
    at the first of them returns [tree] with the cursor behind the last. *)
Definition parsesAsFactor (ts : list Token) (tree : Node) : Prop :=
  exists fuel, Parser.parseFactor ts fuel 0 = Ok (tree, List.length ts).

Definition parsesAsTerm (ts : list Token) (tree : Node) : Prop :=
  exists fuel, Parser.parseTerm ts fuel 0 = Ok (tree, List.length ts).

(** One turn of a loop: the operator it consumes, the tokens of the operand
    to its right and the tree of that operand. *)
Record Turn : Type := mkTurn {
  operatorText : string;
  operandTokens : list Token;
  operandTree : Node
}.

(** [first op1 operand1 op2 operand2 ...] as tokens. *)
Definition turnsTokens (turns : list Turn) : list Token :=
  flat_map (fun t => mkToken "OPERATOR" (operatorText t) :: operandTokens t) turns.

Definition chain (first : list Token) (turns : list Turn) : list Token :=
  (first ++ turnsTokens turns)%list.

(** Each turn wraps the node built so far as the left child of a new
    [BinaryOp], whose right child is the operand of the turn. *)
Definition foldLeft (first : Node) (turns : list Turn) : Node :=
  fold_left (fun built t => BinaryOp (operatorText t) built (operandTree t)) turns first.

(** Turns of the loop of [parseTerm] and of the loop of [parseExpression]. *)
Definition factorTurns (turns : list Turn) : Prop :=
  Forall (fun t => Parser.isMultiplicative (operatorText t) = true
                   /\ parsesAsFactor (operandTokens t) (operandTree t)) turns.

Definition termTurns (turns : list Turn) : Prop :=
  Forall (fun t => Parser.isAdditive (operatorText t) = true
                   /\ parsesAsTerm (operandTokens t) (operandTree t)) turns.

(** The token that follows, if any, is not [*] or [/]; is none of the four
    binary operators. *)
Definition endsTerm (after : list Token) : Prop :=
  match after with
  | [] => True
  | t :: _ => Parser.isMultiplicative (value t) = false
  end.

Definition endsExpression (after : list Token) : Prop :=
  match after with
  | [] => True
  | t :: _ => stopsLoops t = true
  end.

(** ** Vocabulary of the store *)

(** The result of a run on the store next to the result of the same
    function in state-passing style: the value without the state. *)
Definition mapResult {A B : Type} (f : A -> B) (r : Result A) : Result B :=
  match r with
  | Ok a => Ok (f a)
  | Throw message => Throw message
  | OutOfFuel => OutOfFuel
  end.

(** Between [h] and [h'] nothing was allocated, and only the cells
    [owned] were written. *)
Definition sameElsewhere (owned : list Heap.address) (h h' : Heap.heap) : Prop :=
  Heap.next h' = Heap.next h
  /\ forall a, ~ In a owned -> Heap.cell h' a = Heap.cell h a.

(** The cells of [generateTAC], of [semanticAnalysis] and of a [Parser]
    hold the state [st], or the cursor [pos]. *)
Definition holdsGenState (tac tempCounter : Heap.address) (st : Tac.GenState)
           (h : Heap.heap) : Prop :=
  Heap.cell h tac = Some (Heap.StringsCell (Tac.tac st))
  /\ Heap.cell h tempCounter = Some (Heap.NumberCell (Tac.tempCounter st)).

Definition holdsAnalysis (variables constants operators nodeCount : Heap.address)
           (st : Semantic.Analysis) (h : Heap.heap) : Prop :=
  Heap.cell h variables = Some (Heap.StringsCell (Semantic.variables st))
  /\ Heap.cell h constants = Some (Heap.StringsCell (Semantic.constants st))
  /\ Heap.cell h operators = Some (Heap.StringsCell (Semantic.operators st))
  /\ Heap.cell h nodeCount = Some (Heap.NumberCell (Semantic.nodeCount st)).

Definition holdsParser (this tokens : Heap.address) (items : list Token) (pos : nat)
           (h : Heap.heap) : Prop :=
  Heap.cell h this = Some (Heap.ParserCell tokens pos)
  /\ Heap.cell h tokens = Some (Heap.TokensCell items).

(** The array that a run returned by its address, as the caller finds it
    in the store that the run left. *)
Definition returnedLines (run : Result Heap.address * Heap.heap) : Result (list string) :=
  match fst run with
  | Ok a =>
      match Heap.cell (snd run) a with
      | Some (Heap.StringsCell lines) => Ok lines
      | _ => Throw Process.wrongCell
      end
  | Throw message => Throw message
  | OutOfFuel => OutOfFuel
  end.

(** * Properties *)

(** ** The tokenizer always returns *)

Lemma skipWhitespace_length (rest : string) (i : nat) :
  String.length (fst (Lexer.skipWhitespace rest i)) <= String.length rest.
Proof.
  revert i. induction rest as [|c r IH]; intros i; simpl.
  - lia.
  - destruct (Js.isSpace c); simpl.
    + specialize (IH (S i)). lia.
    + lia.
Qed.

Lemma scan_length (p : ascii -> bool) (rest : string) (i : nat) :
  String.length (fst (snd (Lexer.scan p rest i))) <= String.length rest.
Proof.
  revert i. induction rest as [|c r IH]; intros i; simpl.
  - lia.
  - destruct (p c); simpl.
    + specialize (IH (S i)).
      destruct (Lexer.scan p r (S i)) as [acc [rest' i']]. simpl in *. lia.
    + lia.
Qed.

Lemma scan_consumes (p : ascii -> bool) (c : ascii) (r : string) (i : nat) :
  p c = true ->
  String.length (fst (snd (Lexer.scan p (String c r) i))) <= String.length r.
Proof.
  intros Hp. simpl. rewrite Hp.
  pose proof (scan_length p r (S i)) as H.
  destruct (Lexer.scan p r (S i)) as [acc [rest' i']]. simpl in *. exact H.
Qed.

Lemma number_start_is_digit_or_dot (ch : ascii) (rest : string) :
  Js.isDigit ch || (Nat.eqb (Js.code ch) 46 && Lexer.nextIsDigit rest) = true ->
  Js.isDigitOrDot ch = true.
Proof.
  unfold Js.isDigitOrDot. intros H.
  apply orb_true_iff in H. destruct H as [H | H].
  - rewrite H. reflexivity.
  - apply andb_true_iff in H. destruct H as [H _]. rewrite H. apply orb_true_r.
Qed.

Lemma alpha_is_alnum (ch : ascii) : Js.isAlpha ch = true -> Js.isAlnum ch = true.
Proof. unfold Js.isAlnum. intros H. rewrite H. reflexivity. Qed.

Lemma tokenizeLoop_total (fuel : nat) :
  forall (rest : string) (i : nat) (tokens : list Token),
    String.length rest < fuel ->
    Lexer.tokenizeLoop fuel rest i tokens <> OutOfFuel.
Proof.
  induction fuel as [|fuel IH]; intros rest i tokens Hlen; [lia|].
  destruct rest as [|c0 r0]; [discriminate|].
  cbn [Lexer.tokenizeLoop].
  pose proof (skipWhitespace_length (String c0 r0) i) as Hskip.
  destruct (Lexer.skipWhitespace (String c0 r0) i) as [rest1 i1].
  cbn [fst] in Hskip.
  destruct rest1 as [|ch r]; [discriminate|].
  cbn [String.length] in Hskip, Hlen.
  destruct (Js.isDigit ch || (Nat.eqb (Js.code ch) 46 && Lexer.nextIsDigit (String ch r)))
    eqn:Hnum.
  - pose proof (scan_consumes Js.isDigitOrDot ch r i1
                  (number_start_is_digit_or_dot _ _ Hnum)) as Hscan.
    destruct (Lexer.scan Js.isDigitOrDot (String ch r) i1) as [num [rest2 i2]].
    cbn [fst snd] in Hscan.
    destruct (Nat.ltb 1 (Lexer.countDots num)); [discriminate|].
    apply IH. lia.
  - destruct (Js.isAlpha ch) eqn:Halpha.
    + pose proof (scan_consumes Js.isAlnum ch r i1 (alpha_is_alnum _ Halpha)) as Hscan.
      destruct (Lexer.scan Js.isAlnum (String ch r) i1) as [id [rest2 i2]].
      cbn [fst snd] in Hscan.
      apply IH. lia.
    + destruct (Js.includesChar "+-*/()" ch); [|discriminate].
      apply IH. lia.
Qed.

Lemma tokenize_total (input : string) : Lexer.tokenize input <> OutOfFuel.
Proof. unfold Lexer.tokenize. apply tokenizeLoop_total. lia. Qed.

(** ** The parser: unfolding equations *)

Section ParserFacts.

Variable tokens : list Token.

Lemma parseExpression_S (f pos : nat) :
  Parser.parseExpression tokens (S f) pos =
  bind (Parser.parseTerm tokens f pos)
       (fun r => Parser.parseExpressionLoop tokens f (fst r) (snd r)).
Proof.
  cbn [Parser.parseExpression].
  destruct (Parser.parseTerm tokens f pos) as [[node pos1]| |]; reflexivity.
Qed.

Lemma parseTerm_S (f pos : nat) :
  Parser.parseTerm tokens (S f) pos =
  bind (Parser.parseFactor tokens f pos)
       (fun r => Parser.parseTermLoop tokens f (fst r) (snd r)).
Proof.
  cbn [Parser.parseTerm].
  destruct (Parser.parseFactor tokens f pos) as [[node pos1]| |]; reflexivity.
Qed.

Lemma parseExpressionLoop_S (f : nat) (node : Node) (pos : nat) :
  Parser.parseExpressionLoop tokens (S f) node pos =
  match Parser.peek tokens pos with
  | Some tok =>
      if Parser.isAdditive (value tok) then
        bind (Parser.parseTerm tokens f (S pos))
             (fun r => Parser.parseExpressionLoop tokens f
                         (BinaryOp (value tok) node (fst r)) (snd r))
      else Ok (node, pos)
  | None => Ok (node, pos)
  end.
Proof.
  cbn [Parser.parseExpressionLoop].
  destruct (Parser.peek tokens pos) as [tok|]; [|reflexivity].
  destruct (Parser.isAdditive (value tok)); [|reflexivity].
  unfold Parser.consume.
  destruct (Parser.parseTerm tokens f (S pos)) as [[node1 pos1]| |]; reflexivity.
Qed.

Lemma parseTermLoop_S (f : nat) (node : Node) (pos : nat) :
  Parser.parseTermLoop tokens (S f) node pos =
  match Parser.peek tokens pos with
  | Some tok =>
      if Parser.isMultiplicative (value tok) then
        bind (Parser.parseFactor tokens f (S pos))
             (fun r => Parser.parseTermLoop tokens f
                         (BinaryOp (value tok) node (fst r)) (snd r))
      else Ok (node, pos)
  | None => Ok (node, pos)
  end.
Proof.
  cbn [Parser.parseTermLoop].
  destruct (Parser.peek tokens pos) as [tok|]; [|reflexivity].
  destruct (Parser.isMultiplicative (value tok)); [|reflexivity].
  unfold Parser.consume.
  destruct (Parser.parseFactor tokens f (S pos)) as [[node1 pos1]| |]; reflexivity.
Qed.

Lemma parseFactor_S (f pos : nat) :
  Parser.parseFactor tokens (S f) pos =
  match Parser.peek tokens pos with
  | None => Throw "Unexpected end of input"
  | Some tok =>
      if String.eqb (type tok) "NUMBER" then Ok (Number (value tok), S pos)
      else if String.eqb (type tok) "IDENT" then Ok (VariableRef (value tok), S pos)
      else if String.eqb (value tok) "(" then
        bind (Parser.parseExpression tokens f (S pos))
             (fun r => bind (Parser.eat tokens "OPERATOR" ")" (snd r))
                            (fun e => Ok (fst r, snd e)))
      else if String.eqb (value tok) "-" then
        bind (Parser.parseFactor tokens f (S pos)) (fun r => Ok (UnaryOp "-" (fst r), snd r))
      else Throw ("Unexpected token: " ++ type tok ++ " '" ++ value tok ++ "'")
  end.
Proof.
  cbn [Parser.parseFactor].
  destruct (Parser.peek tokens pos) as [tok|]; [|reflexivity].
  unfold Parser.consume.
  destruct (String.eqb (type tok) "NUMBER"); [reflexivity|].
  destruct (String.eqb (type tok) "IDENT"); [reflexivity|].
  destruct (String.eqb (value tok) "(").
  - destruct (Parser.parseExpression tokens f (S pos)) as [[node1 pos1]| |];
      [|reflexivity|reflexivity].
    cbn [bind fst snd].
    destruct (Parser.eat tokens "OPERATOR" ")" pos1) as [[t pos2]| |]; reflexivity.
  - destruct (String.eqb (value tok) "-"); [|reflexivity].
    destruct (Parser.parseFactor tokens f (S pos)) as [[node1 pos1]| |]; reflexivity.
Qed.

Lemma peek_Some_lt (pos : nat) (tok : Token) :
  Parser.peek tokens pos = Some tok -> pos < List.length tokens.
Proof.
  unfold Parser.peek. intros H.
  apply nth_error_Some. rewrite H. discriminate.
Qed.

Lemma eat_Ok (ty val : string) (pos : nat) (tok : Token) (pos' : nat) :
  Parser.eat tokens ty val pos = Ok (tok, pos') ->
  pos' = S pos /\ pos < List.length tokens.
Proof.
  unfold Parser.eat. destruct (Parser.peek tokens pos) as [t|] eqn:Hpeek; [|discriminate].
  destruct (negb (String.eqb (type t) ty)
            || (Js.truthy val && negb (String.eqb (value t) val))); [discriminate|].
  intros H. inversion H; subst. split; [reflexivity|].
  exact (peek_Some_lt _ _ Hpeek).
Qed.

Lemma eat_not_OutOfFuel (ty val : string) (pos : nat) :
  Parser.eat tokens ty val pos <> OutOfFuel.
Proof.
  unfold Parser.eat. destruct (Parser.peek tokens pos) as [t|]; [|discriminate].
  destruct (negb (String.eqb (type t) ty)
            || (Js.truthy val && negb (String.eqb (value t) val))); discriminate.
Qed.

End ParserFacts.

(** ** The parser: progress and termination *)

Section ParserTermination.

Variable tokens : list Token.

Ltac bind_ok H r :=
  match type of H with
  | bind ?c _ = Ok _ =>
      destruct c as [r| |] eqn:?; cbn [bind] in H; [|discriminate H|discriminate H]
  end.

Lemma parser_progress (fuel : nat) :
  (forall pos, advances tokens pos (Parser.parseFactor tokens fuel pos))
  /\ (forall pos, advances tokens pos (Parser.parseTerm tokens fuel pos))
  /\ (forall pos, advances tokens pos (Parser.parseExpression tokens fuel pos))
  /\ (forall node pos, keeps tokens pos (Parser.parseTermLoop tokens fuel node pos))
  /\ (forall node pos, keeps tokens pos (Parser.parseExpressionLoop tokens fuel node pos)).
Proof.
  induction fuel as [|f (IHF & IHT & IHE & IHTL & IHEL)].
  - repeat split; intros; discriminate.
  - repeat apply conj.
    + intros pos node pos' H. rewrite parseFactor_S in H.
      destruct (Parser.peek tokens pos) as [tok|] eqn:Hpeek; [|discriminate].
      pose proof (peek_Some_lt _ _ _ Hpeek) as Hlt.
      destruct (String.eqb (type tok) "NUMBER"); [inversion H; subst; lia|].
      destruct (String.eqb (type tok) "IDENT"); [inversion H; subst; lia|].
      destruct (String.eqb (value tok) "(").
      * bind_ok H r. destruct r as [n1 p1]. cbn [fst snd] in H.
        bind_ok H e. destruct e as [t p2]. cbn [fst snd] in H.
        inversion H; subst.
        match goal with
        | He : Parser.eat _ _ _ _ = Ok _ |- _ => apply eat_Ok in He; destruct He
        end.
        match goal with
        | Hp : Parser.parseExpression _ _ _ = Ok _ |- _ => apply IHE in Hp
        end.
        lia.
      * destruct (String.eqb (value tok) "-"); [|discriminate].
        bind_ok H r. destruct r as [n1 p1]. cbn [fst snd] in H.
        inversion H; subst.
        match goal with
        | Hp : Parser.parseFactor _ _ _ = Ok _ |- _ => apply IHF in Hp
        end.
        lia.
    + intros pos node pos' H. rewrite parseTerm_S in H.
      bind_ok H r. destruct r as [n1 p1]. cbn [fst snd] in H.
      match goal with
      | Hp : Parser.parseFactor _ _ _ = Ok _ |- _ => apply IHF in Hp
      end.
      apply IHTL in H. lia.
    + intros pos node pos' H. rewrite parseExpression_S in H.
      bind_ok H r. destruct r as [n1 p1]. cbn [fst snd] in H.
      match goal with
      | Hp : Parser.parseTerm _ _ _ = Ok _ |- _ => apply IHT in Hp
      end.
      apply IHEL in H. lia.
    + intros node0 pos node pos' H. rewrite parseTermLoop_S in H.
      destruct (Parser.peek tokens pos) as [tok|] eqn:Hpeek;
        [|inversion H; subst; lia].
      destruct (Parser.isMultiplicative (value tok)); [|inversion H; subst; lia].
      bind_ok H r. destruct r as [n1 p1]. cbn [fst snd] in H.
      match goal with
      | Hp : Parser.parseFactor _ _ _ = Ok _ |- _ => apply IHF in Hp
      end.
      apply IHTL in H. lia.
    + intros node0 pos node pos' H. rewrite parseExpressionLoop_S in H.
      destruct (Parser.peek tokens pos) as [tok|] eqn:Hpeek;
        [|inversion H; subst; lia].
      destruct (Parser.isAdditive (value tok)); [|inversion H; subst; lia].
      bind_ok H r. destruct r as [n1 p1]. cbn [fst snd] in H.
      match goal with
      | Hp : Parser.parseTerm _ _ _ = Ok _ |- _ => apply IHT in Hp
      end.
      apply IHEL in H. lia.
Qed.

(** With [r] tokens left at the cursor, [3r + 1] units of fuel cover a
    factor or a loop, [3r + 2] a term and [3r + 3] an expression. *)
Lemma parser_fuel (fuel : nat) :
  forall pos, pos <= List.length tokens ->
    let r := List.length tokens - pos in
    (3 * r + 1 <= fuel -> Parser.parseFactor tokens fuel pos <> OutOfFuel)
    /\ (3 * r + 2 <= fuel -> Parser.parseTerm tokens fuel pos <> OutOfFuel)
    /\ (3 * r + 3 <= fuel -> Parser.parseExpression tokens fuel pos <> OutOfFuel)
    /\ (3 * r + 1 <= fuel ->
        forall node, Parser.parseTermLoop tokens fuel node pos <> OutOfFuel)
    /\ (3 * r + 1 <= fuel ->
        forall node, Parser.parseExpressionLoop tokens fuel node pos <> OutOfFuel).
Proof.
  induction fuel as [|f IH]; intros pos Hpos r.
  - repeat split; intros; lia.
  - destruct (parser_progress f) as (PF & PT & PE & _ & _).
    repeat apply conj.
    + intros Hf. rewrite parseFactor_S.
      destruct (Parser.peek tokens pos) as [tok|] eqn:Hpeek; [|discriminate].
      pose proof (peek_Some_lt _ _ _ Hpeek) as Hlt.
      destruct (IH (S pos) Hlt) as (IHF & _ & IHE & _ & _).
      destruct (String.eqb (type tok) "NUMBER"); [discriminate|].
      destruct (String.eqb (type tok) "IDENT"); [discriminate|].
      destruct (String.eqb (value tok) "(").
      * destruct (Parser.parseExpression tokens f (S pos)) as [[n1 p1]| |] eqn:He;
          cbn [bind fst snd]; [|discriminate|exfalso; apply IHE; [lia|reflexivity]].
        pose proof (eat_not_OutOfFuel tokens "OPERATOR" ")" p1) as Heat.
        destruct (Parser.eat tokens "OPERATOR" ")" p1) as [[t p2]| |];
          cbn [bind]; [discriminate|discriminate|contradiction].
      * destruct (String.eqb (value tok) "-"); [|discriminate].
        destruct (Parser.parseFactor tokens f (S pos)) as [[n1 p1]| |] eqn:He;
          cbn [bind]; [discriminate|discriminate|exfalso; apply IHF; [lia|reflexivity]].
    + intros Hf. rewrite parseTerm_S.
      destruct (IH pos Hpos) as (IHF & _ & _ & _ & _).
      destruct (Parser.parseFactor tokens f pos) as [[n1 p1]| |] eqn:He;
        cbn [bind fst snd]; [|discriminate|exfalso; apply IHF; [lia|reflexivity]].
      apply PF in He.
      destruct (IH p1 (proj2 He)) as (_ & _ & _ & IHTL & _).
      apply IHTL. lia.
    + intros Hf. rewrite parseExpression_S.
      destruct (IH pos Hpos) as (_ & IHT & _ & _ & _).
      destruct (Parser.parseTerm tokens f pos) as [[n1 p1]| |] eqn:He;
        cbn [bind fst snd]; [|discriminate|exfalso; apply IHT; [lia|reflexivity]].
      apply PT in He.
      destruct (IH p1 (proj2 He)) as (_ & _ & _ & _ & IHEL).
      apply IHEL. lia.
    + intros Hf node. rewrite parseTermLoop_S.
      destruct (Parser.peek tokens pos) as [tok|] eqn:Hpeek; [|discriminate].
      pose proof (peek_Some_lt _ _ _ Hpeek) as Hlt.
      destruct (Parser.isMultiplicative (value tok)); [|discriminate].
      destruct (IH (S pos) Hlt) as (IHF & _ & _ & _ & _).
      destruct (Parser.parseFactor tokens f (S pos)) as [[n1 p1]| |] eqn:He;
        cbn [bind fst snd]; [|discriminate|exfalso; apply IHF; [lia|reflexivity]].
      apply PF in He.
      destruct (IH p1 (proj2 He)) as (_ & _ & _ & IHTL & _).
      apply IHTL. lia.
    + intros Hf node. rewrite parseExpressionLoop_S.
      destruct (Parser.peek tokens pos) as [tok|] eqn:Hpeek; [|discriminate].
      pose proof (peek_Some_lt _ _ _ Hpeek) as Hlt.
      destruct (Parser.isAdditive (value tok)); [|discriminate].
      destruct (IH (S pos) Hlt) as (_ & IHT & _ & _ & _).
      destruct (Parser.parseTerm tokens f (S pos)) as [[n1 p1]| |] eqn:He;
        cbn [bind fst snd]; [|discriminate|exfalso; apply IHT; [lia|reflexivity]].
      apply PT in He.
      destruct (IH p1 (proj2 He)) as (_ & _ & _ & _ & IHEL).
      apply IHEL. lia.
Qed.

End ParserTermination.

Lemma parse_total (tokens : list Token) : parse tokens <> OutOfFuel.
Proof.
  unfold parse.
  destruct (parser_fuel tokens (Parser.enough tokens) 0 (Nat.le_0_l _))
    as (_ & _ & HE & _ & _).
  destruct (Parser.parseExpression tokens (Parser.enough tokens) 0)
    as [[ast pos]| |]; cbn [bind].
  - destruct (negb (Nat.eqb pos (List.length tokens))); discriminate.
  - discriminate.
  - exfalso. apply HE; [unfold Parser.enough; lia | reflexivity].
Qed.

(** ** The code generators and the handler always return *)

Lemma gen_not_OutOfFuel (node : Node) :
  forall st, Tac.gen node st <> OutOfFuel.
Proof.
  induction node as [v | n | op l IHl r IHr | op e IHe]; intros st; cbn [Tac.gen].
  - discriminate.
  - discriminate.
  - specialize (IHl st).
    destruct (Tac.gen l st) as [[left' st1]| |]; cbn [bind];
      [|discriminate|contradiction].
    specialize (IHr st1).
    destruct (Tac.gen r st1) as [[right' st2]| |]; cbn [bind];
      [discriminate|discriminate|contradiction].
  - destruct (String.eqb op "-"); [|discriminate].
    specialize (IHe st).
    destruct (Tac.gen e st) as [[operand' st1]| |]; cbn [bind];
      [discriminate|discriminate|contradiction].
Qed.

Lemma generateTAC_not_OutOfFuel (node : Node) : generateTAC node <> OutOfFuel.
Proof.
  unfold generateTAC. pose proof (gen_not_OutOfFuel node Tac.initial) as H.
  destruct (Tac.gen node Tac.initial) as [[result st]| |]; cbn [bind];
    [|discriminate|contradiction].
  destruct (Nat.eqb (List.length (Tac.tac st)) 0); discriminate.
Qed.

Lemma finalCodeLines_not_OutOfFuel (tacLines : list string) :
  forall lines, finalCodeLines tacLines lines <> OutOfFuel.
Proof.
  induction tacLines as [|line rest IH]; intros lines; cbn [finalCodeLines].
  - discriminate.
  - destruct (Js.includes line "="); [|apply IH].
    destruct (Js.split line " = ") as [|target [|expr others]];
      [discriminate|discriminate|apply IH].
Qed.

Lemma generateFinalCode_not_OutOfFuel (tacLines : list string) :
  generateFinalCode tacLines <> OutOfFuel.
Proof.
  unfold generateFinalCode.
  pose proof (finalCodeLines_not_OutOfFuel tacLines []) as H.
  destruct (finalCodeLines tacLines []); cbn [bind];
    [discriminate|discriminate|contradiction].
Qed.

Lemma pipelineWith_not_OutOfFuel (renderTree renderSemantic : Node -> string)
      (expression : string) :
  pipelineWith renderTree renderSemantic expression <> OutOfFuel.
Proof.
  unfold pipelineWith.
  pose proof (tokenize_total expression) as Htok.
  destruct (Lexer.tokenize expression) as [tokens| |]; cbn [bind];
    [|discriminate|contradiction].
  pose proof (parse_total tokens) as Hparse.
  destruct (parse tokens) as [ast| |]; cbn [bind]; [|discriminate|contradiction].
  pose proof (generateTAC_not_OutOfFuel ast) as Htac.
  destruct (generateTAC ast) as [tacLines| |]; cbn [bind];
    [|discriminate|contradiction].
  pose proof (generateFinalCode_not_OutOfFuel tacLines) as Hfin.
  destruct (generateFinalCode tacLines) as [finalCode| |]; cbn [bind];
    [discriminate|discriminate|contradiction].
Qed.

Lemma compileWith_total (renderTree renderSemantic : Node -> string)
      (expression : JsValue) :
  exists response, compileWith renderTree renderSemantic expression = Some response.
Proof.
  unfold compileWith. destruct (rejected expression); [eauto|].
  destruct expression; eauto.
  pose proof (pipelineWith_not_OutOfFuel renderTree renderSemantic s) as H.
  destruct (pipelineWith renderTree renderSemantic s); [eauto|eauto|contradiction].
Qed.

(** A rejected value never reaches the pipeline, whatever the variant. *)
Lemma rejected_is_invalidRequest (renderTree renderSemantic : Node -> string)
      (expression : JsValue) :
  rejected expression = true ->
  compileWith renderTree renderSemantic expression = Some invalidRequest.
Proof. unfold compileWith. intros ->. reflexivity. Qed.

(** ** Temporaries are numbered from the counter, one per emitted line *)

Lemma string_app_assoc (a b c : string) : (a ++ b) ++ c = a ++ (b ++ c).
Proof. induction a as [|x a IH]; simpl; [reflexivity | rewrite IH; reflexivity]. Qed.

Lemma startsWith_app (p s : string) : Js.startsWith p (p ++ s) = true.
Proof.
  induction p as [|x p IH]; simpl; [reflexivity|].
  rewrite Ascii.eqb_refl. exact IH.
Qed.

Lemma startsWith_head (a b c rest : string) :
  Js.startsWith (a ++ b ++ c) ((a ++ b) ++ c ++ rest) = true.
Proof.
  replace ((a ++ b) ++ c ++ rest) with ((a ++ b ++ c) ++ rest)
    by (rewrite !string_app_assoc; reflexivity).
  apply startsWith_app.
Qed.

Lemma numberedFrom_nil (start : nat) : numberedFrom start [].
Proof. intros [|k] line H; discriminate. Qed.

Lemma numberedFrom_snoc (start : nat) (lines : list string) (rest : string) :
  numberedFrom start lines ->
  numberedFrom start
    (Js.push lines (("t" ++ Js.showNat (start + List.length lines)) ++ " = " ++ rest)).
Proof.
  intros Hn k line Hk. unfold Js.push in Hk.
  destruct (Nat.lt_ge_cases k (List.length lines)) as [Hlt | Hge].
  - rewrite nth_error_app1 in Hk by exact Hlt. exact (Hn k line Hk).
  - rewrite nth_error_app2 in Hk by exact Hge.
    destruct (k - List.length lines) as [|j] eqn:Hj.
    + assert (k = List.length lines) by lia. subst k.
      cbn [nth_error] in Hk. injection Hk as <-.
      exact (startsWith_head "t" (Js.showNat (start + List.length lines)) " = " rest).
    + destruct j; discriminate.
Qed.

Lemma emit_extends (start : nat) (st : Tac.GenState) (lines : list string)
      (base : list string) (rest : string) :
  Tac.tac st = (base ++ lines)%list ->
  Tac.tempCounter st = start + List.length lines ->
  numberedFrom start lines ->
  let st' := snd (Tac.emit (fun temp => temp ++ " = " ++ rest) st) in
  exists lines',
    Tac.tac st' = (base ++ lines')%list
    /\ Tac.tempCounter st' = start + List.length lines'
    /\ numberedFrom start lines'.
Proof.
  intros Htac Hcount Hn. cbn.
  exists (Js.push lines (("t" ++ Js.showNat (start + List.length lines)) ++ " = " ++ rest)).
  repeat split.
  - rewrite Htac, Hcount. unfold Js.push. rewrite app_assoc. reflexivity.
  - unfold Js.push. rewrite length_app. cbn. lia.
  - apply numberedFrom_snoc. exact Hn.
Qed.

Lemma gen_numbered (node : Node) :
  forall (st st' : Tac.GenState) (ref : string) (start : nat) (base lines : list string),
    Tac.gen node st = Ok (ref, st') ->
    Tac.tac st = (base ++ lines)%list ->
    Tac.tempCounter st = start + List.length lines ->
    numberedFrom start lines ->
    exists lines',
      Tac.tac st' = (base ++ lines')%list
      /\ Tac.tempCounter st' = start + List.length lines'
      /\ numberedFrom start lines'.
Proof.
  induction node as [v | n | op l IHl r IHr | op e IHe];
    intros st st' ref start base lines Hgen Htac Hcount Hn; cbn [Tac.gen] in Hgen.
  - injection Hgen as _ <-. eauto.
  - injection Hgen as _ <-. eauto.
  - destruct (Tac.gen l st) as [[left' st1]| |] eqn:Hl; cbn [bind] in Hgen;
      [|discriminate|discriminate].
    destruct (Tac.gen r st1) as [[right' st2]| |] eqn:Hr; cbn [bind] in Hgen;
      [|discriminate|discriminate].
    destruct (IHl _ _ _ _ _ _ Hl Htac Hcount Hn) as (lines1 & Htac1 & Hcount1 & Hn1).
    destruct (IHr _ _ _ _ _ _ Hr Htac1 Hcount1 Hn1) as (lines2 & Htac2 & Hcount2 & Hn2).
    injection Hgen as _ <-.
    exact (emit_extends start st2 lines2 base (left' ++ " " ++ op ++ " " ++ right')
             Htac2 Hcount2 Hn2).
  - destruct (String.eqb op "-"); [|discriminate].
    destruct (Tac.gen e st) as [[operand' st1]| |] eqn:He; cbn [bind] in Hgen;
      [|discriminate|discriminate].
    destruct (IHe _ _ _ _ _ _ He Htac Hcount Hn) as (lines1 & Htac1 & Hcount1 & Hn1).
    injection Hgen as _ <-.
    exact (emit_extends start st1 lines1 base ("-" ++ operand') Htac1 Hcount1 Hn1).
Qed.

(** Whatever was compiled before, the lines of [generateTAC] are the
    temporaries [t0], [t1], ... in order, closed by the [result] line. *)
Lemma generateTAC_numbered (ast : Node) (tacLines : list string) :
  generateTAC ast = Ok tacLines ->
  exists body ref,
    tacLines = Js.push body ("result = " ++ ref) /\ numberedFrom 0 body.
Proof.
  unfold generateTAC. intros H.
  destruct (Tac.gen ast Tac.initial) as [[ref st]| |] eqn:Hgen; cbn [bind] in H;
    [|discriminate|discriminate].
  destruct (gen_numbered ast Tac.initial st ref 0 [] [] Hgen eq_refl eq_refl
              (numberedFrom_nil 0)) as (body & Htac & _ & Hn).
  exists body, ref. split; [|exact Hn].
  cbn [app] in Htac. rewrite Htac in H.
  destruct (Nat.eqb (List.length body) 0); injection H as <-; reflexivity.
Qed.

(** ** The operators of the two loops *)

Lemma additive_not_multiplicative (v : string) :
  Parser.isAdditive v = true -> Parser.isMultiplicative v = false.
Proof.
  unfold Parser.isAdditive. intros H. apply orb_true_iff in H.
  destruct H as [H | H]; apply String.eqb_eq in H; subst v; reflexivity.
Qed.

Lemma peek_here (prefix : list Token) (t : Token) (rest : list Token) :
  Parser.peek (prefix ++ t :: rest) (List.length prefix) = Some t.
Proof.
  unfold Parser.peek. rewrite nth_error_app2 by lia.
  rewrite Nat.sub_diag. reflexivity.
Qed.

(** ** The final code is never empty

    [generateTAC] always closes with the [result] line, which
    [generateFinalCode] turns into a [MOV]; the handler's fallback for an
    empty final code is therefore never taken. *)

Lemma splitAux_not_nil (sep s cur : string) (skip : nat) :
  Js.splitAux sep s cur skip <> [].
Proof.
  revert cur skip. induction s as [|c r IH]; intros cur skip; cbn [Js.splitAux].
  - discriminate.
  - destruct skip as [|k]; [|apply IH].
    destruct (Js.startsWith sep (String c r)); [discriminate|apply IH].
Qed.

Lemma finalCodeLines_result_line (ref : string) (lines : list string) :
  exists expr,
    finalCodeLines ["result = " ++ ref] lines
    = Ok (Js.push lines ("MOV result, " ++ Js.trim expr)).
Proof.
  cbn [finalCodeLines].
  replace (Js.includes ("result = " ++ ref) "=") with true by reflexivity.
  change (Js.split ("result = " ++ ref) " = ")
    with ("result" :: Js.splitAux " = " ref "" 0).
  pose proof (splitAux_not_nil " = " ref "" 0) as Hne.
  destruct (Js.splitAux " = " ref "" 0) as [|expr others]; [contradiction|].
  exists expr. reflexivity.
Qed.

Lemma finalCodeLines_app (a b : list string) :
  forall lines,
    finalCodeLines (a ++ b) lines
    = bind (finalCodeLines a lines) (fun lines' => finalCodeLines b lines').
Proof.
  induction a as [|line rest IH]; intros lines; cbn [finalCodeLines app].
  - reflexivity.
  - destruct (Js.includes line "="); [|apply IH].
    destruct (Js.split line " = ") as [|target [|expr others]];
      [reflexivity|reflexivity|apply IH].
Qed.

Lemma finalCodeLines_MOV (tacLines : list string) :
  forall lines out,
    Forall startsWithMOV lines ->
    finalCodeLines tacLines lines = Ok out ->
    Forall startsWithMOV out.
Proof.
  induction tacLines as [|line rest IH]; intros lines out Hall H;
    cbn [finalCodeLines] in H.
  - injection H as <-. exact Hall.
  - destruct (Js.includes line "="); [|exact (IH _ _ Hall H)].
    destruct (Js.split line " = ") as [|target [|expr others]];
      [discriminate|discriminate|].
    refine (IH _ _ _ H). unfold Js.push. apply Forall_app. split; [exact Hall|].
    constructor; [reflexivity|constructor].
Qed.

Lemma join_startsWithMOV (lines : list string) :
  lines <> [] -> Forall startsWithMOV lines ->
  Js.startsWith "MOV " (Js.join nl lines) = true.
Proof.
  destruct lines as [|x rest]; [contradiction|]. intros _ Hall.
  inversion Hall as [|y ys Hx Hrest]; subst.
  unfold startsWithMOV in Hx.
  destruct x as [|m [|o [|v [|sp x']]]];
    try (cbn in Hx; rewrite ?andb_false_r in Hx; discriminate Hx).
  destruct rest; cbn [Js.join]; exact Hx.
Qed.

Lemma finalCode_of_generateTAC (ast : Node) (tacLines : list string) (finalCode : string) :
  generateTAC ast = Ok tacLines ->
  generateFinalCode tacLines = Ok finalCode ->
  Js.startsWith "MOV " finalCode = true.
Proof.
  intros Htac Hfin.
  destruct (generateTAC_numbered ast tacLines Htac) as (body & ref & -> & _).
  unfold generateFinalCode in Hfin.
  destruct (finalCodeLines (Js.push body ("result = " ++ ref)) []) as [lines| |] eqn:Hlines;
    cbn [bind] in Hfin; [|discriminate|discriminate].
  injection Hfin as <-.
  apply join_startsWithMOV.
  - unfold Js.push in Hlines. rewrite finalCodeLines_app in Hlines.
    destruct (finalCodeLines body []) as [l1| |]; cbn [bind] in Hlines;
      [|discriminate|discriminate].
    destruct (finalCodeLines_result_line ref l1) as (expr & Hlast).
    rewrite Hlast in Hlines. injection Hlines as <-.
    unfold Js.push. intros Hnil. apply app_eq_nil in Hnil. destruct Hnil; discriminate.
  - exact (finalCodeLines_MOV _ [] lines (Forall_nil _) Hlines).
Qed.

Lemma pipelineWith_final_is_MOV (renderTree renderSemantic : Node -> string)
      (expression : string) (t s m i f : string) :
  pipelineWith renderTree renderSemantic expression = Ok (PhaseResults t s m i f) ->
  Js.startsWith "MOV " f = true.
Proof.
  unfold pipelineWith. intros H.
  destruct (Lexer.tokenize expression) as [tokens| |]; cbn [bind] in H;
    [|discriminate|discriminate].
  destruct (parse tokens) as [ast| |]; cbn [bind] in H; [|discriminate|discriminate].
  destruct (generateTAC ast) as [tacLines| |] eqn:Htac; cbn [bind] in H;
    [|discriminate|discriminate].
  destruct (generateFinalCode tacLines) as [finalCode| |] eqn:Hfin; cbn [bind] in H;
    [|discriminate|discriminate].
  pose proof (finalCode_of_generateTAC ast tacLines finalCode Htac Hfin) as Hmov.
  injection H as _ _ _ _ <-.
  destruct finalCode as [|c rest]; [discriminate Hmov|exact Hmov].
Qed.

(** * The claims *)

(** C1. For ["2+3*4"], [generateTAC] yields exactly [t0 = 3 * 4],
    [t1 = 2 + t0], [result = t1] in that order, and [generateFinalCode] on
    those lines yields [MOV t0, 3 * 4], [MOV t1, 2 + t0], [MOV result, t1];
    the handler sends both.  The left operand is generated before the right
    one: in [a*b+c*d] the left product takes [t0] and the right one [t1]. *)
Theorem C1_tac_and_final_code_of_2_plus_3_times_4 :
  Lexer.tokenize "2+3*4"
  = Ok [mkToken "NUMBER" "2"; mkToken "OPERATOR" "+"; mkToken "NUMBER" "3";
        mkToken "OPERATOR" "*"; mkToken "NUMBER" "4"]
  /\ parse [mkToken "NUMBER" "2"; mkToken "OPERATOR" "+"; mkToken "NUMBER" "3";
            mkToken "OPERATOR" "*"; mkToken "NUMBER" "4"]
     = Ok (BinaryOp "+" (Number "2") (BinaryOp "*" (Number "3") (Number "4")))
  /\ generateTAC (BinaryOp "+" (Number "2") (BinaryOp "*" (Number "3") (Number "4")))
     = Ok ["t0 = 3 * 4"; "t1 = 2 + t0"; "result = t1"]
  /\ generateFinalCode ["t0 = 3 * 4"; "t1 = 2 + t0"; "result = t1"]
     = Ok ("MOV t0, 3 * 4" ++ nl ++ "MOV t1, 2 + t0" ++ nl ++ "MOV result, t1")
  /\ intermediateOf (compile (JsString "2+3*4"))
     = Some ("t0 = 3 * 4" ++ nl ++ "t1 = 2 + t0" ++ nl ++ "result = t1")
  /\ finalOf (compile (JsString "2+3*4"))
     = Some ("MOV t0, 3 * 4" ++ nl ++ "MOV t1, 2 + t0" ++ nl ++ "MOV result, t1")
  /\ generateTAC (BinaryOp "+" (BinaryOp "*" (VariableRef "a") (VariableRef "b"))
                               (BinaryOp "*" (VariableRef "c") (VariableRef "d")))
     = Ok ["t0 = a * b"; "t1 = c * d"; "t2 = t0 + t1"; "result = t2"].
Proof. repeat split; vm_compute; reflexivity. Qed.

(** C2, as the code behaves.  For ["5"] the TAC is the single line
    [result = 5]; that line holds an [=], so [generateFinalCode] returns
    [MOV result, 5] and the handler sends it, not the placeholder. *)
Theorem C2_bare_literal_final_code_is_a_MOV :
  Lexer.tokenize "5" = Ok [mkToken "NUMBER" "5"]
  /\ parse [mkToken "NUMBER" "5"] = Ok (Number "5")
  /\ generateTAC (Number "5") = Ok ["result = 5"]
  /\ generateFinalCode ["result = 5"] = Ok "MOV result, 5"
  /\ intermediateOf (compile (JsString "5")) = Some "result = 5"
  /\ finalOf (compile (JsString "5")) = Some "MOV result, 5"
  /\ finalOf (compile (JsString "5")) <> Some "(single value - no operations)".
Proof. repeat split; try (vm_compute; reflexivity). vm_compute. discriminate. Qed.

(** C3, as stated, fails: the position reported for ["2 $ 3"] is 3, not 5. *)
Lemma C3_reported_position_is_not_5 :
  Lexer.tokenize "2 $ 3" = Throw "Invalid character: '$' at position 3"
  /\ Lexer.tokenize "2 $ 3" <> Throw "Invalid character: '$' at position 5".
Proof. split; [vm_compute; reflexivity | vm_compute; discriminate]. Qed.

(** C3, amended.  [tokenize("2 $ 3")] fails with a lexical error that
    reports the invalid character [$] and its 1-based position 3: the [$] is
    the character of index 2, and the message carries the index plus one. *)
Theorem C3_invalid_character_position :
  String.get 2 "2 $ 3" = Some "$"%char
  /\ Lexer.tokenize "2 $ 3" = Throw (Lexer.invalidCharacter "$" 2)
  /\ Lexer.invalidCharacter "$" 2 = "Invalid character: '$' at position 3".
Proof. repeat split; vm_compute; reflexivity. Qed.

(** C4. Precedence: the tokens of ["2+3*4"] parse to
    [BinaryOp(+, Number 2, BinaryOp( *, Number 3, Number 4))]. *)
Theorem C4_precedence :
  Lexer.tokenize "2+3*4"
  = Ok [mkToken "NUMBER" "2"; mkToken "OPERATOR" "+"; mkToken "NUMBER" "3";
        mkToken "OPERATOR" "*"; mkToken "NUMBER" "4"]
  /\ parse [mkToken "NUMBER" "2"; mkToken "OPERATOR" "+"; mkToken "NUMBER" "3";
            mkToken "OPERATOR" "*"; mkToken "NUMBER" "4"]
     = Ok (BinaryOp "+" (Number "2") (BinaryOp "*" (Number "3") (Number "4"))).
Proof. split; vm_compute; reflexivity. Qed.

(** C6. Unary minus stacks, ["--x"] parsing to
    [UnaryOp(-, UnaryOp(-, Variable x))], and binds tighter than each of the
    four binary operators: [-x op y] is [BinaryOp(op, UnaryOp(-, x), y)]. *)
Theorem C6_unary_minus :
  (Lexer.tokenize "--x"
   = Ok [mkToken "OPERATOR" "-"; mkToken "OPERATOR" "-"; mkToken "IDENT" "x"]
   /\ parse [mkToken "OPERATOR" "-"; mkToken "OPERATOR" "-"; mkToken "IDENT" "x"]
      = Ok (UnaryOp "-" (UnaryOp "-" (VariableRef "x"))))
  /\ (forall op x y,
        In op ["+"; "-"; "*"; "/"] ->
        parse [mkToken "OPERATOR" "-"; mkToken "IDENT" x;
               mkToken "OPERATOR" op; mkToken "IDENT" y]
        = Ok (BinaryOp op (UnaryOp "-" (VariableRef x)) (VariableRef y))).
Proof.
  split; [split; vm_compute; reflexivity|].
  intros op x y Hop. cbn [In] in Hop.
  destruct Hop as [<- | [<- | [<- | [<- | []]]]]; reflexivity.
Qed.


(** C8. The analysis of ["x+2"] finds the one variable [x], classifies the
    expression as symbolic and lists [x] among the symbols whose values are
    needed at runtime; the analysis of ["2+3"] finds no variable and
    classifies the expression as numeric, fully evaluable at compile time. *)
Theorem C8_semantic_analysis :
  (Lexer.tokenize "x+2"
   = Ok [mkToken "IDENT" "x"; mkToken "OPERATOR" "+"; mkToken "NUMBER" "2"]
   /\ parse [mkToken "IDENT" "x"; mkToken "OPERATOR" "+"; mkToken "NUMBER" "2"]
      = Ok (BinaryOp "+" (VariableRef "x") (Number "2"))
   /\ Semantic.walk (BinaryOp "+" (VariableRef "x") (Number "2")) Semantic.empty
      = Semantic.mkAnalysis ["x"] ["2"] ["+"] 3
   /\ semanticAnalysis (BinaryOp "+" (VariableRef "x") (Number "2"))
      = "── Semantic Analysis Report ──" ++ nl ++ nl
        ++ "AST Nodes     : 3" ++ nl
        ++ "Variables     : x" ++ nl
        ++ "Constants     : 2" ++ nl
        ++ "Operators     : +" ++ nl
        ++ "Result Type   : symbolic (contains variables)" ++ nl
        ++ nl ++ "⚠ Undeclared symbols: x"
        ++ nl ++ "  (values needed at runtime)")
  /\ (Lexer.tokenize "2+3"
      = Ok [mkToken "NUMBER" "2"; mkToken "OPERATOR" "+"; mkToken "NUMBER" "3"]
      /\ parse [mkToken "NUMBER" "2"; mkToken "OPERATOR" "+"; mkToken "NUMBER" "3"]
         = Ok (BinaryOp "+" (Number "2") (Number "3"))
      /\ Semantic.walk (BinaryOp "+" (Number "2") (Number "3")) Semantic.empty
         = Semantic.mkAnalysis [] ["2"; "3"] ["+"] 3
      /\ semanticAnalysis (BinaryOp "+" (Number "2") (Number "3"))
         = "── Semantic Analysis Report ──" ++ nl ++ nl
           ++ "AST Nodes     : 3" ++ nl
           ++ "Variables     : (none)" ++ nl
           ++ "Constants     : 2, 3" ++ nl
           ++ "Operators     : +" ++ nl
           ++ "Result Type   : numeric (can evaluate)" ++ nl
           ++ nl ++ "✓ Expression is fully evaluable at compile time").
Proof. split; repeat split; vm_compute; reflexivity. Qed.

(** C10. The empty string is rejected by the guard of the handler, in both
    variants of the service: it is a string, but a falsy one, so the answer
    is the 400 "Missing or invalid expression" of a missing field and not
    the "Unexpected end of input" that the pipeline gives on no tokens, which
    is what a blank expression such as [" "] gets. *)
Theorem C10_empty_expression_is_rejected :
  typeOf (JsString "") = "string"
  /\ falsy (JsString "") = true
  /\ rejected (JsString "") = true
  /\ compile (JsString "")
     = Some (mkResponse 400 (ErrorBody "Missing or invalid expression"))
  /\ Variant.compile (JsString "")
     = Some (mkResponse 400 (ErrorBody "Missing or invalid expression"))
  /\ compile JsUndefined = compile (JsString "")
  /\ pipeline "" = Throw "Unexpected end of input"
  /\ rejected (JsString " ") = false
  /\ compile (JsString " ")
     = Some (mkResponse 400 (ErrorBody "Unexpected end of input"))
  /\ Variant.compile (JsString " ")
     = Some (mkResponse 400 (ErrorBody "Unexpected end of input")).
Proof. repeat split; vm_compute; reflexivity. Qed.


(** * Further properties of the pipeline *)

(** ** The tokenizer *)

Lemma skipWhitespace_blank (s : string) (i : nat) :
  forallChars Js.isSpace s = true ->
  Lexer.skipWhitespace s i = ("", i + String.length s).
Proof.
  revert i. induction s as [|c r IH]; intros i H; cbn [Lexer.skipWhitespace].
  - f_equal. cbn. lia.
  - cbn [forallChars] in H. apply andb_true_iff in H. destruct H as [Hc Hr].
    rewrite Hc, (IH (S i) Hr). f_equal. cbn. lia.
Qed.

(** X1. An input made of blanks only, the empty input included, has no
    tokens: the tokenizer returns the empty list and does not fail. *)
Theorem X1_blank_input_has_no_tokens (input : string) :
  forallChars Js.isSpace input = true ->
  Lexer.tokenize input = Ok [].
Proof.
  intros H. unfold Lexer.tokenize. cbn [Lexer.tokenizeLoop].
  destruct input as [|c r]; [reflexivity|].
  rewrite (skipWhitespace_blank _ 0 H). reflexivity.
Qed.

Lemma X1_witness :
  forallChars Js.isSpace "   " = true /\ Lexer.tokenize "   " = Ok [].
Proof.
  split; [reflexivity | apply (X1_blank_input_has_no_tokens "   "); reflexivity].
Defined.

Lemma scan_spec (p : ascii -> bool) (rest : string) :
  forall i acc rest2 i2,
    Lexer.scan p rest i = (acc, (rest2, i2)) ->
    rest = acc ++ rest2
    /\ forallChars p acc = true
    /\ i2 = i + String.length acc
    /\ match rest2 with String c _ => p c = false | EmptyString => True end.
Proof.
  induction rest as [|c r IH]; intros i acc rest2 i2 H; cbn [Lexer.scan] in H.
  - injection H as <- <- <-. cbn. repeat split. lia.
  - destruct (p c) eqn:Hc.
    + destruct (Lexer.scan p r (S i)) as [acc' [rest' i']] eqn:Hs.
      injection H as <- <- <-.
      destruct (IH _ _ _ _ Hs) as (Hr & Hall & Hi & Hstop).
      cbn [String.append forallChars String.length]. rewrite Hc, Hall.
      repeat split; [congruence | lia | exact Hstop].
    + injection H as <- <- <-. cbn. rewrite Hc. repeat split. lia.
Qed.

Lemma scan_head (p : ascii -> bool) (c : ascii) (r : string) (i : nat) :
  p c = true ->
  exists acc', fst (Lexer.scan p (String c r) i) = String c acc'.
Proof.
  intros Hc. cbn [Lexer.scan]. rewrite Hc.
  destruct (Lexer.scan p r (S i)) as [acc' cur]. exists acc'. reflexivity.
Qed.

Lemma digit_is_digit_or_dot (c : ascii) : Js.isDigit c = true -> Js.isDigitOrDot c = true.
Proof. unfold Js.isDigitOrDot. intros ->. reflexivity. Qed.

(** The text scanned for a number starts as the input at the cursor did. *)
Lemma scan_number_start (ch : ascii) (r : string) (i : nat) :
  Js.isDigit ch || (Nat.eqb (Js.code ch) 46 && Lexer.nextIsDigit (String ch r)) = true ->
  exists num',
    fst (Lexer.scan Js.isDigitOrDot (String ch r) i) = String ch num'
    /\ Js.isDigit ch
       || (Nat.eqb (Js.code ch) 46 && Lexer.nextIsDigit (String ch num')) = true.
Proof.
  intros Hstart.
  pose proof (number_start_is_digit_or_dot _ _ Hstart) as Hp.
  cbn [Lexer.scan]. rewrite Hp.
  destruct (Js.isDigit ch) eqn:Hd.
  - destruct (Lexer.scan Js.isDigitOrDot r (S i)) as [acc' cur].
    exists acc'. split; reflexivity.
  - cbn [orb] in Hstart |- *. apply andb_true_iff in Hstart. destruct Hstart as [Hdot Hnext].
    rewrite Hdot. cbn [andb].
    destruct r as [|d r']; [discriminate Hnext|]. cbn [Lexer.nextIsDigit] in Hnext.
    cbn [Lexer.scan]. rewrite (digit_is_digit_or_dot _ Hnext).
    destruct (Lexer.scan Js.isDigitOrDot r' (S (S i))) as [acc' cur].
    eexists. split; [reflexivity|]. exact Hnext.
Qed.

Lemma forallb_push {A : Type} (p : A -> bool) (l : list A) (x : A) :
  forallb p l = true -> p x = true -> forallb p (Js.push l x) = true.
Proof.
  intros Hl Hx. unfold Js.push. rewrite forallb_app, Hl. cbn. rewrite Hx. reflexivity.
Qed.

Lemma tokenizeLoop_wellFormed (fuel : nat) :
  forall rest i acc tokens,
    forallb wellFormedToken acc = true ->
    Lexer.tokenizeLoop fuel rest i acc = Ok tokens ->
    forallb wellFormedToken tokens = true.
Proof.
  induction fuel as [|fuel IH]; intros rest i acc tokens Hacc H; [discriminate|].
  cbn [Lexer.tokenizeLoop] in H.
  destruct rest as [|c0 r0]; [injection H as <-; exact Hacc|].
  destruct (Lexer.skipWhitespace (String c0 r0) i) as [rest1 i1].
  destruct rest1 as [|ch r]; [injection H as <-; exact Hacc|].
  destruct (Js.isDigit ch || (Nat.eqb (Js.code ch) 46 && Lexer.nextIsDigit (String ch r)))
    eqn:Hnum.
  - destruct (scan_number_start ch r i1 Hnum) as (num' & Hhead & Hstart).
    destruct (Lexer.scan Js.isDigitOrDot (String ch r) i1) as [num [rest2 i2]] eqn:Hscan.
    cbn [fst] in Hhead. subst num.
    destruct (Nat.ltb 1 (Lexer.countDots (String ch num'))) eqn:Hdots; [discriminate|].
    refine (IH _ _ _ _ _ H). apply forallb_push; [exact Hacc|].
    destruct (scan_spec _ _ _ _ _ _ Hscan) as (_ & Hall & _ & _).
    unfold wellFormedToken. cbn [type value].
    replace (String.eqb "NUMBER" "NUMBER") with true by reflexivity.
    rewrite Hstart, Hall. cbn [andb].
    apply Nat.ltb_ge in Hdots. apply Nat.leb_le. exact Hdots.
  - destruct (Js.isAlpha ch) eqn:Halpha.
    + destruct (Lexer.scan Js.isAlnum (String ch r) i1) as [id [rest2 i2]] eqn:Hscan.
      refine (IH _ _ _ _ _ H). apply forallb_push; [exact Hacc|].
      destruct (scan_spec _ _ _ _ _ _ Hscan) as (_ & Hall & _ & _).
      destruct (scan_head Js.isAlnum ch r i1 (alpha_is_alnum _ Halpha)) as (id' & Hid).
      rewrite Hscan in Hid. cbn [fst] in Hid. subst id.
      cbn [forallChars] in Hall. apply andb_true_iff in Hall. destruct Hall as [_ Hall].
      unfold wellFormedToken. cbn [type value].
      replace (String.eqb "IDENT" "NUMBER") with false by reflexivity.
      replace (String.eqb "IDENT" "IDENT") with true by reflexivity.
      rewrite Halpha, Hall. reflexivity.
    + destruct (Js.includesChar "+-*/()" ch) eqn:Hop; [|discriminate].
      refine (IH _ _ _ _ _ H). apply forallb_push; [exact Hacc|].
      unfold wellFormedToken. cbn [type value].
      replace (String.eqb "OPERATOR" "NUMBER") with false by reflexivity.
      replace (String.eqb "OPERATOR" "IDENT") with false by reflexivity.
      replace (String.eqb "OPERATOR" "OPERATOR") with true by reflexivity.
      exact Hop.
Qed.

(** X2. Every token of a successful [tokenize] is well formed: a [NUMBER]
    starts with a digit or with a dot followed by a digit, holds digits and
    dots only and at most one dot; an [IDENT] is a letter followed by
    letters and digits; an [OPERATOR] is one of the characters [+-*/()]. *)
Theorem X2_tokens_are_well_formed (input : string) (tokens : list Token) :
  Lexer.tokenize input = Ok tokens ->
  forallb wellFormedToken tokens = true.
Proof.
  unfold Lexer.tokenize. apply tokenizeLoop_wellFormed. reflexivity.
Qed.

Lemma X2_witness :
  Lexer.tokenize " 3.14*(ab1 - .5)"
  = Ok [mkToken "NUMBER" "3.14"; mkToken "OPERATOR" "*"; mkToken "OPERATOR" "(";
        mkToken "IDENT" "ab1"; mkToken "OPERATOR" "-"; mkToken "NUMBER" ".5";
        mkToken "OPERATOR" ")"]
  /\ forallb wellFormedToken
       [mkToken "NUMBER" "3.14"; mkToken "OPERATOR" "*"; mkToken "OPERATOR" "(";
        mkToken "IDENT" "ab1"; mkToken "OPERATOR" "-"; mkToken "NUMBER" ".5";
        mkToken "OPERATOR" ")"] = true.
Proof.
  split; [reflexivity|].
  apply (X2_tokens_are_well_formed " 3.14*(ab1 - .5)"). reflexivity.
Defined.

Lemma suffixAt_tail (input : string) (i : nat) (c : ascii) (r : string) :
  suffixAt input i (String c r) -> suffixAt input (S i) r.
Proof.
  intros H k. specialize (H (S k)). cbn [String.get] in H.
  rewrite H. f_equal. lia.
Qed.

Lemma suffixAt_skipWhitespace (input : string) (rest : string) :
  forall i rest1 i1,
    suffixAt input i rest ->
    Lexer.skipWhitespace rest i = (rest1, i1) ->
    suffixAt input i1 rest1
    /\ match rest1 with String c _ => Js.isSpace c = false | EmptyString => True end.
Proof.
  induction rest as [|c r IH]; intros i rest1 i1 Hs H; cbn [Lexer.skipWhitespace] in H.
  - injection H as <- <-. split; [exact Hs | exact I].
  - destruct (Js.isSpace c) eqn:Hc.
    + exact (IH _ _ _ (suffixAt_tail _ _ _ _ Hs) H).
    + injection H as <- <-. split; [exact Hs | exact Hc].
Qed.

Lemma suffixAt_scan (input : string) (p : ascii -> bool) (rest : string) :
  forall i acc rest2 i2,
    suffixAt input i rest ->
    Lexer.scan p rest i = (acc, (rest2, i2)) ->
    suffixAt input i2 rest2.
Proof.
  induction rest as [|c r IH]; intros i acc rest2 i2 Hs H; cbn [Lexer.scan] in H.
  - injection H as _ <- <-. exact Hs.
  - destruct (p c).
    + destruct (Lexer.scan p r (S i)) as [acc' [rest' i']] eqn:Hscan.
      injection H as _ <- <-.
      exact (IH _ _ _ _ (suffixAt_tail _ _ _ _ Hs) Hscan).
    + injection H as _ <- <-. exact Hs.
Qed.

Lemma tokenizeLoop_error (input : string) (fuel : nat) :
  forall rest i acc message,
    suffixAt input i rest ->
    Lexer.tokenizeLoop fuel rest i acc = Throw message ->
    lexicalError input message.
Proof.
  induction fuel as [|fuel IH]; intros rest i acc message Hs H; [discriminate|].
  cbn [Lexer.tokenizeLoop] in H.
  destruct rest as [|c0 r0]; [discriminate|].
  destruct (Lexer.skipWhitespace (String c0 r0) i) as [rest1 i1] eqn:Hskip.
  destruct (suffixAt_skipWhitespace _ _ _ _ _ Hs Hskip) as [Hs1 Hnotspace].
  destruct rest1 as [|ch r]; [discriminate|].
  destruct (Js.isDigit ch || (Nat.eqb (Js.code ch) 46 && Lexer.nextIsDigit (String ch r)))
    eqn:Hnum.
  - destruct (Lexer.scan Js.isDigitOrDot (String ch r) i1) as [num [rest2 i2]] eqn:Hscan.
    destruct (Nat.ltb 1 (Lexer.countDots num)).
    + injection H as <-. left. reflexivity.
    + exact (IH _ _ _ _ (suffixAt_scan _ _ _ _ _ _ _ Hs1 Hscan) H).
  - destruct (Js.isAlpha ch) eqn:Halpha.
    + destruct (Lexer.scan Js.isAlnum (String ch r) i1) as [id [rest2 i2]] eqn:Hscan.
      exact (IH _ _ _ _ (suffixAt_scan _ _ _ _ _ _ _ Hs1 Hscan) H).
    + destruct (Js.includesChar "+-*/()" ch) eqn:Hop.
      * exact (IH _ _ _ _ (suffixAt_tail _ _ _ _ Hs1) H).
      * injection H as <-. right. exists ch, i1.
        apply orb_false_iff in Hnum. destruct Hnum as [Hdigit _].
        repeat split; try assumption.
        specialize (Hs1 0). cbn [String.get] in Hs1.
        rewrite Nat.add_0_r in Hs1. symmetry. exact Hs1.
Qed.

(** X3. When [tokenize] fails, its message is either the multiple-dots one
    or names a character and a position such that the character stands at
    that position of the input, counted from 1, and is neither a blank, a
    digit, a letter nor an operator character. *)
Theorem X3_lexical_error_names_the_character (input message : string) :
  Lexer.tokenize input = Throw message ->
  lexicalError input message.
Proof.
  unfold Lexer.tokenize. apply tokenizeLoop_error. intros k. reflexivity.
Qed.

Lemma X3_witness :
  Lexer.tokenize "ab + #1" = Throw "Invalid character: '#' at position 6"
  /\ lexicalError "ab + #1" "Invalid character: '#' at position 6".
Proof.
  split; [reflexivity|].
  apply (X3_lexical_error_names_the_character "ab + #1"). reflexivity.
Defined.

(** *** Tokenizing the tokens again *)

Ltac classes :=
  unfold Js.isDigitOrDot, Js.isAlnum, Js.isDigit, Js.isAlpha, Js.isSpace, Js.code in *;
  repeat match goal with
         | H : context [Nat.leb ?a ?b] |- _ => destruct (Nat.leb_spec a b)
         | |- context [Nat.leb ?a ?b] => destruct (Nat.leb_spec a b)
         | H : context [Nat.eqb ?a ?b] |- _ => destruct (Nat.eqb_spec a b)
         | |- context [Nat.eqb ?a ?b] => destruct (Nat.eqb_spec a b)
         end;
  cbn in *; try discriminate; try reflexivity; try (exfalso; lia).

Lemma digit_or_dot_not_space (c : ascii) :
  Js.isDigitOrDot c = true -> Js.isSpace c = false.
Proof. intros H. classes. Qed.

Lemma alpha_not_space (c : ascii) : Js.isAlpha c = true -> Js.isSpace c = false.
Proof. intros H. classes. Qed.

Lemma alpha_not_digit_or_dot (c : ascii) :
  Js.isAlpha c = true -> Js.isDigitOrDot c = false.
Proof. intros H. classes. Qed.

Lemma operator_char_cases (c : ascii) :
  Js.includesChar "+-*/()" c = true ->
  In c ["+"; "-"; "*"; "/"; "("; ")"]%char.
Proof.
  cbn [Js.includesChar In]. intros H.
  repeat (apply orb_true_iff in H; destruct H as [H | H];
          [apply Ascii.eqb_eq in H; auto 10|]).
  discriminate.
Qed.

Lemma operator_char_classes (c : ascii) :
  Js.includesChar "+-*/()" c = true ->
  Js.isSpace c = false /\ Js.isDigitOrDot c = false /\ Js.isAlpha c = false.
Proof.
  intros H. apply operator_char_cases in H. cbn [In] in H.
  destruct H as [<- | [<- | [<- | [<- | [<- | [<- | []]]]]]]; repeat split.
Qed.

Lemma not_digit_or_dot_no_number_start (c : ascii) (rest : string) :
  Js.isDigitOrDot c = false ->
  Js.isDigit c || (Nat.eqb (Js.code c) 46 && Lexer.nextIsDigit rest) = false.
Proof.
  unfold Js.isDigitOrDot. intros H. apply orb_false_iff in H. destruct H as [-> ->].
  reflexivity.
Qed.

(** A word is scanned whole when what follows it is the end of the input
    or a blank. *)
Lemma scan_word (p : ascii -> bool) (word tail : string) (i : nat) :
  forallChars p word = true ->
  match tail with String c _ => p c = false | EmptyString => True end ->
  Lexer.scan p (word ++ tail) i = (word, (tail, i + String.length word)).
Proof.
  revert i. induction word as [|c w IH]; intros i Hall Htail.
  - cbn [String.append String.length]. rewrite Nat.add_0_r.
    destruct tail as [|d t]; cbn [Lexer.scan]; [reflexivity|]. rewrite Htail. reflexivity.
  - cbn [forallChars] in Hall. apply andb_true_iff in Hall. destruct Hall as [Hc Hw].
    cbn [String.append Lexer.scan String.length]. rewrite Hc, (IH (S i) Hw Htail).
    f_equal. f_equal. lia.
Qed.

Lemma space_not_digit_or_dot (c : ascii) : Js.isSpace c = true -> Js.isDigitOrDot c = false.
Proof. intros H. classes. Qed.

Lemma space_not_alnum (c : ascii) : Js.isSpace c = true -> Js.isAlnum c = false.
Proof. intros H. classes. Qed.

Lemma endsWord_stops (p : ascii -> bool) (tail : string) :
  (forall c, Js.isSpace c = true -> p c = false) ->
  endsWord tail ->
  match tail with String c _ => p c = false | EmptyString => True end.
Proof. intros Hp. destruct tail as [|c t]; [trivial | exact (Hp c)]. Qed.

Lemma nextIsDigit_app (word tail : string) :
  Lexer.nextIsDigit word = true -> Lexer.nextIsDigit (word ++ tail) = true.
Proof.
  destruct word as [|c [|d w]]; try discriminate. intros H. exact H.
Qed.

Lemma number_start_app (c : ascii) (word tail : string) :
  Js.isDigit c || (Nat.eqb (Js.code c) 46 && Lexer.nextIsDigit (String c word)) = true ->
  Js.isDigit c
  || (Nat.eqb (Js.code c) 46 && Lexer.nextIsDigit (String c (word ++ tail))) = true.
Proof.
  intros H. apply orb_true_iff in H. destruct H as [-> | H]; [reflexivity|].
  apply andb_true_iff in H. destruct H as [-> H].
  change (String c (word ++ tail)) with (String c word ++ tail).
  rewrite (nextIsDigit_app (String c word) tail H). apply orb_true_r.
Qed.

Lemma skipWhitespace_at_word (c : ascii) (r : string) (i : nat) :
  Js.isSpace c = false ->
  Lexer.skipWhitespace (String c r) i = (String c r, i).
Proof. intros H. cbn [Lexer.skipWhitespace]. rewrite H. reflexivity. Qed.

(** One turn of the loop over the text of a well-formed token followed by
    the end of the input or by a blank pushes that token. *)
Lemma tokenizeLoop_word (t : Token) (tail : string) (f i : nat) (acc : list Token) :
  wellFormedToken t = true ->
  endsWord tail ->
  Lexer.tokenizeLoop (S f) (value t ++ tail) i acc
  = Lexer.tokenizeLoop f tail (i + String.length (value t)) (Js.push acc t).
Proof.
  destruct t as [ty v]. unfold wellFormedToken. cbn [type value]. intros Hwf Htail.
  destruct (String.eqb ty "NUMBER") eqn:Hty.
  { apply String.eqb_eq in Hty. subst ty.
    destruct v as [|c w]; [discriminate|].
    apply andb_true_iff in Hwf. destruct Hwf as [Hwf Hdots].
    apply andb_true_iff in Hwf. destruct Hwf as [Hstart Hall].
    pose proof Hall as Hc. cbn [forallChars] in Hc. apply andb_true_iff in Hc.
    destruct Hc as [Hc _].
    cbn [Lexer.tokenizeLoop String.append].
    rewrite (skipWhitespace_at_word c (w ++ tail) i (digit_or_dot_not_space c Hc)).
    rewrite (number_start_app c w tail Hstart).
    change (String c (w ++ tail)) with (String c w ++ tail).
    rewrite (scan_word Js.isDigitOrDot (String c w) tail i Hall
               (endsWord_stops _ tail space_not_digit_or_dot Htail)).
    apply Nat.leb_le in Hdots.
    replace (Nat.ltb 1 (Lexer.countDots (String c w))) with false
      by (symmetry; apply Nat.ltb_ge; exact Hdots).
    reflexivity. }
  destruct (String.eqb ty "IDENT") eqn:Hty2.
  { apply String.eqb_eq in Hty2. subst ty.
    destruct v as [|c w]; [discriminate|].
    apply andb_true_iff in Hwf. destruct Hwf as [Halpha Hall].
    cbn [Lexer.tokenizeLoop String.append].
    rewrite (skipWhitespace_at_word c (w ++ tail) i (alpha_not_space c Halpha)).
    rewrite (not_digit_or_dot_no_number_start c _ (alpha_not_digit_or_dot c Halpha)).
    rewrite Halpha.
    change (String c (w ++ tail)) with (String c w ++ tail).
    assert (Hword : forallChars Js.isAlnum (String c w) = true).
    { cbn [forallChars]. rewrite (alpha_is_alnum c Halpha), Hall. reflexivity. }
    rewrite (scan_word Js.isAlnum (String c w) tail i Hword
               (endsWord_stops _ tail space_not_alnum Htail)).
    reflexivity. }
  destruct (String.eqb ty "OPERATOR") eqn:Hty3; [|discriminate].
  apply String.eqb_eq in Hty3. subst ty.
  destruct v as [|c [|d w]]; try discriminate.
  destruct (operator_char_classes c Hwf) as (Hspace & Hnum & Halpha).
  cbn [Lexer.tokenizeLoop String.append].
  rewrite (skipWhitespace_at_word c tail i Hspace).
  rewrite (not_digit_or_dot_no_number_start c _ Hnum), Halpha, Hwf.
  cbn [String.length]. replace (i + 1) with (S i) by lia. reflexivity.
Qed.

Lemma join_cons (sep x : string) (rest : list string) :
  Js.join sep (x :: rest)
  = x ++ match rest with [] => "" | _ :: _ => sep ++ Js.join sep rest end.
Proof.
  destruct rest as [|y rest]; cbn [Js.join]; [|reflexivity].
  induction x as [|c x IH]; cbn; [reflexivity | rewrite <- IH; reflexivity].
Qed.

Lemma string_length_app (a b : string) :
  String.length (a ++ b) = String.length a + String.length b.
Proof. induction a as [|c a IH]; cbn; [reflexivity | rewrite IH; reflexivity]. Qed.

Lemma wellFormedToken_nonempty (t : Token) :
  wellFormedToken t = true -> 0 < String.length (value t).
Proof.
  unfold wellFormedToken.
  destruct (String.eqb (type t) "NUMBER"); [|destruct (String.eqb (type t) "IDENT");
    [|destruct (String.eqb (type t) "OPERATOR"); [|discriminate]]];
    destruct (value t); try discriminate; intros _; cbn; lia.
Qed.

Lemma wellFormedToken_head (t : Token) :
  wellFormedToken t = true ->
  exists c r, value t = String c r /\ Js.isSpace c = false.
Proof.
  unfold wellFormedToken.
  destruct (String.eqb (type t) "NUMBER").
  { destruct (value t) as [|c r]; [discriminate|]. intros H.
    apply andb_true_iff in H. destruct H as [H _].
    apply andb_true_iff in H. destruct H as [_ H].
    cbn [forallChars] in H. apply andb_true_iff in H. destruct H as [H _].
    exists c, r. split; [reflexivity | exact (digit_or_dot_not_space c H)]. }
  destruct (String.eqb (type t) "IDENT").
  { destruct (value t) as [|c r]; [discriminate|]. intros H.
    apply andb_true_iff in H. destruct H as [H _].
    exists c, r. split; [reflexivity | exact (alpha_not_space c H)]. }
  destruct (String.eqb (type t) "OPERATOR"); [|discriminate].
  destruct (value t) as [|c [|d r]]; try discriminate. intros H.
  exists c, "". split; [reflexivity | exact (proj1 (operator_char_classes c H))].
Qed.

(** Blanks in front of the cursor are skipped within the same turn. *)
Lemma tokenizeLoop_after_blank (f : nat) (c : ascii) (r : string) (i : nat)
      (acc : list Token) :
  Js.isSpace c = false ->
  Lexer.tokenizeLoop (S f) (String " " (String c r)) i acc
  = Lexer.tokenizeLoop (S f) (String c r) (S i) acc.
Proof.
  intros Hc. cbn [Lexer.tokenizeLoop].
  rewrite (skipWhitespace_at_word c r (S i) Hc).
  replace (Lexer.skipWhitespace (String " " (String c r)) i) with (String c r, S i)
    by (cbn [Lexer.skipWhitespace]; rewrite Hc; reflexivity).
  reflexivity.
Qed.

Lemma tokenizeLoop_values (tokens : list Token) :
  forall (lead : string) (fuel i : nat) (acc : list Token),
    forallb wellFormedToken tokens = true ->
    lead = "" \/ lead = " " ->
    String.length (lead ++ Js.join " " (map value tokens)) < fuel ->
    Lexer.tokenizeLoop fuel (lead ++ Js.join " " (map value tokens)) i acc
    = Ok (acc ++ tokens)%list.
Proof.
  induction tokens as [|t rest IH]; intros lead fuel i acc Hwf Hlead Hfuel.
  - destruct fuel as [|f]; [lia|]. rewrite app_nil_r.
    destruct Hlead as [-> | ->]; reflexivity.
  - cbn [forallb] in Hwf. apply andb_true_iff in Hwf. destruct Hwf as [Ht Hrest].
    cbn [map] in *. rewrite join_cons in *.
    set (tail := match map value rest with
                 | [] => ""
                 | _ :: _ => " " ++ Js.join " " (map value rest)
                 end) in *.
    assert (Htail : exists lead', (lead' = "" \/ lead' = " ")
                                  /\ tail = lead' ++ Js.join " " (map value rest)).
    { subst tail. destruct rest as [|t' rest']; cbn [map].
      - exists "". split; [left|]; reflexivity.
      - exists " ". split; [right|]; reflexivity. }
    destruct Htail as (lead' & Hlead' & Htail).
    assert (Hends : endsWord tail).
    { subst tail. destruct (map value rest); [exact I | reflexivity]. }
    rewrite !string_length_app in Hfuel.
    assert (Hstep : forall f j,
               String.length tail < f ->
               Lexer.tokenizeLoop (S f) (value t ++ tail) j acc
               = Ok (acc ++ t :: rest)%list).
    { intros f j Hf. rewrite (tokenizeLoop_word t tail f j acc Ht Hends).
      rewrite Htail. rewrite (IH lead' f _ (Js.push acc t) Hrest Hlead').
      - unfold Js.push. rewrite <- app_assoc. reflexivity.
      - rewrite <- Htail. exact Hf. }
    pose proof (wellFormedToken_nonempty t Ht) as Hne.
    destruct fuel as [|f]; [lia|].
    destruct Hlead as [-> | ->].
    + cbn [String.append]. apply Hstep. cbn in Hfuel. lia.
    + destruct (wellFormedToken_head t Ht) as (c & r & Hv & Hc).
      cbn [String.append]. rewrite Hv. cbn [String.append].
      rewrite (tokenizeLoop_after_blank f c (r ++ tail) i acc Hc).
      change (String c (r ++ tail)) with (String c r ++ tail). rewrite <- Hv.
      apply Hstep. cbn in Hfuel. lia.
Qed.

(** X4. Tokenizing is stable: the texts of the tokens of an input, written
    one after the other with a blank in between, tokenize to the same
    tokens, types included. *)
Theorem X4_tokens_tokenize_to_themselves (input : string) (tokens : list Token) :
  Lexer.tokenize input = Ok tokens ->
  Lexer.tokenize (Js.join " " (map value tokens)) = Ok tokens.
Proof.
  intros H.
  assert (Hwf : forallb wellFormedToken tokens = true).
  { unfold Lexer.tokenize in H.
    exact (tokenizeLoop_wellFormed _ _ _ [] _ eq_refl H). }
  unfold Lexer.tokenize.
  exact (tokenizeLoop_values tokens "" _ 0 [] Hwf (or_introl eq_refl)
           (Nat.lt_succ_diag_r _)).
Qed.

Lemma X4_witness :
  Lexer.tokenize "3.5*(x1-2)"
  = Ok [mkToken "NUMBER" "3.5"; mkToken "OPERATOR" "*"; mkToken "OPERATOR" "(";
        mkToken "IDENT" "x1"; mkToken "OPERATOR" "-"; mkToken "NUMBER" "2";
        mkToken "OPERATOR" ")"]
  /\ Lexer.tokenize "3.5 * ( x1 - 2 )" = Lexer.tokenize "3.5*(x1-2)".
Proof.
  split; [reflexivity|].
  exact (X4_tokens_tokenize_to_themselves "3.5*(x1-2)" _ eq_refl).
Defined.

(** ** The parser *)

Lemma eat_Ok_token (tokens : list Token) (ty val : string) (pos : nat)
      (tok : Token) (pos' : nat) :
  Parser.eat tokens ty val pos = Ok (tok, pos') ->
  Parser.peek tokens pos = Some tok /\ pos' = S pos /\ type tok = ty
  /\ (Js.truthy val = true -> value tok = val).
Proof.
  unfold Parser.eat. destruct (Parser.peek tokens pos) as [t|]; [|discriminate].
  destruct (negb (String.eqb (type t) ty)) eqn:Hty; [discriminate|].
  destruct (Js.truthy val && negb (String.eqb (value t) val)) eqn:Hval; [discriminate|].
  cbn [orb]. intros H. injection H as <- <-.
  apply negb_false_iff, String.eqb_eq in Hty.
  repeat split; [exact Hty|].
  intros Htruthy. rewrite Htruthy in Hval. cbn [andb] in Hval.
  apply negb_false_iff, String.eqb_eq in Hval. exact Hval.
Qed.

Section ParserInvariants.

Variable tokens : list Token.

Ltac bind_in H r :=
  match type of H with
  | bind ?c _ = Ok _ =>
      destruct c as [r| |] eqn:?; cbn [bind] in H; [|discriminate H|discriminate H]
  end.

Lemma endsOperand_after (pos : nat) (tok : Token) :
  Parser.peek tokens pos = Some tok ->
  closesOperand tok = true ->
  endsOperand tokens (S pos).
Proof.
  intros Hpeek Hc. exists tok. repeat split; [lia | | exact Hc].
  replace (S pos - 1) with pos by lia. exact Hpeek.
Qed.

Lemma parser_endsOperand (fuel : nat) :
  (forall pos node pos',
      Parser.parseFactor tokens fuel pos = Ok (node, pos') -> endsOperand tokens pos')
  /\ (forall pos node pos',
        Parser.parseTerm tokens fuel pos = Ok (node, pos') -> endsOperand tokens pos')
  /\ (forall pos node pos',
        Parser.parseExpression tokens fuel pos = Ok (node, pos') -> endsOperand tokens pos')
  /\ (forall node0 pos node pos',
        Parser.parseTermLoop tokens fuel node0 pos = Ok (node, pos') ->
        endsOperand tokens pos -> endsOperand tokens pos')
  /\ (forall node0 pos node pos',
        Parser.parseExpressionLoop tokens fuel node0 pos = Ok (node, pos') ->
        endsOperand tokens pos -> endsOperand tokens pos').
Proof.
  induction fuel as [|f (IHF & IHT & IHE & IHTL & IHEL)].
  - repeat split; intros; discriminate.
  - repeat apply conj.
    + intros pos node pos' H. rewrite parseFactor_S in H.
      destruct (Parser.peek tokens pos) as [tok|] eqn:Hpeek; [|discriminate].
      destruct (String.eqb (type tok) "NUMBER") eqn:Hnum.
      { injection H as _ <-. apply (endsOperand_after pos tok Hpeek).
        unfold closesOperand. rewrite Hnum. reflexivity. }
      destruct (String.eqb (type tok) "IDENT") eqn:Hid.
      { injection H as _ <-. apply (endsOperand_after pos tok Hpeek).
        unfold closesOperand. rewrite Hid. apply orb_true_iff. left. apply orb_true_r. }
      destruct (String.eqb (value tok) "(").
      * bind_in H r. destruct r as [n1 p1]. cbn [fst snd] in H.
        bind_in H e. destruct e as [t p2]. cbn [fst snd] in H. injection H as _ <-.
        match goal with
        | He : Parser.eat _ _ _ _ = Ok _ |- _ =>
            apply eat_Ok_token in He; destruct He as (Hp & -> & Hty & Hval)
        end.
        apply (endsOperand_after p1 t Hp). unfold closesOperand.
        rewrite Hty, (Hval eq_refl). reflexivity.
      * destruct (String.eqb (value tok) "-"); [|discriminate].
        bind_in H r. destruct r as [n1 p1]. cbn [fst snd] in H. injection H as _ <-.
        eapply IHF. eassumption.
    + intros pos node pos' H. rewrite parseTerm_S in H.
      bind_in H r. destruct r as [n1 p1]. cbn [fst snd] in H.
      eapply IHTL; [exact H|]. eapply IHF. eassumption.
    + intros pos node pos' H. rewrite parseExpression_S in H.
      bind_in H r. destruct r as [n1 p1]. cbn [fst snd] in H.
      eapply IHEL; [exact H|]. eapply IHT. eassumption.
    + intros node0 pos node pos' H Hends. rewrite parseTermLoop_S in H.
      destruct (Parser.peek tokens pos) as [tok|]; [|injection H as _ <-; exact Hends].
      destruct (Parser.isMultiplicative (value tok)); [|injection H as _ <-; exact Hends].
      bind_in H r. destruct r as [n1 p1]. cbn [fst snd] in H.
      eapply IHTL; [exact H|]. eapply IHF. eassumption.
    + intros node0 pos node pos' H Hends. rewrite parseExpressionLoop_S in H.
      destruct (Parser.peek tokens pos) as [tok|]; [|injection H as _ <-; exact Hends].
      destruct (Parser.isAdditive (value tok)); [|injection H as _ <-; exact Hends].
      bind_in H r. destruct r as [n1 p1]. cbn [fst snd] in H.
      eapply IHEL; [exact H|]. eapply IHT. eassumption.
Qed.

Lemma parser_size (fuel : nat) :
  (forall pos node pos',
      Parser.parseFactor tokens fuel pos = Ok (node, pos') -> size node + pos <= pos')
  /\ (forall pos node pos',
        Parser.parseTerm tokens fuel pos = Ok (node, pos') -> size node + pos <= pos')
  /\ (forall pos node pos',
        Parser.parseExpression tokens fuel pos = Ok (node, pos') -> size node + pos <= pos')
  /\ (forall node0 pos node pos',
        Parser.parseTermLoop tokens fuel node0 pos = Ok (node, pos') ->
        size node + pos <= size node0 + pos')
  /\ (forall node0 pos node pos',
        Parser.parseExpressionLoop tokens fuel node0 pos = Ok (node, pos') ->
        size node + pos <= size node0 + pos').
Proof.
  induction fuel as [|f (IHF & IHT & IHE & IHTL & IHEL)].
  - repeat split; intros; discriminate.
  - repeat apply conj.
    + intros pos node pos' H. rewrite parseFactor_S in H.
      destruct (Parser.peek tokens pos) as [tok|]; [|discriminate].
      destruct (String.eqb (type tok) "NUMBER"); [injection H as <- <-; cbn; lia|].
      destruct (String.eqb (type tok) "IDENT"); [injection H as <- <-; cbn; lia|].
      destruct (String.eqb (value tok) "(").
      * bind_in H r. destruct r as [n1 p1]. cbn [fst snd] in H.
        bind_in H e. destruct e as [t p2]. cbn [fst snd] in H. injection H as <- <-.
        match goal with
        | He : Parser.eat _ _ _ _ = Ok _ |- _ =>
            apply eat_Ok_token in He; destruct He as (_ & -> & _)
        end.
        match goal with
        | Hp : Parser.parseExpression _ _ _ = Ok _ |- _ => apply IHE in Hp
        end.
        lia.
      * destruct (String.eqb (value tok) "-"); [|discriminate].
        bind_in H r. destruct r as [n1 p1]. cbn [fst snd] in H. injection H as <- <-.
        match goal with
        | Hp : Parser.parseFactor _ _ _ = Ok _ |- _ => apply IHF in Hp
        end.
        cbn [size]. lia.
    + intros pos node pos' H. rewrite parseTerm_S in H.
      bind_in H r. destruct r as [n1 p1]. cbn [fst snd] in H.
      match goal with
      | Hp : Parser.parseFactor _ _ _ = Ok _ |- _ => apply IHF in Hp
      end.
      apply IHTL in H. lia.
    + intros pos node pos' H. rewrite parseExpression_S in H.
      bind_in H r. destruct r as [n1 p1]. cbn [fst snd] in H.
      match goal with
      | Hp : Parser.parseTerm _ _ _ = Ok _ |- _ => apply IHT in Hp
      end.
      apply IHEL in H. lia.
    + intros node0 pos node pos' H. rewrite parseTermLoop_S in H.
      destruct (Parser.peek tokens pos) as [tok|]; [|injection H as <- <-; lia].
      destruct (Parser.isMultiplicative (value tok)); [|injection H as <- <-; lia].
      bind_in H r. destruct r as [n1 p1]. cbn [fst snd] in H.
      match goal with
      | Hp : Parser.parseFactor _ _ _ = Ok _ |- _ => apply IHF in Hp
      end.
      apply IHTL in H. cbn [size] in H. lia.
    + intros node0 pos node pos' H. rewrite parseExpressionLoop_S in H.
      destruct (Parser.peek tokens pos) as [tok|]; [|injection H as <- <-; lia].
      destruct (Parser.isAdditive (value tok)); [|injection H as <- <-; lia].
      bind_in H r. destruct r as [n1 p1]. cbn [fst snd] in H.
      match goal with
      | Hp : Parser.parseTerm _ _ _ = Ok _ |- _ => apply IHT in Hp
      end.
      apply IHEL in H. cbn [size] in H. lia.
Qed.

Lemma parser_shaped (fuel : nat) :
  (forall pos node pos',
      Parser.parseFactor tokens fuel pos = Ok (node, pos') -> parserShaped node = true)
  /\ (forall pos node pos',
        Parser.parseTerm tokens fuel pos = Ok (node, pos') -> parserShaped node = true)
  /\ (forall pos node pos',
        Parser.parseExpression tokens fuel pos = Ok (node, pos') ->
        parserShaped node = true)
  /\ (forall node0 pos node pos',
        Parser.parseTermLoop tokens fuel node0 pos = Ok (node, pos') ->
        parserShaped node0 = true -> parserShaped node = true)
  /\ (forall node0 pos node pos',
        Parser.parseExpressionLoop tokens fuel node0 pos = Ok (node, pos') ->
        parserShaped node0 = true -> parserShaped node = true).
Proof.
  induction fuel as [|f (IHF & IHT & IHE & IHTL & IHEL)].
  - repeat split; intros; discriminate.
  - repeat apply conj.
    + intros pos node pos' H. rewrite parseFactor_S in H.
      destruct (Parser.peek tokens pos) as [tok|]; [|discriminate].
      destruct (String.eqb (type tok) "NUMBER"); [injection H as <- _; reflexivity|].
      destruct (String.eqb (type tok) "IDENT"); [injection H as <- _; reflexivity|].
      destruct (String.eqb (value tok) "(").
      * bind_in H r. destruct r as [n1 p1]. cbn [fst snd] in H.
        bind_in H e. destruct e as [t p2]. cbn [fst snd] in H. injection H as <- _.
        eapply IHE. eassumption.
      * destruct (String.eqb (value tok) "-"); [|discriminate].
        bind_in H r. destruct r as [n1 p1]. cbn [fst snd] in H. injection H as <- _.
        cbn [parserShaped]. eapply IHF. eassumption.
    + intros pos node pos' H. rewrite parseTerm_S in H.
      bind_in H r. destruct r as [n1 p1]. cbn [fst snd] in H.
      eapply IHTL; [exact H|]. eapply IHF. eassumption.
    + intros pos node pos' H. rewrite parseExpression_S in H.
      bind_in H r. destruct r as [n1 p1]. cbn [fst snd] in H.
      eapply IHEL; [exact H|]. eapply IHT. eassumption.
    + intros node0 pos node pos' H H0. rewrite parseTermLoop_S in H.
      destruct (Parser.peek tokens pos) as [tok|]; [|injection H as <- _; exact H0].
      destruct (Parser.isMultiplicative (value tok)) eqn:Hop;
        [|injection H as <- _; exact H0].
      bind_in H r. destruct r as [n1 p1]. cbn [fst snd] in H.
      eapply IHTL; [exact H|]. cbn [parserShaped]. rewrite Hop, H0, orb_true_r.
      cbn [andb]. eapply IHF. eassumption.
    + intros node0 pos node pos' H H0. rewrite parseExpressionLoop_S in H.
      destruct (Parser.peek tokens pos) as [tok|]; [|injection H as <- _; exact H0].
      destruct (Parser.isAdditive (value tok)) eqn:Hop;
        [|injection H as <- _; exact H0].
      bind_in H r. destruct r as [n1 p1]. cbn [fst snd] in H.
      eapply IHEL; [exact H|]. cbn [parserShaped]. rewrite Hop, H0.
      cbn [orb andb]. eapply IHT. eassumption.
Qed.

End ParserInvariants.

Lemma parse_Ok_inv (tokens : list Token) (ast : Node) :
  parse tokens = Ok ast ->
  Parser.parseExpression tokens (Parser.enough tokens) 0 = Ok (ast, List.length tokens).
Proof.
  unfold parse. intros H.
  destruct (Parser.parseExpression tokens (Parser.enough tokens) 0) as [[n pos]| |];
    cbn [bind] in H; [|discriminate|discriminate].
  destruct (Nat.eqb pos (List.length tokens)) eqn:Hpos; cbn [negb] in H; [|discriminate].
  apply Nat.eqb_eq in Hpos. injection H as <-. subst pos. reflexivity.
Qed.

Lemma parseFactor_opens (tokens : list Token) (f pos : nat) (node : Node) (pos' : nat) :
  Parser.parseFactor tokens f pos = Ok (node, pos') ->
  exists tok, Parser.peek tokens pos = Some tok /\ opensOperand tok = true.
Proof.
  destruct f as [|f]; [discriminate|]. rewrite parseFactor_S.
  destruct (Parser.peek tokens pos) as [tok|]; [|discriminate].
  intros H. exists tok. split; [reflexivity|]. unfold opensOperand.
  destruct (String.eqb (type tok) "NUMBER"); [reflexivity|].
  destruct (String.eqb (type tok) "IDENT"); [reflexivity|].
  destruct (String.eqb (value tok) "("); [reflexivity|].
  destruct (String.eqb (value tok) "-"); [reflexivity|discriminate].
Qed.

Lemma parseExpression_opens (tokens : list Token) (f pos : nat) (node : Node) (pos' : nat) :
  Parser.parseExpression tokens f pos = Ok (node, pos') ->
  exists tok, Parser.peek tokens pos = Some tok /\ opensOperand tok = true.
Proof.
  destruct f as [|[|f]]; [discriminate| |].
  - rewrite parseExpression_S. discriminate.
  - rewrite parseExpression_S, parseTerm_S. intros H.
    destruct (Parser.parseFactor tokens f pos) as [[n1 p1]| |] eqn:Hf;
      cbn [bind] in H; [|discriminate|discriminate].
    exact (parseFactor_opens _ _ _ _ _ Hf).
Qed.

(** X5. A token sequence that parses is not empty, begins with a token that
    can open an operand (a number, an identifier, [(] or [-]) and ends with
    one that closes an operand (a number, an identifier or [)]): an
    expression that stops on an operator is never accepted. *)
Theorem X5_parsed_tokens_open_and_close_an_operand (tokens : list Token) (ast : Node) :
  parse tokens = Ok ast ->
  exists first last,
    nth_error tokens 0 = Some first /\ opensOperand first = true
    /\ nth_error tokens (List.length tokens - 1) = Some last
    /\ closesOperand last = true.
Proof.
  intros H. apply parse_Ok_inv in H.
  destruct (parseExpression_opens _ _ _ _ _ H) as (first & Hfirst & Hopens).
  destruct (parser_endsOperand tokens (Parser.enough tokens)) as (_ & _ & HE & _ & _).
  destruct (HE _ _ _ H) as (last & _ & Hlast & Hcloses).
  exists first, last. repeat split; assumption.
Qed.

Lemma X5_witness :
  parse [mkToken "OPERATOR" "-"; mkToken "OPERATOR" "("; mkToken "IDENT" "a";
         mkToken "OPERATOR" "+"; mkToken "NUMBER" "1"; mkToken "OPERATOR" ")"]
  = Ok (UnaryOp "-" (BinaryOp "+" (VariableRef "a") (Number "1")))
  /\ exists first last,
       nth_error [mkToken "OPERATOR" "-"; mkToken "OPERATOR" "("; mkToken "IDENT" "a";
                  mkToken "OPERATOR" "+"; mkToken "NUMBER" "1"; mkToken "OPERATOR" ")"] 0
       = Some first /\ opensOperand first = true
       /\ nth_error [mkToken "OPERATOR" "-"; mkToken "OPERATOR" "("; mkToken "IDENT" "a";
                     mkToken "OPERATOR" "+"; mkToken "NUMBER" "1"; mkToken "OPERATOR" ")"]
                    (6 - 1)
          = Some last
       /\ closesOperand last = true.
Proof.
  split; [reflexivity|].
  exact (X5_parsed_tokens_open_and_close_an_operand
           [mkToken "OPERATOR" "-"; mkToken "OPERATOR" "("; mkToken "IDENT" "a";
            mkToken "OPERATOR" "+"; mkToken "NUMBER" "1"; mkToken "OPERATOR" ")"]
           _ eq_refl).
Defined.

(** X6. The tree of a successful parse has at most as many nodes as there
    are tokens: every node is paid for by a token of its own, and
    parentheses add none. *)
Theorem X6_tree_is_no_larger_than_the_tokens (tokens : list Token) (ast : Node) :
  parse tokens = Ok ast ->
  size ast <= List.length tokens.
Proof.
  intros H. apply parse_Ok_inv in H.
  destruct (parser_size tokens (Parser.enough tokens)) as (_ & _ & HE & _ & _).
  apply HE in H. lia.
Qed.

Lemma X6_witness :
  parse [mkToken "OPERATOR" "("; mkToken "IDENT" "a"; mkToken "OPERATOR" ")";
         mkToken "OPERATOR" "*"; mkToken "NUMBER" "2"]
  = Ok (BinaryOp "*" (VariableRef "a") (Number "2"))
  /\ size (BinaryOp "*" (VariableRef "a") (Number "2")) <= 5.
Proof.
  split; [reflexivity|].
  exact (X6_tree_is_no_larger_than_the_tokens
           [mkToken "OPERATOR" "("; mkToken "IDENT" "a"; mkToken "OPERATOR" ")";
            mkToken "OPERATOR" "*"; mkToken "NUMBER" "2"] _ eq_refl).
Defined.

Lemma parse_parserShaped (tokens : list Token) (ast : Node) :
  parse tokens = Ok ast -> parserShaped ast = true.
Proof.
  intros H. apply parse_Ok_inv in H.
  destruct (parser_shaped tokens (Parser.enough tokens)) as (_ & _ & HE & _ & _).
  exact (HE _ _ _ H).
Qed.

(** X7. The parser writes no operator of its own: in the tree of a
    successful parse every [BinaryOp] carries one of [+ - * /] and every
    [UnaryOp] carries [-]. *)
Theorem X7_parsed_tree_has_known_operators (tokens : list Token) (ast : Node) :
  parse tokens = Ok ast ->
  parserShaped ast = true.
Proof. exact (parse_parserShaped tokens ast). Qed.

Lemma X7_witness :
  parse [mkToken "OPERATOR" "-"; mkToken "IDENT" "a"; mkToken "OPERATOR" "/";
         mkToken "NUMBER" "2"]
  = Ok (BinaryOp "/" (UnaryOp "-" (VariableRef "a")) (Number "2"))
  /\ parserShaped (BinaryOp "/" (UnaryOp "-" (VariableRef "a")) (Number "2")) = true.
Proof.
  split; [reflexivity|].
  exact (X7_parsed_tree_has_known_operators
           [mkToken "OPERATOR" "-"; mkToken "IDENT" "a"; mkToken "OPERATOR" "/";
            mkToken "NUMBER" "2"] _ eq_refl).
Defined.

(** X8. A call of [parseFactor], [parseTerm] or [parseExpression] that
    returns a node has consumed at least one token and has left the cursor
    within the tokens. *)
Theorem X8_parser_methods_consume_tokens (tokens : list Token) (fuel pos : nat)
        (node : Node) (pos' : nat) :
  Parser.parseFactor tokens fuel pos = Ok (node, pos')
  \/ Parser.parseTerm tokens fuel pos = Ok (node, pos')
  \/ Parser.parseExpression tokens fuel pos = Ok (node, pos') ->
  pos < pos' <= List.length tokens.
Proof.
  destruct (parser_progress tokens fuel) as (HF & HT & HE & _ & _).
  intros [H | [H | H]]; [exact (HF _ _ _ H) | exact (HT _ _ _ H) | exact (HE _ _ _ H)].
Qed.

Lemma X8_witness :
  Parser.parseTerm [mkToken "NUMBER" "2"; mkToken "OPERATOR" "*"; mkToken "IDENT" "x";
                    mkToken "OPERATOR" "+"; mkToken "NUMBER" "1"] 5 0
  = Ok (BinaryOp "*" (Number "2") (VariableRef "x"), 3)
  /\ 0 < 3 <= 5.
Proof.
  split; [reflexivity|].
  apply (X8_parser_methods_consume_tokens
           [mkToken "NUMBER" "2"; mkToken "OPERATOR" "*"; mkToken "IDENT" "x";
            mkToken "OPERATOR" "+"; mkToken "NUMBER" "1"] 5 0
           (BinaryOp "*" (Number "2") (VariableRef "x")) 3).
  right. left. reflexivity.
Defined.

(** ** Semantic analysis *)

Lemma setAdd_In (x y : string) (set : list string) :
  In y (Semantic.setAdd x set) <-> y = x \/ In y set.
Proof.
  unfold Semantic.setAdd, Js.push.
  destruct (existsb (String.eqb x) set) eqn:Hx.
  - split; [auto|]. intros [-> | H]; [|exact H].
    apply existsb_exists in Hx. destruct Hx as (z & Hz & Heq).
    apply String.eqb_eq in Heq. subst z. exact Hz.
  - rewrite in_app_iff. cbn [In]. split.
    + intros [H | [H | []]]; auto.
    + intros [-> | H]; auto.
Qed.

Lemma setAdd_NoDup (x : string) (set : list string) :
  NoDup set -> NoDup (Semantic.setAdd x set).
Proof.
  intros Hnd. unfold Semantic.setAdd, Js.push.
  destruct (existsb (String.eqb x) set) eqn:Hx; [exact Hnd|].
  apply NoDup_app; [exact Hnd | constructor; [intros [] | constructor] |].
  intros y Hy [Heq | []]. subst y.
  assert (existsb (String.eqb x) set = true) as Hin.
  { apply existsb_exists. exists x. split; [exact Hy | apply String.eqb_refl]. }
  congruence.
Qed.

Lemma walk_accumulates (ast : Node) :
  forall st,
    Semantic.nodeCount (Semantic.walk ast st) = Semantic.nodeCount st + size ast
    /\ Semantic.constants (Semantic.walk ast st)
       = (Semantic.constants st ++ numberLeaves ast)%list
    /\ Semantic.operators (Semantic.walk ast st)
       = (Semantic.operators st ++ operatorLabels ast)%list
    /\ (NoDup (Semantic.variables st) -> NoDup (Semantic.variables (Semantic.walk ast st)))
    /\ (forall x, In x (Semantic.variables (Semantic.walk ast st))
                  <-> In x (Semantic.variables st) \/ In x (variableLeaves ast)).
Proof.
  induction ast as [v | n | op l IHl r IHr | op e IHe]; intros st.
  - cbn [Semantic.walk Semantic.pushConstant Semantic.countNode Semantic.nodeCount
         Semantic.constants Semantic.operators Semantic.variables size
         numberLeaves operatorLabels variableLeaves].
    unfold Js.push. rewrite app_nil_r. repeat split; try tauto; try lia.
    intros [H | []]. exact H.
  - cbn [Semantic.walk Semantic.addVariable Semantic.countNode Semantic.nodeCount
         Semantic.constants Semantic.operators Semantic.variables size
         numberLeaves operatorLabels variableLeaves].
    rewrite !app_nil_r. repeat split; try lia.
    + apply setAdd_NoDup.
    + intros H. apply setAdd_In in H. cbn [In]. destruct H as [-> | H]; auto.
    + intros H. apply setAdd_In. cbn [In] in H. destruct H as [H | [-> | []]]; auto.
  - cbn [Semantic.walk size numberLeaves operatorLabels variableLeaves].
    set (st0 := Semantic.pushOperator op (Semantic.countNode st)).
    destruct (IHl st0) as (Hn1 & Hc1 & Ho1 & Hd1 & Hv1).
    destruct (IHr (Semantic.walk l st0)) as (Hn2 & Hc2 & Ho2 & Hd2 & Hv2).
    rewrite Hn2, Hn1, Hc2, Hc1, Ho2, Ho1. subst st0.
    cbn [Semantic.pushOperator Semantic.countNode Semantic.nodeCount
         Semantic.constants Semantic.operators Semantic.variables] in *.
    unfold Js.push. repeat split.
    + lia.
    + rewrite app_assoc. reflexivity.
    + rewrite <- !app_assoc. reflexivity.
    + auto.
    + intros H. apply Hv2 in H. rewrite Hv1 in H. rewrite in_app_iff. tauto.
    + intros H. apply Hv2. rewrite Hv1. rewrite in_app_iff in H. tauto.
  - cbn [Semantic.walk size numberLeaves operatorLabels variableLeaves].
    set (st0 := Semantic.pushOperator ("unary " ++ op) (Semantic.countNode st)).
    destruct (IHe st0) as (Hn1 & Hc1 & Ho1 & Hd1 & Hv1).
    rewrite Hn1, Hc1, Ho1. subst st0.
    cbn [Semantic.pushOperator Semantic.countNode Semantic.nodeCount
         Semantic.constants Semantic.operators Semantic.variables] in *.
    unfold Js.push. repeat split.
    + lia.
    + rewrite <- !app_assoc. reflexivity.
    + auto.
    + intros H. apply Hv1 in H. exact H.
    + intros H. apply Hv1. exact H.
Qed.

(** X9. The variables of the report are the names of the [Variable] nodes
    of the tree, each listed once; the expression is classified as symbolic
    exactly when the tree has such a node. *)
Theorem X9_reported_variables (ast : Node) :
  NoDup (Semantic.variables (Semantic.walk ast Semantic.empty))
  /\ (forall x, In x (Semantic.variables (Semantic.walk ast Semantic.empty))
                <-> In x (variableLeaves ast))
  /\ (Semantic.nonEmpty (Semantic.variables (Semantic.walk ast Semantic.empty)) = true
      <-> variableLeaves ast <> []).
Proof.
  destruct (walk_accumulates ast Semantic.empty) as (_ & _ & _ & Hd & Hv).
  assert (Hin : forall x, In x (Semantic.variables (Semantic.walk ast Semantic.empty))
                          <-> In x (variableLeaves ast)).
  { intros x. rewrite Hv. cbn. tauto. }
  split; [apply Hd; constructor|]. split; [exact Hin|].
  unfold Semantic.nonEmpty. rewrite Nat.ltb_lt.
  destruct (Semantic.variables (Semantic.walk ast Semantic.empty)) as [|x xs] eqn:Hvars;
    destruct (variableLeaves ast) as [|y ys] eqn:Hleaves; cbn [List.length].
  - split; [lia | congruence].
  - exfalso. apply (proj2 (Hin y)). left. reflexivity.
  - exfalso. apply (proj1 (Hin x)). left. reflexivity.
  - split; [discriminate | lia].
Qed.

(** X10. The node count of the report is the number of nodes of the tree;
    the constants are the [Number] leaves from left to right, repeats
    included, and the operators are the operator nodes, parents before
    children, so that the count is the sum of the operators, the constants
    and the [Variable] leaves. *)
Theorem X10_reported_counts (ast : Node) :
  Semantic.nodeCount (Semantic.walk ast Semantic.empty) = size ast
  /\ Semantic.constants (Semantic.walk ast Semantic.empty) = numberLeaves ast
  /\ Semantic.operators (Semantic.walk ast Semantic.empty) = operatorLabels ast
  /\ size ast
     = List.length (operatorLabels ast) + List.length (numberLeaves ast)
       + List.length (variableLeaves ast).
Proof.
  destruct (walk_accumulates ast Semantic.empty) as (Hn & Hc & Ho & _ & _).
  repeat split; [exact Hn | exact Hc | exact Ho |].
  clear. induction ast as [v | n | op l IHl r IHr | op e IHe];
    cbn [size operatorLabels numberLeaves variableLeaves List.length];
    rewrite ?length_app; lia.
Qed.

(** ** Three-address code and the emitter *)

Lemma gen_unaryMinusOnly (ast : Node) :
  forall st,
    (unaryMinusOnly ast = true -> exists ref st', Tac.gen ast st = Ok (ref, st'))
    /\ (unaryMinusOnly ast = false ->
        Tac.gen ast st = Throw "Unknown node type in TAC generation").
Proof.
  induction ast as [v | n | op l IHl r IHr | op e IHe]; intros st;
    cbn [unaryMinusOnly Tac.gen].
  - split; [eauto | discriminate].
  - split; [eauto | discriminate].
  - destruct (IHl st) as [Hl1 Hl0]. split; intros H.
    + apply andb_true_iff in H. destruct H as [Hl Hr].
      destruct (Hl1 Hl) as (left' & st1 & ->). cbn [bind].
      destruct (IHr st1) as [Hr1 _]. destruct (Hr1 Hr) as (right' & st2 & ->).
      cbn [bind]. unfold Tac.emit. eauto.
    + destruct (unaryMinusOnly l) eqn:Hl.
      * destruct (Hl1 eq_refl) as (left' & st1 & ->). cbn [bind].
        destruct (IHr st1) as [_ Hr0]. cbn [andb] in H. rewrite (Hr0 H). reflexivity.
      * rewrite (Hl0 eq_refl). reflexivity.
  - destruct (String.eqb op "-"); cbn [andb].
    + destruct (IHe st) as [He1 He0]. split; intros H.
      * destruct (He1 H) as (operand' & st1 & ->). cbn [bind]. unfold Tac.emit. eauto.
      * rewrite (He0 H). reflexivity.
    + split; [discriminate | reflexivity].
Qed.

Lemma generateTAC_unaryMinusOnly (ast : Node) :
  (unaryMinusOnly ast = true -> exists lines, generateTAC ast = Ok lines)
  /\ (unaryMinusOnly ast = false ->
      generateTAC ast = Throw "Unknown node type in TAC generation").
Proof.
  unfold generateTAC. destruct (gen_unaryMinusOnly ast Tac.initial) as [H1 H0].
  split; intros H.
  - destruct (H1 H) as (ref & st & ->). cbn [bind].
    destruct (Nat.eqb (List.length (Tac.tac st)) 0); eauto.
  - rewrite (H0 H). reflexivity.
Qed.

(** X11. [generateTAC] returns lines only for a tree in which every
    [UnaryOp] carries [-]: a tree that holds a unary node with another
    operator, however deep, never yields three-address code. *)
Theorem X11_generateTAC_returns_only_for_unary_minus (ast : Node) (lines : list string) :
  generateTAC ast = Ok lines ->
  unaryMinusOnly ast = true.
Proof.
  intros H. destruct (unaryMinusOnly ast) eqn:Hu; [reflexivity|].
  rewrite (proj2 (generateTAC_unaryMinusOnly ast) Hu) in H. discriminate H.
Qed.

Lemma X11_witness :
  generateTAC (BinaryOp "+" (Number "1") (UnaryOp "-" (VariableRef "x")))
  = Ok ["t0 = -x"; "t1 = 1 + t0"; "result = t1"]
  /\ unaryMinusOnly (BinaryOp "+" (Number "1") (UnaryOp "-" (VariableRef "x"))) = true.
Proof.
  split; [reflexivity|].
  exact (X11_generateTAC_returns_only_for_unary_minus
           (BinaryOp "+" (Number "1") (UnaryOp "-" (VariableRef "x"))) _ eq_refl).
Defined.

Lemma gen_counts (ast : Node) :
  forall st ref st',
    Tac.gen ast st = Ok (ref, st') ->
    List.length (Tac.tac st')
    = List.length (Tac.tac st) + List.length (operatorLabels ast)
    /\ Tac.tempCounter st'
       = Tac.tempCounter st + List.length (operatorLabels ast)
    /\ (Forall hasSeparator (Tac.tac st) -> Forall hasSeparator (Tac.tac st')).
Proof.
  induction ast as [v | n | op l IHl r IHr | op e IHe]; intros st ref st' H;
    cbn [Tac.gen operatorLabels List.length] in *.
  - injection H as _ <-. repeat split; [lia | lia | auto].
  - injection H as _ <-. repeat split; [lia | lia | auto].
  - destruct (Tac.gen l st) as [[left' st1]| |] eqn:Hl; cbn [bind] in H;
      [|discriminate|discriminate].
    destruct (Tac.gen r st1) as [[right' st2]| |] eqn:Hr; cbn [bind] in H;
      [|discriminate|discriminate].
    destruct (IHl _ _ _ Hl) as (Hn1 & Hc1 & Hs1).
    destruct (IHr _ _ _ Hr) as (Hn2 & Hc2 & Hs2).
    injection H as _ <-. cbn [Tac.emit Tac.tac Tac.tempCounter]. unfold Js.push.
    rewrite !length_app. cbn [List.length]. repeat split; [lia | lia |].
    intros Hall. apply Forall_app. split; [auto|].
    constructor; [|constructor].
    exists ("t" ++ Js.showNat (Tac.tempCounter st2)),
      (left' ++ " " ++ op ++ " " ++ right').
    reflexivity.
  - destruct (String.eqb op "-"); [|discriminate].
    destruct (Tac.gen e st) as [[operand' st1]| |] eqn:He; cbn [bind] in H;
      [|discriminate|discriminate].
    destruct (IHe _ _ _ He) as (Hn1 & Hc1 & Hs1).
    injection H as _ <-. cbn [Tac.emit Tac.tac Tac.tempCounter]. unfold Js.push.
    rewrite !length_app. cbn [List.length]. repeat split; [lia | lia |].
    intros Hall. apply Forall_app. split; [auto|].
    constructor; [|constructor].
    exists ("t" ++ Js.showNat (Tac.tempCounter st1)), ("-" ++ operand'). reflexivity.
Qed.

Lemma generateTAC_lines (ast : Node) (lines : list string) :
  generateTAC ast = Ok lines ->
  List.length lines = List.length (operatorLabels ast) + 1
  /\ Forall hasSeparator lines.
Proof.
  unfold generateTAC. intros H.
  destruct (Tac.gen ast Tac.initial) as [[ref st]| |] eqn:Hgen; cbn [bind] in H;
    [|discriminate|discriminate].
  destruct (gen_counts _ _ _ _ Hgen) as (Hn & _ & Hs).
  assert (Hlines : lines = Js.push (Tac.tac st) ("result = " ++ ref)).
  { destruct (Nat.eqb (List.length (Tac.tac st)) 0); injection H as <-; reflexivity. }
  subst lines. unfold Js.push. rewrite length_app, Hn. cbn [List.length Tac.initial Tac.tac].
  split; [lia|].
  apply Forall_app. split; [apply Hs; constructor|].
  constructor; [|constructor]. exists "result", ref. reflexivity.
Qed.

(** X12. [generateTAC] writes one line for each operator node of the tree
    and the closing [result] line: as many lines as the semantic report
    counts operators, plus one. *)
Theorem X12_one_TAC_line_per_operator (ast : Node) (lines : list string) :
  generateTAC ast = Ok lines ->
  List.length lines
  = List.length (Semantic.operators (Semantic.walk ast Semantic.empty)) + 1.
Proof.
  intros H. destruct (walk_accumulates ast Semantic.empty) as (_ & _ & Ho & _ & _).
  rewrite Ho. cbn [Semantic.empty Semantic.operators app].
  exact (proj1 (generateTAC_lines ast lines H)).
Qed.

Lemma X12_witness :
  generateTAC (BinaryOp "*" (UnaryOp "-" (VariableRef "a")) (Number "2"))
  = Ok ["t0 = -a"; "t1 = t0 * 2"; "result = t1"]
  /\ List.length ["t0 = -a"; "t1 = t0 * 2"; "result = t1"]
     = List.length
         (Semantic.operators
            (Semantic.walk (BinaryOp "*" (UnaryOp "-" (VariableRef "a")) (Number "2"))
                           Semantic.empty)) + 1.
Proof.
  split; [reflexivity|].
  exact (X12_one_TAC_line_per_operator
           (BinaryOp "*" (UnaryOp "-" (VariableRef "a")) (Number "2")) _ eq_refl).
Defined.

Lemma includes_app (a s p : string) :
  Js.includes s p = true -> Js.includes (a ++ s) p = true.
Proof.
  intros H. induction a as [|c a IH]; [exact H|].
  cbn [String.append Js.includes]. rewrite IH. apply orb_true_r.
Qed.

Lemma hasSeparator_includes (line : string) :
  hasSeparator line -> Js.includes line "=" = true.
Proof.
  intros (target & rest & ->). apply includes_app. reflexivity.
Qed.

Lemma splitAux_two (target rest : string) :
  forall cur,
  exists x y more, Js.splitAux " = " (target ++ " = " ++ rest) cur 0 = x :: y :: more.
Proof.
  induction target as [|c t IH]; intros cur.
  - cbn [String.append].
    change (Js.splitAux " = " (String " " (String "=" (String " " rest))) cur 0)
      with (cur :: Js.splitAux " = " rest "" 0).
    pose proof (splitAux_not_nil " = " rest "" 0) as Hne.
    destruct (Js.splitAux " = " rest "" 0) as [|y more]; [contradiction|].
    eauto.
  - set (tail := " = " ++ rest) in *. cbn [String.append Js.splitAux].
    destruct (Js.startsWith " = " (String c (t ++ tail))).
    + pose proof (splitAux_not_nil " = " (t ++ tail) "" (String.length " = " - 1)) as Hne.
      destruct (Js.splitAux " = " (t ++ tail) "" (String.length " = " - 1))
        as [|y more]; [contradiction|].
      eauto.
    + apply IH.
Qed.

Lemma finalCodeLines_separated (tacLines : list string) :
  forall lines,
    Forall hasSeparator tacLines ->
    exists out,
      finalCodeLines tacLines lines = Ok out
      /\ List.length out = List.length lines + List.length tacLines.
Proof.
  induction tacLines as [|line rest IH]; intros lines Hall; cbn [finalCodeLines].
  - exists lines. split; [reflexivity | cbn; lia].
  - inversion Hall as [|l ls Hline Hrest]; subst.
    rewrite (hasSeparator_includes line Hline).
    destruct Hline as (target & expr & ->).
    destruct (splitAux_two target expr "") as (x & y & more & Hsplit).
    unfold Js.split. rewrite Hsplit.
    destruct (IH (Js.push lines ("MOV " ++ Js.trim x ++ ", " ++ Js.trim y)) Hrest)
      as (out & Hout & Hlen).
    exists out. split; [exact Hout|].
    rewrite Hlen. unfold Js.push. rewrite length_app. cbn [List.length]. lia.
Qed.

Lemma emitter_on_generateTAC (ast : Node) (tacLines : list string) :
  generateTAC ast = Ok tacLines ->
  exists lines,
    finalCodeLines tacLines [] = Ok lines
    /\ generateFinalCode tacLines = Ok (Js.join nl lines)
    /\ List.length lines = List.length tacLines
    /\ Forall startsWithMOV lines.
Proof.
  intros H. destruct (generateTAC_lines ast tacLines H) as [_ Hsep].
  destruct (finalCodeLines_separated tacLines [] Hsep) as (lines & Hlines & Hlen).
  exists lines. repeat split.
  - exact Hlines.
  - unfold generateFinalCode. rewrite Hlines. reflexivity.
  - exact Hlen.
  - exact (finalCodeLines_MOV tacLines [] lines (Forall_nil _) Hlines).
Qed.

(** X13. The emitter never fails on what [generateTAC] returns, and writes
    exactly one [MOV] line for each of its lines. *)
Theorem X13_one_MOV_line_per_TAC_line (ast : Node) (tacLines : list string) :
  generateTAC ast = Ok tacLines ->
  exists lines,
    finalCodeLines tacLines [] = Ok lines
    /\ generateFinalCode tacLines = Ok (Js.join nl lines)
    /\ List.length lines = List.length tacLines
    /\ Forall startsWithMOV lines.
Proof. exact (emitter_on_generateTAC ast tacLines). Qed.

Lemma X13_witness :
  generateTAC (BinaryOp "-" (VariableRef "a") (UnaryOp "-" (Number "1")))
  = Ok ["t0 = -1"; "t1 = a - t0"; "result = t1"]
  /\ exists lines,
       finalCodeLines ["t0 = -1"; "t1 = a - t0"; "result = t1"] [] = Ok lines
       /\ generateFinalCode ["t0 = -1"; "t1 = a - t0"; "result = t1"]
          = Ok (Js.join nl lines)
       /\ List.length lines = 3
       /\ Forall startsWithMOV lines.
Proof.
  split; [reflexivity|].
  exact (X13_one_MOV_line_per_TAC_line
           (BinaryOp "-" (VariableRef "a") (UnaryOp "-" (Number "1"))) _ eq_refl).
Defined.

Lemma string_app_nil_r (s : string) : s ++ "" = s.
Proof. induction s as [|c s IH]; cbn; [reflexivity | rewrite IH; reflexivity]. Qed.

Lemma splitAux_no_separator (sep s : string) :
  forall cur,
    Js.includes s sep = false ->
    Js.splitAux sep s cur 0 = [cur ++ s].
Proof.
  induction s as [|c r IH]; intros cur H; cbn [Js.splitAux].
  - rewrite string_app_nil_r. reflexivity.
  - cbn [Js.includes] in H. apply orb_false_iff in H. destruct H as [Hhere Hlater].
    rewrite Hhere, (IH _ Hlater), string_app_assoc. reflexivity.
Qed.

(** X14. The emitter skips the lines that hold no [=] and breaks on a line
    that holds an [=] without a blank on each side: the lines before it are
    lost and the call throws, as [expr] is undefined. *)
Theorem X14_emitter_on_foreign_lines :
  (forall tacLines,
      Forall (fun line => Js.includes line "=" = false) tacLines ->
      generateFinalCode tacLines = Ok "")
  /\ (forall before line after,
        Forall hasSeparator before ->
        Js.includes line "=" = true ->
        Js.includes line " = " = false ->
        generateFinalCode (before ++ line :: after)
        = Throw "Cannot read properties of undefined (reading 'trim')").
Proof.
  split.
  - intros tacLines Hall. unfold generateFinalCode.
    assert (H : finalCodeLines tacLines [] = Ok []).
    { induction Hall as [|line rest Hline _ IH]; cbn [finalCodeLines];
        [reflexivity | rewrite Hline; exact IH]. }
    rewrite H. reflexivity.
  - intros before line after Hsep Heq Hnosep. unfold generateFinalCode.
    rewrite finalCodeLines_app.
    destruct (finalCodeLines_separated before [] Hsep) as (out & -> & _).
    cbn [bind finalCodeLines]. rewrite Heq.
    unfold Js.split. rewrite (splitAux_no_separator " = " line "" Hnosep).
    reflexivity.
Qed.

Lemma X14_witness :
  generateFinalCode ["a"; "b c"] = Ok ""
  /\ generateFinalCode ["t0 = 1"; "x=2"; "t1 = 3"]
     = Throw "Cannot read properties of undefined (reading 'trim')".
Proof.
  split.
  - apply (proj1 X14_emitter_on_foreign_lines ["a"; "b c"]).
    repeat constructor.
  - apply (proj2 X14_emitter_on_foreign_lines ["t0 = 1"] "x=2" ["t1 = 3"]).
    + constructor; [exists "t0", "1"; reflexivity | constructor].
    + reflexivity.
    + reflexivity.
Defined.

(** ** The handler *)

Lemma pipelineWith_Ok_inv (renderTree renderSemantic : Node -> string)
      (expression : string) (results : Body) :
  pipelineWith renderTree renderSemantic expression = Ok results ->
  exists tokens ast tacLines finalCode,
    Lexer.tokenize expression = Ok tokens
    /\ parse tokens = Ok ast
    /\ generateTAC ast = Ok tacLines
    /\ generateFinalCode tacLines = Ok finalCode
    /\ results
       = PhaseResults (tokenLines tokens)
           (Js.orElse (Js.trim (renderTree ast)) "(empty tree)")
           (renderSemantic ast) (Js.join nl tacLines)
           (Js.orElse finalCode "(single value - no operations)").
Proof.
  unfold pipelineWith. intros H.
  destruct (Lexer.tokenize expression) as [tokens| |] eqn:Htok; cbn [bind] in H;
    [|discriminate|discriminate].
  destruct (parse tokens) as [ast| |] eqn:Hparse; cbn [bind] in H;
    [|discriminate|discriminate].
  destruct (generateTAC ast) as [tacLines| |] eqn:Htac; cbn [bind] in H;
    [|discriminate|discriminate].
  destruct (generateFinalCode tacLines) as [finalCode| |] eqn:Hfin; cbn [bind] in H;
    [|discriminate|discriminate].
  injection H as <-. exists tokens, ast, tacLines, finalCode. repeat split; assumption.
Qed.

Lemma parserShaped_unaryMinusOnly (ast : Node) :
  parserShaped ast = true -> unaryMinusOnly ast = true.
Proof.
  induction ast as [v | n | op l IHl r IHr | op e IHe];
    cbn [parserShaped unaryMinusOnly]; intros H.
  - reflexivity.
  - reflexivity.
  - apply andb_true_iff in H. destruct H as [H Hr].
    apply andb_true_iff in H. destruct H as [_ Hl].
    rewrite (IHl Hl), (IHr Hr). reflexivity.
  - apply andb_true_iff in H. destruct H as [-> He].
    rewrite (IHe He). reflexivity.
Qed.

(** X15. The unknown-node error of [generateTAC] cannot be reached through
    the parser: on the tree of a successful parse [generateTAC] never throws
    it, since the parser builds no node that [gen] does not know. *)
Theorem X15_unknown_node_error_is_unreachable (tokens : list Token) (ast : Node) :
  parse tokens = Ok ast ->
  generateTAC ast <> Throw "Unknown node type in TAC generation".
Proof.
  intros Hparse.
  pose proof (parse_parserShaped tokens ast Hparse) as Hshape.
  destruct (proj1 (generateTAC_unaryMinusOnly ast)
              (parserShaped_unaryMinusOnly ast Hshape)) as (lines & ->).
  discriminate.
Qed.

Lemma X15_witness :
  parse [mkToken "OPERATOR" "-"; mkToken "IDENT" "a"; mkToken "OPERATOR" "*";
         mkToken "NUMBER" "2"]
  = Ok (BinaryOp "*" (UnaryOp "-" (VariableRef "a")) (Number "2"))
  /\ generateTAC (BinaryOp "*" (UnaryOp "-" (VariableRef "a")) (Number "2"))
     <> Throw "Unknown node type in TAC generation".
Proof.
  split; [reflexivity|].
  exact (X15_unknown_node_error_is_unreachable
           [mkToken "OPERATOR" "-"; mkToken "IDENT" "a"; mkToken "OPERATOR" "*";
            mkToken "NUMBER" "2"] _ eq_refl).
Defined.

(** X17. Every request is answered, in either variant of the service, and
    the answer is a 200 with the five phase results or a 400 with an error
    message, never anything else. *)
Theorem X17_every_request_gets_200_or_400
        (renderTree renderSemantic : Node -> string) (expression : JsValue) :
  exists response,
    compileWith renderTree renderSemantic expression = Some response
    /\ ((status response = 200
         /\ exists t s m i f, body response = PhaseResults t s m i f)
        \/ (status response = 400 /\ exists e, body response = ErrorBody e)).
Proof.
  unfold compileWith.
  destruct (rejected expression).
  { exists invalidRequest. split; [reflexivity|]. right.
    split; [reflexivity|]. eexists. reflexivity. }
  destruct expression;
    try (exists invalidRequest; split; [reflexivity|]; right;
         split; [reflexivity|]; eexists; reflexivity).
  pose proof (pipelineWith_not_OutOfFuel renderTree renderSemantic s) as Hfuel.
  destruct (pipelineWith renderTree renderSemantic s) as [results|message|] eqn:Hp;
    [| |contradiction].
  - destruct (pipelineWith_Ok_inv _ _ _ _ Hp) as (tk & ast & tl & fc & _ & _ & _ & _ & ->).
    eexists. split; [reflexivity|]. left. split; [reflexivity|]. cbn [body].
    do 5 eexists. reflexivity.
  - eexists. split; [reflexivity|]. right. split; [reflexivity|]. cbn [body].
    eexists. reflexivity.
Qed.

(** X18. Whatever is not a non-empty string gets the validation error,
    and the pipeline is not run for it. *)
Theorem X18_only_non_empty_strings_pass_the_guard
        (renderTree renderSemantic : Node -> string) (expression : JsValue) :
  (forall c r, expression <> JsString (String c r)) ->
  rejected expression = true
  /\ compileWith renderTree renderSemantic expression
     = Some (mkResponse 400 (ErrorBody "Missing or invalid expression")).
Proof.
  intros H.
  assert (Hrej : rejected expression = true).
  { destruct expression as [| |b|n|s|]; try reflexivity.
    - unfold rejected. cbn. rewrite orb_true_r. reflexivity.
    - unfold rejected. cbn. rewrite orb_true_r. reflexivity.
    - destruct s as [|c r]; [reflexivity|]. exfalso. exact (H c r eq_refl). }
  split; [exact Hrej|]. unfold compileWith. rewrite Hrej. reflexivity.
Qed.

Lemma X18_witness :
  (forall c r, JsNumber 7 <> JsString (String c r))
  /\ rejected (JsNumber 7) = true
  /\ compile (JsNumber 7)
     = Some (mkResponse 400 (ErrorBody "Missing or invalid expression")).
Proof.
  split; [intros c r; discriminate|].
  apply (X18_only_non_empty_strings_pass_the_guard printTree semanticAnalysis (JsNumber 7)).
  intros c r. discriminate.
Defined.

Lemma string_nonempty_length (s : string) : 0 < String.length s -> s <> "".
Proof. destruct s; cbn; [lia | discriminate]. Qed.

Lemma join_nonempty (sep x : string) (rest : list string) :
  x <> "" -> Js.join sep (x :: rest) <> "".
Proof.
  intros Hx. rewrite join_cons. destruct x as [|c x]; [contradiction | discriminate].
Qed.

Lemma hasSeparator_nonempty (line : string) : hasSeparator line -> line <> "".
Proof.
  intros (target & rest & ->). apply string_nonempty_length.
  rewrite !string_length_app. cbn. lia.
Qed.

Lemma tokenLines_nonempty (tokens : list Token) :
  tokens <> [] -> tokenLines tokens <> "".
Proof.
  destruct tokens as [|t rest]; [contradiction|]. intros _.
  unfold tokenLines. cbn [map]. apply join_nonempty.
  apply string_nonempty_length. rewrite !string_length_app. cbn. lia.
Qed.

Lemma compileWith_200_inv (renderTree renderSemantic : Node -> string)
      (expression : JsValue) (results : Body) :
  compileWith renderTree renderSemantic expression = Some (mkResponse 200 results) ->
  exists c r,
    expression = JsString (String c r)
    /\ pipelineWith renderTree renderSemantic (String c r) = Ok results.
Proof.
  unfold compileWith. destruct (rejected expression) eqn:Hrej; [discriminate|].
  destruct expression as [| |b|n|s|]; try discriminate.
  destruct s as [|c r]; [discriminate Hrej|].
  destruct (pipelineWith renderTree renderSemantic (String c r)) as [res|m|] eqn:Hp;
    try discriminate.
  intros H. injection H as <-. exists c, r. split; [reflexivity | exact Hp].
Qed.

(** X20. No field of a successful answer is empty, whatever the
    expression, as long as the semantic renderer returns some text, which
    both variants do: there is at least one token line, the syntax tree or
    its placeholder, the TAC with its [result] line and the final code. *)
Theorem X20_no_field_of_a_success_is_empty
        (renderTree renderSemantic : Node -> string) (expression : JsValue)
        (t s m i f : string) :
  (forall ast, renderSemantic ast <> "") ->
  compileWith renderTree renderSemantic expression
  = Some (mkResponse 200 (PhaseResults t s m i f)) ->
  t <> "" /\ s <> "" /\ m <> "" /\ i <> "" /\ f <> "".
Proof.
  intros Hsem H.
  destruct (compileWith_200_inv _ _ _ _ H) as (c & r & _ & Hp).
  destruct (pipelineWith_Ok_inv _ _ _ _ Hp)
    as (tokens & ast & tacLines & finalCode & Htok & Hparse & Htac & Hfin & Hres).
  injection Hres as -> -> -> -> ->.
  repeat split.
  - apply tokenLines_nonempty. intros ->. discriminate Hparse.
  - unfold Js.orElse. destruct (Js.trim (renderTree ast)); discriminate.
  - apply Hsem.
  - destruct (generateTAC_lines ast tacLines Htac) as [Hlen Hsep].
    destruct tacLines as [|line rest]; [cbn in Hlen; lia|].
    apply join_nonempty. apply hasSeparator_nonempty.
    inversion Hsep; assumption.
  - pose proof (finalCode_of_generateTAC ast tacLines finalCode Htac Hfin) as Hmov.
    destruct finalCode; [discriminate Hmov | discriminate].
Qed.

Lemma X20_witness :
  (forall ast, semanticAnalysis ast <> "")
  /\ compile (JsString "7")
     = Some (mkResponse 200
               (PhaseResults "NUMBER   7" "7" (semanticAnalysis (Number "7"))
                  "result = 7" "MOV result, 7"))
  /\ "NUMBER   7" <> "" /\ "7" <> "" /\ semanticAnalysis (Number "7") <> ""
  /\ "result = 7" <> "" /\ "MOV result, 7" <> "".
Proof.
  split; [intros ast; discriminate|]. split; [reflexivity|].
  apply (X20_no_field_of_a_success_is_empty printTree semanticAnalysis (JsString "7")).
  - intros ast. discriminate.
  - reflexivity.
Defined.

(** ** The tree printers *)

Lemma countNewlines_app (a b : string) :
  countNewlines (a ++ b) = countNewlines a + countNewlines b.
Proof.
  induction a as [|c a IH]; cbn [String.append countNewlines]; [reflexivity|].
  rewrite IH. lia.
Qed.

Lemma countNewlines_nl : countNewlines nl = 1.
Proof. reflexivity. Qed.

Ltac count_literals :=
  repeat match goal with
         | |- context [countNewlines ?s] =>
             let n := eval vm_compute in (countNewlines s) in
             change (countNewlines s) with n
         end.

Lemma printTreeFrom_lines (node : Node) :
  forall prefix isLeft isRoot,
    countNewlines prefix = 0 ->
    singleLineTexts node = true ->
    countNewlines (printTreeFrom node prefix isLeft isRoot) = size node.
Proof.
  induction node as [v | n | op l IHl r IHr | op e IHe];
    intros prefix isLeft isRoot Hp Hs; cbn [printTreeFrom size singleLineTexts] in *.
  - apply Nat.eqb_eq in Hs. rewrite !countNewlines_app, Hp, Hs, countNewlines_nl.
    destruct isRoot, isLeft; reflexivity.
  - apply Nat.eqb_eq in Hs. rewrite !countNewlines_app, Hp, Hs, countNewlines_nl.
    destruct isRoot, isLeft; reflexivity.
  - apply andb_true_iff in Hs. destruct Hs as [Hs Hr].
    apply andb_true_iff in Hs. destruct Hs as [Hop Hl]. apply Nat.eqb_eq in Hop.
    assert (Hchild : countNewlines
                       (prefix ++ (if isRoot then "" else if isLeft then "│   " else "    "))
                     = 0).
    { rewrite countNewlines_app, Hp. destruct isRoot, isLeft; reflexivity. }
    rewrite !countNewlines_app, Hp, Hop.
    rewrite (IHl _ true false Hchild Hl), (IHr _ false false Hchild Hr).
    rewrite countNewlines_nl. destruct isRoot, isLeft; count_literals; lia.
  - apply andb_true_iff in Hs. destruct Hs as [Hop He]. apply Nat.eqb_eq in Hop.
    assert (Hchild : countNewlines
                       (prefix ++ (if isRoot then "" else if isLeft then "│   " else "    "))
                     = 0).
    { rewrite countNewlines_app, Hp. destruct isRoot, isLeft; reflexivity. }
    rewrite !countNewlines_app, Hp, Hop.
    rewrite (IHe _ false false Hchild He).
    rewrite countNewlines_nl. destruct isRoot, isLeft; count_literals; lia.
Qed.

Lemma indentation_lines (indent : nat) : countNewlines (Variant.indentation indent) = 0.
Proof. induction indent as [|k IH]; cbn; [reflexivity | exact IH]. Qed.

Lemma printTreeAt_lines (node : Node) :
  forall indent,
    singleLineTexts node = true ->
    countNewlines (Variant.printTreeAt node indent) = size node.
Proof.
  induction node as [v | n | op l IHl r IHr | op e IHe];
    intros indent Hs; cbn [Variant.printTreeAt size singleLineTexts] in *.
  - apply Nat.eqb_eq in Hs.
    rewrite !countNewlines_app, indentation_lines, Hs, countNewlines_nl. reflexivity.
  - apply Nat.eqb_eq in Hs.
    rewrite !countNewlines_app, indentation_lines, Hs, countNewlines_nl. reflexivity.
  - apply andb_true_iff in Hs. destruct Hs as [Hs Hr].
    apply andb_true_iff in Hs. destruct Hs as [Hop Hl]. apply Nat.eqb_eq in Hop.
    rewrite !countNewlines_app, indentation_lines, Hop, (IHl _ Hl), (IHr _ Hr).
    rewrite countNewlines_nl. count_literals. lia.
  - apply andb_true_iff in Hs. destruct Hs as [Hop He]. apply Nat.eqb_eq in Hop.
    rewrite !countNewlines_app, indentation_lines, Hop, (IHe _ He).
    rewrite countNewlines_nl. count_literals. lia.
Qed.

(** X21. Both tree printers write one line for each node of the tree, so
    as many lines as the [AST Nodes] count of the semantic report, provided
    no text of the tree holds a line end. *)
Theorem X21_printers_write_one_line_per_node (ast : Node) :
  singleLineTexts ast = true ->
  countNewlines (printTree ast) = Semantic.nodeCount (Semantic.walk ast Semantic.empty)
  /\ countNewlines (Variant.printTree ast)
     = Semantic.nodeCount (Semantic.walk ast Semantic.empty).
Proof.
  intros Hs. destruct (walk_accumulates ast Semantic.empty) as (Hn & _).
  rewrite Hn. cbn [Semantic.empty Semantic.nodeCount Nat.add].
  split.
  - exact (printTreeFrom_lines ast "" true true eq_refl Hs).
  - exact (printTreeAt_lines ast 0 Hs).
Qed.

Lemma X21_witness :
  singleLineTexts (BinaryOp "+" (VariableRef "x") (UnaryOp "-" (Number "2"))) = true
  /\ countNewlines (printTree (BinaryOp "+" (VariableRef "x") (UnaryOp "-" (Number "2"))))
     = 4
  /\ countNewlines
       (Variant.printTree (BinaryOp "+" (VariableRef "x") (UnaryOp "-" (Number "2"))))
     = 4.
Proof.
  split; [reflexivity|].
  exact (X21_printers_write_one_line_per_node
           (BinaryOp "+" (VariableRef "x") (UnaryOp "-" (Number "2"))) eq_refl).
Defined.

(** ** The leaves of the tree are the operands of the source *)

Lemma firstn_plus {A : Type} (n m : nat) (l : list A) :
  firstn (n + m) l = (firstn n l ++ firstn m (skipn n l))%list.
Proof.
  revert l. induction n as [|n IH]; intros l; [reflexivity|].
  destruct l as [|x l]; cbn [Nat.add firstn skipn app].
  - rewrite firstn_nil. reflexivity.
  - rewrite IH. reflexivity.
Qed.

Lemma between_split (tokens : list Token) (a b c : nat) :
  a <= b -> b <= c ->
  between tokens a c = (between tokens a b ++ between tokens b c)%list.
Proof.
  intros Hab Hbc. unfold between.
  replace (c - a) with ((b - a) + (c - b)) by lia.
  rewrite firstn_plus, skipn_skipn. repeat f_equal. lia.
Qed.

Lemma operandsBetween_split (tokens : list Token) (a b c : nat) :
  a <= b -> b <= c ->
  operandsBetween tokens a c
  = (operandsBetween tokens a b ++ operandsBetween tokens b c)%list.
Proof.
  intros Hab Hbc. unfold operandsBetween.
  rewrite (between_split tokens a b c Hab Hbc). apply filter_app.
Qed.

Lemma between_one (tokens : list Token) (pos : nat) (tok : Token) :
  Parser.peek tokens pos = Some tok -> between tokens pos (S pos) = [tok].
Proof.
  unfold Parser.peek, between. intros H.
  replace (S pos - pos) with 1 by lia.
  rewrite <- hd_error_skipn in H.
  destruct (skipn pos tokens) as [|x rest]; [discriminate|].
  injection H as ->. reflexivity.
Qed.

Lemma operandsBetween_one (tokens : list Token) (pos : nat) (tok : Token) :
  Parser.peek tokens pos = Some tok ->
  operandsBetween tokens pos (S pos) = if isOperandToken tok then [tok] else [].
Proof.
  intros H. unfold operandsBetween. rewrite (between_one tokens pos tok H). reflexivity.
Qed.

Lemma operandsBetween_self (tokens : list Token) (pos : nat) :
  operandsBetween tokens pos pos = [].
Proof. unfold operandsBetween, between. rewrite Nat.sub_diag. reflexivity. Qed.

Lemma number_token (tok : Token) :
  String.eqb (type tok) "NUMBER" = true -> mkToken "NUMBER" (value tok) = tok.
Proof. destruct tok as [ty v]. cbn. intros H. apply String.eqb_eq in H. congruence. Qed.

Lemma ident_token (tok : Token) :
  String.eqb (type tok) "IDENT" = true -> mkToken "IDENT" (value tok) = tok.
Proof. destruct tok as [ty v]. cbn. intros H. apply String.eqb_eq in H. congruence. Qed.

(** In a well-formed token an operator text comes with the type
    [OPERATOR]. *)
Lemma operator_text_is_no_operand (tok : Token) :
  wellFormedToken tok = true ->
  Parser.isAdditive (value tok) || Parser.isMultiplicative (value tok) = true ->
  isOperandToken tok = false.
Proof.
  destruct tok as [ty v]. unfold isOperandToken, wellFormedToken,
    Parser.isAdditive, Parser.isMultiplicative. cbn [type value].
  intros Hwf Hop.
  assert (Hv : In v ["+"; "-"; "*"; "/"]).
  { cbn [In]. repeat (apply orb_true_iff in Hop; destruct Hop as [Hop | Hop]);
      apply String.eqb_eq in Hop; auto. }
  cbn [In] in Hv.
  destruct (String.eqb ty "NUMBER").
  { exfalso. destruct Hv as [<- | [<- | [<- | [<- | []]]]];
      vm_compute in Hwf; discriminate Hwf. }
  destruct (String.eqb ty "IDENT"); [|reflexivity].
  exfalso. destruct Hv as [<- | [<- | [<- | [<- | []]]]];
    vm_compute in Hwf; discriminate Hwf.
Qed.

Section Leaves.

Variable tokens : list Token.
Hypothesis tokens_wf : forallb wellFormedToken tokens = true.

Ltac bind_leaf H r :=
  match type of H with
  | bind ?c _ = Ok _ =>
      destruct c as [r| |] eqn:?; cbn [bind] in H; [|discriminate H|discriminate H]
  end.

Lemma peek_wellFormed (pos : nat) (tok : Token) :
  Parser.peek tokens pos = Some tok -> wellFormedToken tok = true.
Proof.
  unfold Parser.peek. intros H. apply nth_error_In in H.
  rewrite forallb_forall in tokens_wf. exact (tokens_wf tok H).
Qed.

Lemma parser_leaves (fuel : nat) :
  (forall pos node pos',
      Parser.parseFactor tokens fuel pos = Ok (node, pos') ->
      leafTokens node = operandsBetween tokens pos pos')
  /\ (forall pos node pos',
        Parser.parseTerm tokens fuel pos = Ok (node, pos') ->
        leafTokens node = operandsBetween tokens pos pos')
  /\ (forall pos node pos',
        Parser.parseExpression tokens fuel pos = Ok (node, pos') ->
        leafTokens node = operandsBetween tokens pos pos')
  /\ (forall node0 pos node pos',
        Parser.parseTermLoop tokens fuel node0 pos = Ok (node, pos') ->
        leafTokens node = (leafTokens node0 ++ operandsBetween tokens pos pos')%list)
  /\ (forall node0 pos node pos',
        Parser.parseExpressionLoop tokens fuel node0 pos = Ok (node, pos') ->
        leafTokens node = (leafTokens node0 ++ operandsBetween tokens pos pos')%list).
Proof.
  induction fuel as [|f (IHF & IHT & IHE & IHTL & IHEL)].
  - repeat split; intros; discriminate.
  - destruct (parser_progress tokens f) as (PF & PT & PE & PTL & PEL).
    repeat apply conj.
    + intros pos node pos' H. rewrite parseFactor_S in H.
      destruct (Parser.peek tokens pos) as [tok|] eqn:Hpeek; [|discriminate].
      pose proof (operandsBetween_one tokens pos tok Hpeek) as Hone.
      unfold isOperandToken in Hone.
      destruct (String.eqb (type tok) "NUMBER") eqn:Hnum.
      { injection H as <- <-. cbn [leafTokens]. rewrite Hone.
        rewrite (number_token tok Hnum). reflexivity. }
      destruct (String.eqb (type tok) "IDENT") eqn:Hid.
      { injection H as <- <-. cbn [leafTokens]. rewrite Hone.
        rewrite (ident_token tok Hid). reflexivity. }
      cbn [orb] in Hone.
      destruct (String.eqb (value tok) "(").
      * bind_leaf H r. destruct r as [n1 p1]. cbn [fst snd] in H.
        bind_leaf H e. destruct e as [t p2]. cbn [fst snd] in H. injection H as <- <-.
        match goal with
        | He : Parser.eat _ _ _ _ = Ok _ |- _ =>
            apply eat_Ok_token in He; destruct He as (Hp & -> & Hty & _)
        end.
        match goal with
        | Hp1 : Parser.parseExpression _ _ _ = Ok _ |- _ =>
            pose proof (PE _ _ _ Hp1) as Hlt; apply IHE in Hp1; rewrite Hp1
        end.
        rewrite (operandsBetween_split tokens pos (S pos) (S p1)) by lia.
        rewrite (operandsBetween_split tokens (S pos) p1 (S p1)) by lia.
        rewrite Hone, (operandsBetween_one tokens p1 t Hp).
        unfold isOperandToken. rewrite Hty. cbn. rewrite app_nil_r. reflexivity.
      * destruct (String.eqb (value tok) "-"); [|discriminate].
        bind_leaf H r. destruct r as [n1 p1]. cbn [fst snd] in H. injection H as <- <-.
        match goal with
        | Hp1 : Parser.parseFactor _ _ _ = Ok _ |- _ =>
            pose proof (PF _ _ _ Hp1) as Hlt; apply IHF in Hp1
        end.
        cbn [leafTokens].
        rewrite (operandsBetween_split tokens pos (S pos) p1) by lia.
        rewrite Hone. assumption.
    + intros pos node pos' H. rewrite parseTerm_S in H.
      bind_leaf H r. destruct r as [n1 p1]. cbn [fst snd] in H.
      match goal with
      | Hp1 : Parser.parseFactor _ _ _ = Ok _ |- _ =>
          pose proof (PF _ _ _ Hp1) as Hlt; apply IHF in Hp1
      end.
      pose proof (PTL _ _ _ _ H) as Hle. apply IHTL in H.
      rewrite (operandsBetween_split tokens pos p1 pos') by lia. congruence.
    + intros pos node pos' H. rewrite parseExpression_S in H.
      bind_leaf H r. destruct r as [n1 p1]. cbn [fst snd] in H.
      match goal with
      | Hp1 : Parser.parseTerm _ _ _ = Ok _ |- _ =>
          pose proof (PT _ _ _ Hp1) as Hlt; apply IHT in Hp1
      end.
      pose proof (PEL _ _ _ _ H) as Hle. apply IHEL in H.
      rewrite (operandsBetween_split tokens pos p1 pos') by lia. congruence.
    + intros node0 pos node pos' H. rewrite parseTermLoop_S in H.
      destruct (Parser.peek tokens pos) as [tok|] eqn:Hpeek;
        [|injection H as <- <-; rewrite operandsBetween_self, app_nil_r; reflexivity].
      destruct (Parser.isMultiplicative (value tok)) eqn:Hop;
        [|injection H as <- <-; rewrite operandsBetween_self, app_nil_r; reflexivity].
      bind_leaf H r. destruct r as [n1 p1]. cbn [fst snd] in H.
      match goal with
      | Hp1 : Parser.parseFactor _ _ _ = Ok _ |- _ =>
          pose proof (PF _ _ _ Hp1) as Hlt; apply IHF in Hp1
      end.
      pose proof (PTL _ _ _ _ H) as Hle. apply IHTL in H. rewrite H.
      cbn [leafTokens].
      rewrite (operandsBetween_split tokens pos (S pos) pos') by lia.
      rewrite (operandsBetween_split tokens (S pos) p1 pos') by lia.
      rewrite (operandsBetween_one tokens pos tok Hpeek).
      rewrite (operator_text_is_no_operand tok (peek_wellFormed pos tok Hpeek))
        by (rewrite Hop; apply orb_true_r).
      cbn [app]. rewrite <- app_assoc. congruence.
    + intros node0 pos node pos' H. rewrite parseExpressionLoop_S in H.
      destruct (Parser.peek tokens pos) as [tok|] eqn:Hpeek;
        [|injection H as <- <-; rewrite operandsBetween_self, app_nil_r; reflexivity].
      destruct (Parser.isAdditive (value tok)) eqn:Hop;
        [|injection H as <- <-; rewrite operandsBetween_self, app_nil_r; reflexivity].
      bind_leaf H r. destruct r as [n1 p1]. cbn [fst snd] in H.
      match goal with
      | Hp1 : Parser.parseTerm _ _ _ = Ok _ |- _ =>
          pose proof (PT _ _ _ Hp1) as Hlt; apply IHT in Hp1
      end.
      pose proof (PEL _ _ _ _ H) as Hle. apply IHEL in H. rewrite H.
      cbn [leafTokens].
      rewrite (operandsBetween_split tokens pos (S pos) pos') by lia.
      rewrite (operandsBetween_split tokens (S pos) p1 pos') by lia.
      rewrite (operandsBetween_one tokens pos tok Hpeek).
      rewrite (operator_text_is_no_operand tok (peek_wellFormed pos tok Hpeek))
        by (rewrite Hop; reflexivity).
      cbn [app]. rewrite <- app_assoc. congruence.
Qed.

End Leaves.

Lemma between_all (tokens : list Token) :
  between tokens 0 (List.length tokens) = tokens.
Proof.
  unfold between. rewrite Nat.sub_0_r, skipn_0. apply firstn_all.
Qed.

(** X22. The leaves of the tree of an expression, read from left to right,
    are exactly its number and identifier tokens in source order: parsing
    neither drops, repeats, reorders nor invents an operand. *)
Theorem X22_leaves_are_the_operands_in_source_order
        (input : string) (tokens : list Token) (ast : Node) :
  Lexer.tokenize input = Ok tokens ->
  parse tokens = Ok ast ->
  leafTokens ast = filter isOperandToken tokens.
Proof.
  intros Htok Hparse.
  assert (Hwf : forallb wellFormedToken tokens = true).
  { unfold Lexer.tokenize in Htok.
    exact (tokenizeLoop_wellFormed _ _ _ [] _ eq_refl Htok). }
  apply parse_Ok_inv in Hparse.
  destruct (parser_leaves tokens Hwf (Parser.enough tokens)) as (_ & _ & HE & _ & _).
  rewrite (HE _ _ _ Hparse). unfold operandsBetween. rewrite between_all. reflexivity.
Qed.

Lemma X22_witness :
  Lexer.tokenize "(a+2)*-b"
  = Ok [mkToken "OPERATOR" "("; mkToken "IDENT" "a"; mkToken "OPERATOR" "+";
        mkToken "NUMBER" "2"; mkToken "OPERATOR" ")"; mkToken "OPERATOR" "*";
        mkToken "OPERATOR" "-"; mkToken "IDENT" "b"]
  /\ parse [mkToken "OPERATOR" "("; mkToken "IDENT" "a"; mkToken "OPERATOR" "+";
            mkToken "NUMBER" "2"; mkToken "OPERATOR" ")"; mkToken "OPERATOR" "*";
            mkToken "OPERATOR" "-"; mkToken "IDENT" "b"]
     = Ok (BinaryOp "*" (BinaryOp "+" (VariableRef "a") (Number "2"))
                        (UnaryOp "-" (VariableRef "b")))
  /\ leafTokens (BinaryOp "*" (BinaryOp "+" (VariableRef "a") (Number "2"))
                              (UnaryOp "-" (VariableRef "b")))
     = [mkToken "IDENT" "a"; mkToken "NUMBER" "2"; mkToken "IDENT" "b"].
Proof.
  split; [reflexivity|]. split; [reflexivity|].
  exact (X22_leaves_are_the_operands_in_source_order "(a+2)*-b" _ _ eq_refl eq_refl).
Defined.

(** ** Parentheses leave the tree as it is *)

Section FuelMonotone.

Variable tokens : list Token.

Ltac bind_mono H r :=
  match type of H with
  | bind ?c _ = Ok _ =>
      destruct c as [r| |] eqn:?; cbn [bind] in H; [|discriminate H|discriminate H]
  end.

(** A run that returned keeps its result when given more fuel. *)
Lemma parser_fuel_monotone (f : nat) :
  forall f', f <= f' ->
    (forall pos r, Parser.parseFactor tokens f pos = Ok r ->
                   Parser.parseFactor tokens f' pos = Ok r)
    /\ (forall pos r, Parser.parseTerm tokens f pos = Ok r ->
                      Parser.parseTerm tokens f' pos = Ok r)
    /\ (forall pos r, Parser.parseExpression tokens f pos = Ok r ->
                      Parser.parseExpression tokens f' pos = Ok r)
    /\ (forall node pos r, Parser.parseTermLoop tokens f node pos = Ok r ->
                           Parser.parseTermLoop tokens f' node pos = Ok r)
    /\ (forall node pos r, Parser.parseExpressionLoop tokens f node pos = Ok r ->
                           Parser.parseExpressionLoop tokens f' node pos = Ok r).
Proof.
  induction f as [|f IH]; intros f' Hle.
  - repeat split; intros; discriminate.
  - destruct f' as [|f']; [lia|].
    destruct (IH f' ltac:(lia)) as (MF & MT & ME & MTL & MEL).
    repeat apply conj.
    + intros pos r H. rewrite parseFactor_S in H |- *.
      destruct (Parser.peek tokens pos) as [tok|]; [|discriminate].
      destruct (String.eqb (type tok) "NUMBER"); [exact H|].
      destruct (String.eqb (type tok) "IDENT"); [exact H|].
      destruct (String.eqb (value tok) "(").
      * bind_mono H r1.
        match goal with
        | Hp : Parser.parseExpression _ _ _ = Ok _ |- _ => rewrite (ME _ _ Hp)
        end.
        exact H.
      * destruct (String.eqb (value tok) "-"); [|discriminate].
        bind_mono H r1.
        match goal with
        | Hp : Parser.parseFactor _ _ _ = Ok _ |- _ => rewrite (MF _ _ Hp)
        end.
        exact H.
    + intros pos r H. rewrite parseTerm_S in H |- *.
      bind_mono H r1.
      match goal with
      | Hp : Parser.parseFactor _ _ _ = Ok _ |- _ => rewrite (MF _ _ Hp)
      end.
      cbn [bind]. exact (MTL _ _ _ H).
    + intros pos r H. rewrite parseExpression_S in H |- *.
      bind_mono H r1.
      match goal with
      | Hp : Parser.parseTerm _ _ _ = Ok _ |- _ => rewrite (MT _ _ Hp)
      end.
      cbn [bind]. exact (MEL _ _ _ H).
    + intros node pos r H. rewrite parseTermLoop_S in H |- *.
      destruct (Parser.peek tokens pos) as [tok|]; [|exact H].
      destruct (Parser.isMultiplicative (value tok)); [|exact H].
      bind_mono H r1.
      match goal with
      | Hp : Parser.parseFactor _ _ _ = Ok _ |- _ => rewrite (MF _ _ Hp)
      end.
      cbn [bind]. exact (MTL _ _ _ H).
    + intros node pos r H. rewrite parseExpressionLoop_S in H |- *.
      destruct (Parser.peek tokens pos) as [tok|]; [|exact H].
      destruct (Parser.isAdditive (value tok)); [|exact H].
      bind_mono H r1.
      match goal with
      | Hp : Parser.parseTerm _ _ _ = Ok _ |- _ => rewrite (MT _ _ Hp)
      end.
      cbn [bind]. exact (MEL _ _ _ H).
Qed.

End FuelMonotone.

Section Relocation.

(** The tokens [inner] stand inside a longer sequence, after [before] and
    in front of [after], whose first token, if any, stops the loops. *)
Variables before inner after : list Token.

Hypothesis after_stops :
  match after with [] => True | t :: _ => stopsLoops t = true end.

Let whole : list Token := (before ++ inner ++ after)%list.
Let d : nat := List.length before.

Ltac bind_reloc H r :=
  match type of H with
  | bind ?c _ = Ok _ =>
      destruct c as [r| |] eqn:?; cbn [bind] in H; [|discriminate H|discriminate H]
  end.

Lemma peek_inner (pos : nat) (tok : Token) :
  Parser.peek inner pos = Some tok -> Parser.peek whole (d + pos) = Some tok.
Proof.
  unfold Parser.peek, whole, d. intros H.
  rewrite nth_error_app2 by lia.
  replace (List.length before + pos - List.length before) with pos by lia.
  rewrite nth_error_app1; [exact H|].
  apply nth_error_Some. rewrite H. discriminate.
Qed.

Lemma peek_after (pos : nat) :
  pos <= List.length inner ->
  Parser.peek inner pos = None ->
  match Parser.peek whole (d + pos) with
  | None => True
  | Some t => stopsLoops t = true
  end.
Proof.
  unfold Parser.peek, whole, d. intros Hle H.
  apply nth_error_None in H. assert (pos = List.length inner) by lia. subst pos.
  rewrite nth_error_app2 by lia.
  replace (List.length before + List.length inner - List.length before)
    with (List.length inner) by lia.
  rewrite nth_error_app2 by lia. rewrite Nat.sub_diag.
  destruct after as [|t rest]; [exact I | exact after_stops].
Qed.

Lemma parser_relocates (f : nat) :
  (forall pos node pos',
      Parser.parseFactor inner f pos = Ok (node, pos') ->
      Parser.parseFactor whole f (d + pos) = Ok (node, d + pos'))
  /\ (forall pos node pos',
        Parser.parseTerm inner f pos = Ok (node, pos') ->
        Parser.parseTerm whole f (d + pos) = Ok (node, d + pos'))
  /\ (forall pos node pos',
        Parser.parseExpression inner f pos = Ok (node, pos') ->
        Parser.parseExpression whole f (d + pos) = Ok (node, d + pos'))
  /\ (forall node0 pos node pos',
        pos <= List.length inner ->
        Parser.parseTermLoop inner f node0 pos = Ok (node, pos') ->
        Parser.parseTermLoop whole f node0 (d + pos) = Ok (node, d + pos'))
  /\ (forall node0 pos node pos',
        pos <= List.length inner ->
        Parser.parseExpressionLoop inner f node0 pos = Ok (node, pos') ->
        Parser.parseExpressionLoop whole f node0 (d + pos) = Ok (node, d + pos')).
Proof.
  induction f as [|f (IHF & IHT & IHE & IHTL & IHEL)].
  - repeat split; intros; discriminate.
  - destruct (parser_progress inner f) as (PF & PT & PE & _ & _).
    repeat apply conj.
    + intros pos node pos' H. rewrite parseFactor_S in H |- *.
      destruct (Parser.peek inner pos) as [tok|] eqn:Hpeek; [|discriminate].
      rewrite (peek_inner pos tok Hpeek). rewrite <- !Nat.add_succ_r.
      destruct (String.eqb (type tok) "NUMBER"); [injection H as <- <-; reflexivity|].
      destruct (String.eqb (type tok) "IDENT"); [injection H as <- <-; reflexivity|].
      destruct (String.eqb (value tok) "(").
      * bind_reloc H r. destruct r as [n1 p1]. cbn [fst snd] in H.
        bind_reloc H e. destruct e as [t p2]. cbn [fst snd] in H. injection H as <- <-.
        match goal with
        | Hp : Parser.parseExpression _ _ _ = Ok _ |- _ => rewrite (IHE _ _ _ Hp)
        end.
        cbn [bind fst snd].
        match goal with
        | He : Parser.eat _ _ _ _ = Ok _ |- _ =>
            apply eat_Ok_token in He; destruct He as (Hp & -> & Hty & Hval)
        end.
        unfold Parser.eat. rewrite (peek_inner p1 t Hp).
        rewrite Hty, (Hval eq_refl). cbn [bind fst snd].
        unfold Parser.consume. rewrite Nat.add_succ_r. reflexivity.
      * destruct (String.eqb (value tok) "-"); [|discriminate].
        bind_reloc H r. destruct r as [n1 p1]. cbn [fst snd] in H. injection H as <- <-.
        match goal with
        | Hp : Parser.parseFactor _ _ _ = Ok _ |- _ => rewrite (IHF _ _ _ Hp)
        end.
        reflexivity.
    + intros pos node pos' H. rewrite parseTerm_S in H |- *.
      bind_reloc H r. destruct r as [n1 p1]. cbn [fst snd] in H.
      match goal with
      | Hp : Parser.parseFactor _ _ _ = Ok _ |- _ =>
          pose proof (PF _ _ _ Hp) as Hlt; rewrite (IHF _ _ _ Hp)
      end.
      cbn [bind fst snd]. apply IHTL; [lia | exact H].
    + intros pos node pos' H. rewrite parseExpression_S in H |- *.
      bind_reloc H r. destruct r as [n1 p1]. cbn [fst snd] in H.
      match goal with
      | Hp : Parser.parseTerm _ _ _ = Ok _ |- _ =>
          pose proof (PT _ _ _ Hp) as Hlt; rewrite (IHT _ _ _ Hp)
      end.
      cbn [bind fst snd]. apply IHEL; [lia | exact H].
    + intros node0 pos node pos' Hle H. rewrite parseTermLoop_S in H |- *.
      destruct (Parser.peek inner pos) as [tok|] eqn:Hpeek.
      * rewrite (peek_inner pos tok Hpeek). rewrite <- !Nat.add_succ_r.
        destruct (Parser.isMultiplicative (value tok)); [|injection H as <- <-; reflexivity].
        bind_reloc H r. destruct r as [n1 p1]. cbn [fst snd] in H.
        match goal with
        | Hp : Parser.parseFactor _ _ _ = Ok _ |- _ =>
            pose proof (PF _ _ _ Hp) as Hlt; rewrite (IHF _ _ _ Hp)
        end.
        cbn [bind fst snd]. apply IHTL; [lia | exact H].
      * injection H as <- <-. pose proof (peek_after pos Hle Hpeek) as Hstop.
        destruct (Parser.peek whole (d + pos)) as [t|]; [|reflexivity].
        unfold stopsLoops in Hstop. apply andb_true_iff in Hstop.
        destruct Hstop as [_ Hm]. apply negb_true_iff in Hm. rewrite Hm. reflexivity.
    + intros node0 pos node pos' Hle H. rewrite parseExpressionLoop_S in H |- *.
      destruct (Parser.peek inner pos) as [tok|] eqn:Hpeek.
      * rewrite (peek_inner pos tok Hpeek). rewrite <- !Nat.add_succ_r.
        destruct (Parser.isAdditive (value tok)); [|injection H as <- <-; reflexivity].
        bind_reloc H r. destruct r as [n1 p1]. cbn [fst snd] in H.
        match goal with
        | Hp : Parser.parseTerm _ _ _ = Ok _ |- _ =>
            pose proof (PT _ _ _ Hp) as Hlt; rewrite (IHT _ _ _ Hp)
        end.
        cbn [bind fst snd]. apply IHEL; [lia | exact H].
      * injection H as <- <-. pose proof (peek_after pos Hle Hpeek) as Hstop.
        destruct (Parser.peek whole (d + pos)) as [t|]; [|reflexivity].
        unfold stopsLoops in Hstop. apply andb_true_iff in Hstop.
        destruct Hstop as [Ha _]. apply negb_true_iff in Ha. rewrite Ha. reflexivity.
Qed.

End Relocation.

Lemma parseFactor_parenthesis (tokens : list Token) (f pos : nat) :
  Parser.peek tokens pos = Some (mkToken "OPERATOR" "(") ->
  Parser.parseFactor tokens (S f) pos
  = bind (Parser.parseExpression tokens f (S pos))
         (fun r => bind (Parser.eat tokens "OPERATOR" ")" (snd r))
                        (fun e => Ok (fst r, snd e))).
Proof. intros H. rewrite parseFactor_S, H. reflexivity. Qed.

Lemma eat_closing (tokens : list Token) (pos : nat) :
  Parser.peek tokens pos = Some (mkToken "OPERATOR" ")") ->
  Parser.eat tokens "OPERATOR" ")" pos = Ok (mkToken "OPERATOR" ")", S pos).
Proof. intros H. unfold Parser.eat. rewrite H. reflexivity. Qed.

Lemma parse_parenthesised (tokens : list Token) (ast : Node) :
  parse tokens = Ok ast ->
  parse (mkToken "OPERATOR" "(" :: tokens ++ [mkToken "OPERATOR" ")"]) = Ok ast.
Proof.
  intros H. apply parse_Ok_inv in H.
  set (whole := mkToken "OPERATOR" "(" :: tokens ++ [mkToken "OPERATOR" ")"]).
  assert (Hlen : List.length whole = S (S (List.length tokens))).
  { subst whole. cbn [List.length]. rewrite length_app. cbn. lia. }
  assert (Hinner :
            Parser.parseExpression whole (Parser.enough tokens + 3) 1
            = Ok (ast, S (List.length tokens))).
  { destruct (parser_relocates [mkToken "OPERATOR" "("] tokens [mkToken "OPERATOR" ")"]
                eq_refl (Parser.enough tokens)) as (_ & _ & RE & _ & _).
    apply RE in H.
    destruct (parser_fuel_monotone whole (Parser.enough tokens)
                (Parser.enough tokens + 3) ltac:(lia)) as (_ & _ & ME & _ & _).
    exact (ME _ _ H). }
  assert (Hclose : Parser.peek whole (S (List.length tokens))
                   = Some (mkToken "OPERATOR" ")")).
  { subst whole. unfold Parser.peek. cbn [nth_error].
    rewrite nth_error_app2 by lia. rewrite Nat.sub_diag. reflexivity. }
  assert (Hend : Parser.peek whole (S (S (List.length tokens))) = None).
  { unfold Parser.peek. apply nth_error_None. lia. }
  unfold parse, Parser.enough at 1. rewrite Hlen.
  replace (3 * S (S (List.length tokens)) + 3)
    with (S (S (S (Parser.enough tokens + 3)))) by (unfold Parser.enough; lia).
  rewrite parseExpression_S, parseTerm_S.
  rewrite (parseFactor_parenthesis whole _ 0 eq_refl).
  rewrite Hinner. cbn [bind fst snd].
  rewrite (eat_closing whole _ Hclose). cbn [bind fst snd].
  replace (Parser.enough tokens + 3) with (S (Parser.enough tokens + 2)) by lia.
  rewrite parseTermLoop_S, Hend. cbn [bind fst snd].
  rewrite parseExpressionLoop_S, Hend. cbn [bind].
  rewrite Nat.eqb_refl. reflexivity.
Qed.

(** X23. Wrapping a token sequence that parses in a pair of parentheses
    gives the same tree: grouping parentheses leave no node behind. *)
Theorem X23_parentheses_leave_the_tree_as_it_is (tokens : list Token) (ast : Node) :
  parse tokens = Ok ast ->
  parse (mkToken "OPERATOR" "(" :: tokens ++ [mkToken "OPERATOR" ")"]) = Ok ast.
Proof. exact (parse_parenthesised tokens ast). Qed.

Lemma X23_witness :
  parse [mkToken "NUMBER" "1"; mkToken "OPERATOR" "+"; mkToken "IDENT" "x"]
  = Ok (BinaryOp "+" (Number "1") (VariableRef "x"))
  /\ parse [mkToken "OPERATOR" "("; mkToken "NUMBER" "1"; mkToken "OPERATOR" "+";
            mkToken "IDENT" "x"; mkToken "OPERATOR" ")"]
     = Ok (BinaryOp "+" (Number "1") (VariableRef "x")).
Proof.
  split; [reflexivity|].
  exact (X23_parentheses_leave_the_tree_as_it_is
           [mkToken "NUMBER" "1"; mkToken "OPERATOR" "+"; mkToken "IDENT" "x"] _ eq_refl).
Defined.

(** ** Number literals at the edges *)

Lemma countDots_digits (s : string) :
  forallChars Js.isDigit s = true -> Lexer.countDots s = 0.
Proof.
  induction s as [|c r IH]; cbn [forallChars Lexer.countDots]; [reflexivity|].
  intros H. apply andb_true_iff in H. destruct H as [Hc Hr]. rewrite (IH Hr).
  assert (Hdot : Nat.eqb (Js.code c) 46 = false) by classes.
  rewrite Hdot. reflexivity.
Qed.

Lemma countDots_app (a b : string) :
  Lexer.countDots (a ++ b) = Lexer.countDots a + Lexer.countDots b.
Proof.
  induction a as [|c a IH]; cbn [String.append Lexer.countDots]; [reflexivity|].
  rewrite IH. lia.
Qed.

Lemma forallChars_app (p : ascii -> bool) (a b : string) :
  forallChars p (a ++ b) = forallChars p a && forallChars p b.
Proof.
  induction a as [|c a IH]; cbn [String.append forallChars]; [reflexivity|].
  rewrite IH. apply andb_assoc.
Qed.

Lemma digits_are_digits_or_dots (s : string) :
  forallChars Js.isDigit s = true -> forallChars Js.isDigitOrDot s = true.
Proof.
  induction s as [|c r IH]; cbn [forallChars]; [reflexivity|].
  intros H. apply andb_true_iff in H. destruct H as [Hc Hr].
  rewrite (digit_is_digit_or_dot c Hc), (IH Hr). reflexivity.
Qed.

(** X24. A dot at either end of a run of digits belongs to the number: a
    non-empty run of digits followed by a dot is one [NUMBER] token that
    keeps the dot, and so is a dot followed by a non-empty run of digits. *)
Theorem X24_dot_at_the_edge_of_a_number (digits : string) :
  forallChars Js.isDigit digits = true ->
  digits <> "" ->
  Lexer.tokenize (digits ++ ".") = Ok [mkToken "NUMBER" (digits ++ ".")]
  /\ Lexer.tokenize ("." ++ digits) = Ok [mkToken "NUMBER" ("." ++ digits)].
Proof.
  intros Hd Hne. destruct digits as [|c r]; [contradiction|].
  pose proof Hd as Hc. cbn [forallChars] in Hc. apply andb_true_iff in Hc.
  destruct Hc as [Hc Hr].
  assert (Hwf1 : wellFormedToken (mkToken "NUMBER" (String c r ++ ".")) = true).
  { unfold wellFormedToken. cbn [type value String.append].
    replace (String.eqb "NUMBER" "NUMBER") with true by reflexivity.
    rewrite Hc. cbn [orb andb].
    change (String c (r ++ ".")) with (String c r ++ ".").
    rewrite forallChars_app, (digits_are_digits_or_dots _ Hd). cbn [andb].
    rewrite countDots_app, (countDots_digits _ Hd). reflexivity. }
  assert (Hwf2 : wellFormedToken (mkToken "NUMBER" ("." ++ String c r)) = true).
  { unfold wellFormedToken. cbn [type value String.append].
    replace (String.eqb "NUMBER" "NUMBER") with true by reflexivity.
    cbn [Lexer.nextIsDigit]. rewrite Hc.
    replace (Js.isDigit "." || (Nat.eqb (Js.code ".") 46 && true)) with true
      by reflexivity.
    cbn [andb].
    change (String "." (String c r)) with ("." ++ String c r).
    rewrite forallChars_app, (digits_are_digits_or_dots _ Hd).
    rewrite countDots_app, (countDots_digits _ Hd). reflexivity. }
  split.
  - unfold Lexer.tokenize.
    pose proof (tokenizeLoop_word (mkToken "NUMBER" (String c r ++ ".")) ""
                  (String.length (String c r ++ ".")) 0 [] Hwf1 I) as Hstep.
    cbn [value] in Hstep. rewrite string_app_nil_r in Hstep. rewrite Hstep.
    cbn [String.append String.length]. reflexivity.
  - unfold Lexer.tokenize.
    pose proof (tokenizeLoop_word (mkToken "NUMBER" ("." ++ String c r)) ""
                  (String.length ("." ++ String c r)) 0 [] Hwf2 I) as Hstep.
    cbn [value] in Hstep. rewrite string_app_nil_r in Hstep. rewrite Hstep.
    cbn [String.append String.length]. reflexivity.
Qed.

Lemma X24_witness :
  forallChars Js.isDigit "12" = true /\ "12" <> ""
  /\ Lexer.tokenize "12." = Ok [mkToken "NUMBER" "12."]
  /\ Lexer.tokenize ".12" = Ok [mkToken "NUMBER" ".12"].
Proof.
  split; [reflexivity|]. split; [discriminate|].
  apply (X24_dot_at_the_edge_of_a_number "12"); [reflexivity | discriminate].
Defined.

(** X25. A run of digits and dots that starts as a number does and holds
    more than one dot stops the tokenizer with the multiple-dots error,
    whatever follows the run after a blank. *)
Theorem X25_more_than_one_dot_is_rejected (c : ascii) (run tail : string) :
  Js.isDigit c || (Nat.eqb (Js.code c) 46 && Lexer.nextIsDigit (String c run)) = true ->
  forallChars Js.isDigitOrDot (String c run) = true ->
  1 < Lexer.countDots (String c run) ->
  endsWord tail ->
  Lexer.tokenize (String c run ++ tail) = Throw "Invalid number format: multiple dots".
Proof.
  intros Hstart Hall Hdots Htail. unfold Lexer.tokenize.
  pose proof Hall as Hc. cbn [forallChars] in Hc. apply andb_true_iff in Hc.
  destruct Hc as [Hc _].
  cbn [Lexer.tokenizeLoop String.append].
  rewrite (skipWhitespace_at_word c (run ++ tail) 0 (digit_or_dot_not_space c Hc)).
  rewrite (number_start_app c run tail Hstart).
  change (String c (run ++ tail)) with (String c run ++ tail).
  rewrite (scan_word Js.isDigitOrDot (String c run) tail 0 Hall
             (endsWord_stops _ tail space_not_digit_or_dot Htail)).
  apply Nat.ltb_lt in Hdots. rewrite Hdots. reflexivity.
Qed.

Lemma X25_witness :
  Lexer.tokenize "1.2.3 + x" = Throw "Invalid number format: multiple dots".
Proof.
  apply (X25_more_than_one_dot_is_rejected "1" ".2.3" " + x");
    [reflexivity | reflexivity | apply Nat.ltb_lt; reflexivity | reflexivity].
Defined.

(** * Left associativity in general *)

(** ** A run that returned or threw does the same with more fuel *)

Section FuelStable.

Variable tokens : list Token.

Ltac stable_bind H IHc :=
  match goal with
  | |- bind ?c' _ = bind ?c _ =>
      let E := fresh "E" in
      destruct c as [[? ?]| |] eqn:E;
      [ rewrite (IHc _ ltac:(rewrite E; discriminate)), E; cbn [bind fst snd] in H |- *
      | rewrite (IHc _ ltac:(rewrite E; discriminate)), E; reflexivity
      | exfalso; apply H; reflexivity ]
  end.

Lemma parser_fuel_stable (f : nat) :
  forall f', f <= f' ->
    (forall pos, Parser.parseFactor tokens f pos <> OutOfFuel ->
                 Parser.parseFactor tokens f' pos = Parser.parseFactor tokens f pos)
    /\ (forall pos, Parser.parseTerm tokens f pos <> OutOfFuel ->
                    Parser.parseTerm tokens f' pos = Parser.parseTerm tokens f pos)
    /\ (forall pos, Parser.parseExpression tokens f pos <> OutOfFuel ->
                    Parser.parseExpression tokens f' pos
                    = Parser.parseExpression tokens f pos)
    /\ (forall node pos, Parser.parseTermLoop tokens f node pos <> OutOfFuel ->
                         Parser.parseTermLoop tokens f' node pos
                         = Parser.parseTermLoop tokens f node pos)
    /\ (forall node pos, Parser.parseExpressionLoop tokens f node pos <> OutOfFuel ->
                         Parser.parseExpressionLoop tokens f' node pos
                         = Parser.parseExpressionLoop tokens f node pos).
Proof.
  induction f as [|f IH]; intros f' Hle.
  - repeat split; intros; exfalso; auto.
  - destruct f' as [|f']; [lia|].
    destruct (IH f' ltac:(lia)) as (SF & ST & SE & STL & SEL).
    repeat apply conj.
    + intros pos H. rewrite !parseFactor_S in *.
      destruct (Parser.peek tokens pos) as [tok|]; [|reflexivity].
      destruct (String.eqb (type tok) "NUMBER"); [reflexivity|].
      destruct (String.eqb (type tok) "IDENT"); [reflexivity|].
      destruct (String.eqb (value tok) "(").
      * stable_bind H SE. reflexivity.
      * destruct (String.eqb (value tok) "-"); [|reflexivity].
        stable_bind H SF. reflexivity.
    + intros pos H. rewrite !parseTerm_S in *.
      stable_bind H SF. apply STL. exact H.
    + intros pos H. rewrite !parseExpression_S in *.
      stable_bind H ST. apply SEL. exact H.
    + intros node pos H. rewrite !parseTermLoop_S in *.
      destruct (Parser.peek tokens pos) as [tok|]; [|reflexivity].
      destruct (Parser.isMultiplicative (value tok)); [|reflexivity].
      stable_bind H SF. apply STL. exact H.
    + intros node pos H. rewrite !parseExpressionLoop_S in *.
      destruct (Parser.peek tokens pos) as [tok|]; [|reflexivity].
      destruct (Parser.isAdditive (value tok)); [|reflexivity].
      stable_bind H ST. apply SEL. exact H.
Qed.

End FuelStable.

(** What [parseExpression] returns with some fuel it returns with the fuel
    of [parse]. *)
Lemma parse_of_some_fuel (tokens : list Token) (fuel : nat) (ast : Node) :
  Parser.parseExpression tokens fuel 0 = Ok (ast, List.length tokens) ->
  parse tokens = Ok ast.
Proof.
  intros H.
  set (big := Nat.max fuel (Parser.enough tokens)).
  destruct (parser_fuel_stable tokens fuel big ltac:(lia)) as (_ & _ & S1 & _).
  destruct (parser_fuel_stable tokens (Parser.enough tokens) big ltac:(lia))
    as (_ & _ & S2 & _).
  destruct (parser_fuel tokens (Parser.enough tokens) 0 (Nat.le_0_l _))
    as (_ & _ & HE & _ & _).
  assert (Hrun : Parser.parseExpression tokens (Parser.enough tokens) 0
                 = Ok (ast, List.length tokens)).
  { rewrite <- (S2 0).
    - rewrite (S1 0); [exact H | rewrite H; discriminate].
    - apply HE. unfold Parser.enough. lia. }
  unfold parse. rewrite Hrun. cbn [bind]. rewrite Nat.eqb_refl. reflexivity.
Qed.

(** ** A run inside a longer token sequence *)

Section Embedding.

(** The tokens [inner] stand inside a longer sequence, after [before] and
    in front of [after].  A run over [inner] is repeated over the whole
    sequence when it stopped before the end of [inner], or when the first
    token of [after] stops the loop as the end of the tokens does. *)
Variables before inner after : list Token.

Let whole : list Token := (before ++ inner ++ after)%list.
Let d : nat := List.length before.

Ltac bind_embed H r :=
  match type of H with
  | bind ?c _ = Ok _ =>
      destruct c as [r| |] eqn:?; cbn [bind] in H; [|discriminate H|discriminate H]
  end.

Lemma peek_embedded (pos : nat) (tok : Token) :
  Parser.peek inner pos = Some tok -> Parser.peek whole (d + pos) = Some tok.
Proof.
  unfold Parser.peek, whole, d. intros H.
  rewrite nth_error_app2 by lia.
  replace (List.length before + pos - List.length before) with pos by lia.
  rewrite nth_error_app1; [exact H|].
  apply nth_error_Some. rewrite H. discriminate.
Qed.

Lemma peek_behind (pos : nat) :
  pos <= List.length inner ->
  Parser.peek inner pos = None ->
  pos = List.length inner
  /\ Parser.peek whole (d + pos) = match after with [] => None | t :: _ => Some t end.
Proof.
  unfold Parser.peek, whole, d. intros Hle H.
  apply nth_error_None in H. assert (pos = List.length inner) by lia. subst pos.
  split; [reflexivity|].
  rewrite nth_error_app2 by lia.
  replace (List.length before + List.length inner - List.length before)
    with (List.length inner) by lia.
  rewrite nth_error_app2 by lia. rewrite Nat.sub_diag.
  destruct after; reflexivity.
Qed.

Lemma endsExpression_endsTerm : endsExpression after -> endsTerm after.
Proof.
  unfold endsExpression, endsTerm. destruct after as [|t rest]; [trivial|].
  unfold stopsLoops. intros H. apply andb_true_iff in H. destruct H as [_ H].
  apply negb_true_iff in H. exact H.
Qed.

Lemma parser_embeds (f : nat) :
  (forall pos node pos',
      Parser.parseFactor inner f pos = Ok (node, pos') ->
      Parser.parseFactor whole f (d + pos) = Ok (node, d + pos'))
  /\ (forall pos node pos',
        Parser.parseTerm inner f pos = Ok (node, pos') ->
        pos' < List.length inner \/ endsTerm after ->
        Parser.parseTerm whole f (d + pos) = Ok (node, d + pos'))
  /\ (forall pos node pos',
        Parser.parseExpression inner f pos = Ok (node, pos') ->
        pos' < List.length inner \/ endsExpression after ->
        Parser.parseExpression whole f (d + pos) = Ok (node, d + pos'))
  /\ (forall node0 pos node pos',
        pos <= List.length inner ->
        Parser.parseTermLoop inner f node0 pos = Ok (node, pos') ->
        pos' < List.length inner \/ endsTerm after ->
        Parser.parseTermLoop whole f node0 (d + pos) = Ok (node, d + pos'))
  /\ (forall node0 pos node pos',
        pos <= List.length inner ->
        Parser.parseExpressionLoop inner f node0 pos = Ok (node, pos') ->
        pos' < List.length inner \/ endsExpression after ->
        Parser.parseExpressionLoop whole f node0 (d + pos) = Ok (node, d + pos')).
Proof.
  induction f as [|f (IHF & IHT & IHE & IHTL & IHEL)].
  - repeat split; intros; discriminate.
  - destruct (parser_progress inner f) as (PF & PT & PE & PTL & PEL).
    repeat apply conj.
    + intros pos node pos' H. rewrite parseFactor_S in H |- *.
      destruct (Parser.peek inner pos) as [tok|] eqn:Hpeek; [|discriminate].
      rewrite (peek_embedded pos tok Hpeek). rewrite <- !Nat.add_succ_r.
      destruct (String.eqb (type tok) "NUMBER"); [injection H as <- <-; reflexivity|].
      destruct (String.eqb (type tok) "IDENT"); [injection H as <- <-; reflexivity|].
      destruct (String.eqb (value tok) "(").
      * bind_embed H r. destruct r as [n1 p1]. cbn [fst snd] in H.
        bind_embed H e. destruct e as [t p2]. cbn [fst snd] in H. injection H as <- <-.
        match goal with
        | He : Parser.eat _ _ _ _ = Ok _ |- _ =>
            pose proof (eat_Ok _ _ _ _ _ _ He) as [_ Hin];
            apply eat_Ok_token in He; destruct He as (Hp & -> & Hty & Hval)
        end.
        match goal with
        | Hp : Parser.parseExpression _ _ _ = Ok _ |- _ =>
            rewrite (IHE _ _ _ Hp (or_introl Hin))
        end.
        cbn [bind fst snd].
        unfold Parser.eat. rewrite (peek_embedded p1 t Hp).
        rewrite Hty, (Hval eq_refl). cbn [bind fst snd].
        unfold Parser.consume. rewrite Nat.add_succ_r. reflexivity.
      * destruct (String.eqb (value tok) "-"); [|discriminate].
        bind_embed H r. destruct r as [n1 p1]. cbn [fst snd] in H. injection H as <- <-.
        match goal with
        | Hp : Parser.parseFactor _ _ _ = Ok _ |- _ => rewrite (IHF _ _ _ Hp)
        end.
        reflexivity.
    + intros pos node pos' H Hend. rewrite parseTerm_S in H |- *.
      bind_embed H r. destruct r as [n1 p1]. cbn [fst snd] in H.
      match goal with
      | Hp : Parser.parseFactor _ _ _ = Ok _ |- _ =>
          pose proof (PF _ _ _ Hp) as Hlt; rewrite (IHF _ _ _ Hp)
      end.
      cbn [bind fst snd]. apply IHTL; [lia | exact H | exact Hend].
    + intros pos node pos' H Hend. rewrite parseExpression_S in H |- *.
      bind_embed H r. destruct r as [n1 p1]. cbn [fst snd] in H.
      pose proof (PEL _ _ _ _ H) as [Hkeep _].
      match goal with
      | Hp : Parser.parseTerm _ _ _ = Ok _ |- _ =>
          pose proof (PT _ _ _ Hp) as Hlt; rewrite (IHT _ _ _ Hp)
      end.
      * cbn [bind fst snd]. apply IHEL; [lia | exact H | exact Hend].
      * destruct Hend as [Hin | Hafter];
          [left; lia | right; exact (endsExpression_endsTerm Hafter)].
    + intros node0 pos node pos' Hle H Hend. rewrite parseTermLoop_S in H |- *.
      destruct (Parser.peek inner pos) as [tok|] eqn:Hpeek.
      * rewrite (peek_embedded pos tok Hpeek). rewrite <- !Nat.add_succ_r.
        destruct (Parser.isMultiplicative (value tok)); [|injection H as <- <-; reflexivity].
        bind_embed H r. destruct r as [n1 p1]. cbn [fst snd] in H.
        match goal with
        | Hp : Parser.parseFactor _ _ _ = Ok _ |- _ =>
            pose proof (PF _ _ _ Hp) as Hlt; rewrite (IHF _ _ _ Hp)
        end.
        cbn [bind fst snd]. apply IHTL; [lia | exact H | exact Hend].
      * injection H as <- <-. destruct (peek_behind pos Hle Hpeek) as [Hpos Hnext].
        rewrite Hnext. destruct Hend as [Hin | Hafter]; [lia|].
        unfold endsTerm in Hafter. destruct after as [|t rest]; [reflexivity|].
        rewrite Hafter. reflexivity.
    + intros node0 pos node pos' Hle H Hend. rewrite parseExpressionLoop_S in H |- *.
      destruct (Parser.peek inner pos) as [tok|] eqn:Hpeek.
      * rewrite (peek_embedded pos tok Hpeek). rewrite <- !Nat.add_succ_r.
        destruct (Parser.isAdditive (value tok)); [|injection H as <- <-; reflexivity].
        bind_embed H r. destruct r as [n1 p1]. cbn [fst snd] in H.
        pose proof (PEL _ _ _ _ H) as [Hkeep _].
        match goal with
        | Hp : Parser.parseTerm _ _ _ = Ok _ |- _ =>
            pose proof (PT _ _ _ Hp) as Hlt; rewrite (IHT _ _ _ Hp)
        end.
        -- cbn [bind fst snd]. apply IHEL; [lia | exact H | exact Hend].
        -- destruct Hend as [Hin | Hafter];
             [left; lia | right; exact (endsExpression_endsTerm Hafter)].
      * injection H as <- <-. destruct (peek_behind pos Hle Hpeek) as [Hpos Hnext].
        rewrite Hnext. destruct Hend as [Hin | Hafter]; [lia|].
        unfold endsExpression, stopsLoops in Hafter.
        destruct after as [|t rest]; [reflexivity|].
        apply andb_true_iff in Hafter. destruct Hafter as [Ha _].
        apply negb_true_iff in Ha. rewrite Ha. reflexivity.
Qed.

End Embedding.

(** ** The loops fold their operands to the left *)

Lemma peek_past_end (tokens : list Token) :
  Parser.peek tokens (List.length tokens) = None.
Proof. unfold Parser.peek. apply nth_error_None. lia. Qed.

Lemma chain_split (before : list Token) (t : Turn) (turns : list Turn) :
  (before ++ turnsTokens (t :: turns))%list
  = (((before ++ [mkToken "OPERATOR" (operatorText t)]) ++ operandTokens t)
       ++ turnsTokens turns)%list.
Proof.
  unfold turnsTokens. cbn [flat_map]. rewrite <- !app_assoc. reflexivity.
Qed.

Lemma endsTerm_termTurns (turns : list Turn) :
  termTurns turns -> endsTerm (turnsTokens turns).
Proof.
  intros H. destruct H as [|t turns [Hop _] _]; [exact I|].
  unfold endsTerm, turnsTokens. cbn [flat_map app value].
  exact (additive_not_multiplicative _ Hop).
Qed.

Lemma parseTermLoop_turns (turns : list Turn) :
  forall (before : list Token) (node : Node),
    factorTurns turns ->
    exists fuel,
      Parser.parseTermLoop (before ++ turnsTokens turns) fuel node (List.length before)
      = Ok (foldLeft node turns, List.length (before ++ turnsTokens turns)).
Proof.
  induction turns as [|t turns IH]; intros before node Hturns.
  - exists 1. cbn [turnsTokens flat_map]. rewrite app_nil_r.
    rewrite parseTermLoop_S, peek_past_end. reflexivity.
  - inversion Hturns as [|? ? [Hop [fo Hfo]] Hrest]; subst.
    set (op := mkToken "OPERATOR" (operatorText t)).
    destruct (IH ((before ++ [op]) ++ operandTokens t)%list
                 (BinaryOp (operatorText t) node (operandTree t)) Hrest) as [fl Hfl].
    destruct (parser_embeds (before ++ [op]) (operandTokens t) (turnsTokens turns) fo)
      as (EF & _).
    apply EF in Hfo.
    set (whole := (before ++ turnsTokens (t :: turns))%list).
    assert (Hwhole : whole = (((before ++ [op]) ++ operandTokens t)
                                ++ turnsTokens turns)%list)
      by apply chain_split.
    rewrite app_assoc in Hfo. rewrite <- Hwhole in Hfo, Hfl.
    destruct (parser_fuel_monotone whole fo (Nat.max fo fl) ltac:(lia)) as (MF & _).
    destruct (parser_fuel_monotone whole fl (Nat.max fo fl) ltac:(lia))
      as (_ & _ & _ & MTL & _).
    exists (S (Nat.max fo fl)).
    rewrite parseTermLoop_S.
    assert (Hpeek : Parser.peek whole (List.length before) = Some op).
    { subst whole. unfold turnsTokens. cbn [flat_map]. apply peek_here. }
    rewrite Hpeek. change (value op) with (operatorText t). rewrite Hop.
    replace (S (List.length before)) with (List.length (before ++ [op]) + 0)
      by (rewrite length_app; cbn [List.length]; lia).
    rewrite (MF _ _ Hfo). cbn [bind fst snd].
    rewrite <- length_app.
    exact (MTL _ _ _ Hfl).
Qed.

Lemma parseExpressionLoop_turns (turns : list Turn) :
  forall (before : list Token) (node : Node),
    termTurns turns ->
    exists fuel,
      Parser.parseExpressionLoop (before ++ turnsTokens turns) fuel node
        (List.length before)
      = Ok (foldLeft node turns, List.length (before ++ turnsTokens turns)).
Proof.
  induction turns as [|t turns IH]; intros before node Hturns.
  - exists 1. cbn [turnsTokens flat_map]. rewrite app_nil_r.
    rewrite parseExpressionLoop_S, peek_past_end. reflexivity.
  - inversion Hturns as [|? ? [Hop [fo Hfo]] Hrest]; subst.
    set (op := mkToken "OPERATOR" (operatorText t)).
    destruct (IH ((before ++ [op]) ++ operandTokens t)%list
                 (BinaryOp (operatorText t) node (operandTree t)) Hrest) as [fl Hfl].
    destruct (parser_embeds (before ++ [op]) (operandTokens t) (turnsTokens turns) fo)
      as (_ & ET & _).
    apply ET in Hfo; [|right; exact (endsTerm_termTurns turns Hrest)].
    set (whole := (before ++ turnsTokens (t :: turns))%list).
    assert (Hwhole : whole = (((before ++ [op]) ++ operandTokens t)
                                ++ turnsTokens turns)%list)
      by apply chain_split.
    rewrite app_assoc in Hfo. rewrite <- Hwhole in Hfo, Hfl.
    destruct (parser_fuel_monotone whole fo (Nat.max fo fl) ltac:(lia)) as (_ & MT & _).
    destruct (parser_fuel_monotone whole fl (Nat.max fo fl) ltac:(lia))
      as (_ & _ & _ & _ & MEL).
    exists (S (Nat.max fo fl)).
    rewrite parseExpressionLoop_S.
    assert (Hpeek : Parser.peek whole (List.length before) = Some op).
    { subst whole. unfold turnsTokens. cbn [flat_map]. apply peek_here. }
    rewrite Hpeek. change (value op) with (operatorText t). rewrite Hop.
    replace (S (List.length before)) with (List.length (before ++ [op]) + 0)
      by (rewrite length_app; cbn [List.length]; lia).
    rewrite (MT _ _ Hfo). cbn [bind fst snd].
    rewrite <- length_app.
    exact (MEL _ _ _ Hfl).
Qed.

(** A factor followed by turns of [*] and [/] is one term, folded to the
    left. *)
Lemma factors_fold_left (first : list Token) (tree : Node) (turns : list Turn) :
  parsesAsFactor first tree ->
  factorTurns turns ->
  parsesAsTerm (chain first turns) (foldLeft tree turns).
Proof.
  intros [f0 Hfirst] Hturns.
  destruct (parseTermLoop_turns turns first tree Hturns) as [fl Hloop].
  destruct (parser_embeds [] first (turnsTokens turns) f0) as (EF & _).
  apply EF in Hfirst. cbn [app List.length Nat.add] in Hfirst.
  unfold parsesAsTerm, chain.
  set (whole := (first ++ turnsTokens turns)%list) in *.
  destruct (parser_fuel_monotone whole f0 (Nat.max f0 fl) ltac:(lia)) as (MF & _).
  destruct (parser_fuel_monotone whole fl (Nat.max f0 fl) ltac:(lia))
    as (_ & _ & _ & MTL & _).
  exists (S (Nat.max f0 fl)).
  rewrite parseTerm_S, (MF _ _ Hfirst). cbn [bind fst snd].
  exact (MTL _ _ _ Hloop).
Qed.

(** A term followed by turns of [+] and [-] is the whole expression,
    folded to the left. *)
Lemma terms_fold_left (first : list Token) (tree : Node) (turns : list Turn) :
  parsesAsTerm first tree ->
  termTurns turns ->
  parse (chain first turns) = Ok (foldLeft tree turns).
Proof.
  intros [f0 Hfirst] Hturns.
  destruct (parseExpressionLoop_turns turns first tree Hturns) as [fl Hloop].
  destruct (parser_embeds [] first (turnsTokens turns) f0) as (_ & ET & _).
  apply ET in Hfirst; [|right; exact (endsTerm_termTurns turns Hturns)].
  cbn [app List.length Nat.add] in Hfirst.
  unfold chain.
  set (whole := (first ++ turnsTokens turns)%list) in *.
  destruct (parser_fuel_monotone whole f0 (Nat.max f0 fl) ltac:(lia)) as (_ & MT & _).
  destruct (parser_fuel_monotone whole fl (Nat.max f0 fl) ltac:(lia))
    as (_ & _ & _ & _ & MEL).
  apply (parse_of_some_fuel whole (S (Nat.max f0 fl))).
  rewrite parseExpression_S, (MT _ _ Hfirst). cbn [bind fst snd].
  exact (MEL _ _ _ Hloop).
Qed.

(** ** Operands *)

Lemma number_parsesAsFactor (text : string) :
  parsesAsFactor [mkToken "NUMBER" text] (Number text).
Proof. exists 1. reflexivity. Qed.

Lemma identifier_parsesAsFactor (name : string) :
  parsesAsFactor [mkToken "IDENT" name] (VariableRef name).
Proof. exists 1. reflexivity. Qed.

Lemma factor_parsesAsTerm (ts : list Token) (tree : Node) :
  parsesAsFactor ts tree -> parsesAsTerm ts tree.
Proof.
  intros H. pose proof (factors_fold_left ts tree [] H (Forall_nil _)) as Hterm.
  unfold chain, turnsTokens in Hterm. cbn [flat_map] in Hterm.
  rewrite app_nil_r in Hterm. exact Hterm.
Qed.

Lemma chain_snoc (first : list Token) (turns : list Turn) (t : Turn) :
  chain first (turns ++ [t])
  = (chain first turns ++ mkToken "OPERATOR" (operatorText t) :: operandTokens t)%list.
Proof.
  unfold chain, turnsTokens. rewrite flat_map_app. cbn [flat_map].
  rewrite app_nil_r, app_assoc. reflexivity.
Qed.

Lemma foldLeft_snoc (tree : Node) (turns : list Turn) (t : Turn) :
  foldLeft tree (turns ++ [t])
  = BinaryOp (operatorText t) (foldLeft tree turns) (operandTree t).
Proof. unfold foldLeft. rewrite fold_left_app. reflexivity. Qed.

Lemma one_more_term (first : list Token) (tree : Node) (turns : list Turn)
      (op : string) (ts : list Token) (operand : Node) :
  parsesAsTerm first tree ->
  termTurns turns ->
  Parser.isAdditive op = true ->
  parsesAsTerm ts operand ->
  exists built,
    parse (chain first turns) = Ok built
    /\ parse (chain first turns ++ mkToken "OPERATOR" op :: ts)%list
       = Ok (BinaryOp op built operand).
Proof.
  intros Hfirst Hturns Hop Hts. exists (foldLeft tree turns).
  split; [exact (terms_fold_left first tree turns Hfirst Hturns)|].
  pose proof (terms_fold_left first tree (turns ++ [mkTurn op ts operand]) Hfirst) as H.
  rewrite chain_snoc, foldLeft_snoc in H. cbn [operatorText operandTokens operandTree] in H.
  apply H. apply Forall_app. split; [exact Hturns|].
  constructor; [|constructor]. split; assumption.
Qed.

Lemma one_more_factor (first : list Token) (tree : Node) (turns : list Turn)
      (op : string) (ts : list Token) (operand : Node) :
  parsesAsFactor first tree ->
  factorTurns turns ->
  Parser.isMultiplicative op = true ->
  parsesAsFactor ts operand ->
  exists built,
    parsesAsTerm (chain first turns) built
    /\ parsesAsTerm (chain first turns ++ mkToken "OPERATOR" op :: ts)%list
         (BinaryOp op built operand).
Proof.
  intros Hfirst Hturns Hop Hts. exists (foldLeft tree turns).
  split; [exact (factors_fold_left first tree turns Hfirst Hturns)|].
  pose proof (factors_fold_left first tree (turns ++ [mkTurn op ts operand]) Hfirst) as H.
  rewrite chain_snoc, foldLeft_snoc in H. cbn [operatorText operandTokens operandTree] in H.
  apply H. apply Forall_app. split; [exact Hturns|].
  constructor; [|constructor]. split; assumption.
Qed.

(** C5. Binary operators parse left-associatively, in both loops and
    whatever the operands are.  The tokens of ["8-3-2"] parse to
    [BinaryOp(-, BinaryOp(-, 8, 3), 2)] and those of ["8/4/2"] to
    [BinaryOp(/, BinaryOp(/, 8, 4), 2)].  A term followed by any number of
    turns, each a [+] or [-] and a term, parses to the fold to the left of
    the turns, and one more turn wraps the tree built so far as the left
    child of a new [BinaryOp]; a factor followed by turns of [*] or [/] and
    a factor is one term, built the same way. *)
Theorem C5_left_associative :
  (Lexer.tokenize "8-3-2"
   = Ok [mkToken "NUMBER" "8"; mkToken "OPERATOR" "-"; mkToken "NUMBER" "3";
         mkToken "OPERATOR" "-"; mkToken "NUMBER" "2"]
   /\ parse [mkToken "NUMBER" "8"; mkToken "OPERATOR" "-"; mkToken "NUMBER" "3";
             mkToken "OPERATOR" "-"; mkToken "NUMBER" "2"]
      = Ok (BinaryOp "-" (BinaryOp "-" (Number "8") (Number "3")) (Number "2")))
  /\ (Lexer.tokenize "8/4/2"
      = Ok [mkToken "NUMBER" "8"; mkToken "OPERATOR" "/"; mkToken "NUMBER" "4";
            mkToken "OPERATOR" "/"; mkToken "NUMBER" "2"]
      /\ parse [mkToken "NUMBER" "8"; mkToken "OPERATOR" "/"; mkToken "NUMBER" "4";
                mkToken "OPERATOR" "/"; mkToken "NUMBER" "2"]
         = Ok (BinaryOp "/" (BinaryOp "/" (Number "8") (Number "4")) (Number "2")))
  /\ (forall first tree turns,
         parsesAsTerm first tree ->
         termTurns turns ->
         parse (chain first turns) = Ok (foldLeft tree turns))
  /\ (forall first tree turns op ts operand,
         parsesAsTerm first tree ->
         termTurns turns ->
         Parser.isAdditive op = true ->
         parsesAsTerm ts operand ->
         exists built,
           parse (chain first turns) = Ok built
           /\ parse (chain first turns ++ mkToken "OPERATOR" op :: ts)%list
              = Ok (BinaryOp op built operand))
  /\ (forall first tree turns,
         parsesAsFactor first tree ->
         factorTurns turns ->
         parsesAsTerm (chain first turns) (foldLeft tree turns))
  /\ (forall first tree turns op ts operand,
         parsesAsFactor first tree ->
         factorTurns turns ->
         Parser.isMultiplicative op = true ->
         parsesAsFactor ts operand ->
         exists built,
           parsesAsTerm (chain first turns) built
           /\ parsesAsTerm (chain first turns ++ mkToken "OPERATOR" op :: ts)%list
                (BinaryOp op built operand)).
Proof.
  split; [split; reflexivity|].
  split; [split; reflexivity|].
  split; [exact terms_fold_left|].
  split; [exact one_more_term|].
  split; [exact factors_fold_left | exact one_more_factor].
Qed.

(** The tokens of ["a*b/2 - (c-1)*d - -e"]: three terms, the first two of
    them chains of factors, folded to the left at both levels. *)
Lemma C5_witness :
  parse [mkToken "IDENT" "a"; mkToken "OPERATOR" "*"; mkToken "IDENT" "b";
         mkToken "OPERATOR" "/"; mkToken "NUMBER" "2";
         mkToken "OPERATOR" "-";
         mkToken "OPERATOR" "("; mkToken "IDENT" "c"; mkToken "OPERATOR" "-";
         mkToken "NUMBER" "1"; mkToken "OPERATOR" ")"; mkToken "OPERATOR" "*";
         mkToken "IDENT" "d";
         mkToken "OPERATOR" "-";
         mkToken "OPERATOR" "-"; mkToken "IDENT" "e"]
  = Ok (BinaryOp "-"
          (BinaryOp "-"
             (BinaryOp "/" (BinaryOp "*" (VariableRef "a") (VariableRef "b")) (Number "2"))
             (BinaryOp "*" (BinaryOp "-" (VariableRef "c") (Number "1")) (VariableRef "d")))
          (UnaryOp "-" (VariableRef "e"))).
Proof.
  destruct C5_left_associative as (_ & _ & Hterms & _ & Hfactors & _).
  assert (H1 : parsesAsTerm
                 [mkToken "IDENT" "a"; mkToken "OPERATOR" "*"; mkToken "IDENT" "b";
                  mkToken "OPERATOR" "/"; mkToken "NUMBER" "2"]
                 (BinaryOp "/" (BinaryOp "*" (VariableRef "a") (VariableRef "b"))
                    (Number "2"))).
  { apply (Hfactors [mkToken "IDENT" "a"] (VariableRef "a")
             [mkTurn "*" [mkToken "IDENT" "b"] (VariableRef "b");
              mkTurn "/" [mkToken "NUMBER" "2"] (Number "2")]).
    - exists 1. reflexivity.
    - repeat constructor; exists 1; reflexivity. }
  assert (H2 : parsesAsTerm
                 [mkToken "OPERATOR" "("; mkToken "IDENT" "c"; mkToken "OPERATOR" "-";
                  mkToken "NUMBER" "1"; mkToken "OPERATOR" ")"; mkToken "OPERATOR" "*";
                  mkToken "IDENT" "d"]
                 (BinaryOp "*" (BinaryOp "-" (VariableRef "c") (Number "1"))
                    (VariableRef "d"))).
  { apply (Hfactors [mkToken "OPERATOR" "("; mkToken "IDENT" "c"; mkToken "OPERATOR" "-";
                     mkToken "NUMBER" "1"; mkToken "OPERATOR" ")"]
             (BinaryOp "-" (VariableRef "c") (Number "1"))
             [mkTurn "*" [mkToken "IDENT" "d"] (VariableRef "d")]).
    - exists 6. reflexivity.
    - repeat constructor; exists 1; reflexivity. }
  assert (H3 : parsesAsTerm [mkToken "OPERATOR" "-"; mkToken "IDENT" "e"]
                 (UnaryOp "-" (VariableRef "e"))).
  { exists 3. reflexivity. }
  apply (Hterms
           [mkToken "IDENT" "a"; mkToken "OPERATOR" "*"; mkToken "IDENT" "b";
            mkToken "OPERATOR" "/"; mkToken "NUMBER" "2"]
           (BinaryOp "/" (BinaryOp "*" (VariableRef "a") (VariableRef "b")) (Number "2"))
           [mkTurn "-"
              [mkToken "OPERATOR" "("; mkToken "IDENT" "c"; mkToken "OPERATOR" "-";
               mkToken "NUMBER" "1"; mkToken "OPERATOR" ")"; mkToken "OPERATOR" "*";
               mkToken "IDENT" "d"]
              (BinaryOp "*" (BinaryOp "-" (VariableRef "c") (Number "1"))
                 (VariableRef "d"));
            mkTurn "-" [mkToken "OPERATOR" "-"; mkToken "IDENT" "e"]
              (UnaryOp "-" (VariableRef "e"))]).
  - exact H1.
  - constructor; [split; [reflexivity | exact H2]|].
    constructor; [split; [reflexivity | exact H3]|].
    constructor.
Defined.

(** * The pipeline on the store *)

Section OnTheStore.

Import Heap.

(** ** Running a sequence *)

Lemma andThen_Ok {A B : Type} (m : Run A) (k : A -> Run B) (h h' : heap) (a : A) :
  m h = (Ok a, h') -> andThen m k h = k a h'.
Proof. intros H. unfold andThen. rewrite H. reflexivity. Qed.

Lemma andThen_Throw {A B : Type} (m : Run A) (k : A -> Run B) (h h' : heap)
      (message : string) :
  m h = (Throw message, h') -> andThen m k h = (Throw message, h').
Proof. intros H. unfold andThen. rewrite H. reflexivity. Qed.

Lemma andThen_OutOfFuel {A B : Type} (m : Run A) (k : A -> Run B) (h h' : heap) :
  m h = (OutOfFuel, h') -> andThen m k h = (OutOfFuel, h').
Proof. intros H. unfold andThen. rewrite H. reflexivity. Qed.

(** A run that ends as [r] does, followed by the rest. *)
Lemma andThen_mapResult {A B S : Type} (m : Run A) (k : A -> Run B) (h h' : heap)
      (f : S -> A) (r : Result S) :
  m h = (mapResult f r, h') ->
  andThen m k h
  = match r with
    | Ok s => k (f s) h'
    | Throw message => (Throw message, h')
    | OutOfFuel => (OutOfFuel, h')
    end.
Proof. intros H. unfold andThen. rewrite H. destruct r; reflexivity. Qed.

Lemma andThen_result {A B : Type} (m : Run A) (k : A -> Run B) (h h' : heap)
      (r : Result A) :
  m h = (r, h') ->
  andThen m k h
  = match r with
    | Ok a => k a h'
    | Throw message => (Throw message, h')
    | OutOfFuel => (OutOfFuel, h')
    end.
Proof. intros H. unfold andThen. rewrite H. destruct r; reflexivity. Qed.

(** ** Cells *)

Lemma cell_write_same (a : address) (c : Cell) (h : heap) :
  cell (write a c h) a = Some c.
Proof. unfold write. cbn [cell]. rewrite Nat.eqb_refl. reflexivity. Qed.

Lemma cell_write_other (a b : address) (c : Cell) (h : heap) :
  b <> a -> cell (write a c h) b = cell h b.
Proof.
  intros H. unfold write. cbn [cell].
  apply Nat.eqb_neq in H. rewrite H. reflexivity.
Qed.

Lemma next_write (a : address) (c : Cell) (h : heap) : next (write a c h) = next h.
Proof. reflexivity. Qed.

Lemma new_run (c : Cell) (h : heap) :
  Process.new c h = (Ok (next h), snd (allocate c h)).
Proof. reflexivity. Qed.

Lemma cell_allocate_same (c : Cell) (h : heap) :
  cell (snd (allocate c h)) (next h) = Some c.
Proof. unfold allocate. cbn [snd cell]. rewrite Nat.eqb_refl. reflexivity. Qed.

Lemma cell_allocate_other (c : Cell) (h : heap) (b : address) :
  b <> next h -> cell (snd (allocate c h)) b = cell h b.
Proof.
  intros H. unfold allocate. cbn [snd cell].
  apply Nat.eqb_neq in H. rewrite H. reflexivity.
Qed.

Lemma next_allocate (c : Cell) (h : heap) : next (snd (allocate c h)) = S (next h).
Proof. reflexivity. Qed.

Lemma assign_run (a : address) (c : Cell) (h : heap) :
  Process.assign a c h = (Ok tt, write a c h).
Proof. reflexivity. Qed.

Lemma readNumber_run (a : address) (h : heap) (n : nat) :
  cell h a = Some (NumberCell n) -> Process.readNumber a h = (Ok n, h).
Proof. intros H. unfold Process.readNumber. rewrite H. reflexivity. Qed.

Lemma readStrings_run (a : address) (h : heap) (items : list string) :
  cell h a = Some (StringsCell items) -> Process.readStrings a h = (Ok items, h).
Proof. intros H. unfold Process.readStrings. rewrite H. reflexivity. Qed.

Lemma readTokens_run (a : address) (h : heap) (items : list Token) :
  cell h a = Some (TokensCell items) -> Process.readTokens a h = (Ok items, h).
Proof. intros H. unfold Process.readTokens. rewrite H. reflexivity. Qed.

Lemma readParser_run (a : address) (h : heap) (tokens : address) (pos : nat) :
  cell h a = Some (ParserCell tokens pos) ->
  Process.readParser a h = (Ok (tokens, pos), h).
Proof. intros H. unfold Process.readParser. rewrite H. reflexivity. Qed.

Lemma pushString_run (arr : address) (x : string) (h : heap) (items : list string) :
  cell h arr = Some (StringsCell items) ->
  Process.pushString arr x h = (Ok tt, write arr (StringsCell (Js.push items x)) h).
Proof.
  intros H. unfold Process.pushString.
  rewrite (andThen_Ok _ _ _ _ _ (readStrings_run _ _ _ H)). reflexivity.
Qed.

Lemma pushToken_run (arr : address) (x : Token) (h : heap) (items : list Token) :
  cell h arr = Some (TokensCell items) ->
  Process.pushToken arr x h = (Ok tt, write arr (TokensCell (Js.push items x)) h).
Proof.
  intros H. unfold Process.pushToken.
  rewrite (andThen_Ok _ _ _ _ _ (readTokens_run _ _ _ H)). reflexivity.
Qed.

Lemma addToSet_run (set : address) (x : string) (h : heap) (items : list string) :
  cell h set = Some (StringsCell items) ->
  Process.addToSet set x h
  = (Ok tt, write set (StringsCell (Semantic.setAdd x items)) h).
Proof.
  intros H. unfold Process.addToSet.
  rewrite (andThen_Ok _ _ _ _ _ (readStrings_run _ _ _ H)). reflexivity.
Qed.

Lemma postIncrement_run (counter : address) (h : heap) (n : nat) :
  cell h counter = Some (NumberCell n) ->
  Process.postIncrement counter h = (Ok n, write counter (NumberCell (S n)) h).
Proof.
  intros H. unfold Process.postIncrement.
  rewrite (andThen_Ok _ _ _ _ _ (readNumber_run _ _ _ H)). reflexivity.
Qed.

Lemma increment_run (counter : address) (h : heap) (n : nat) :
  cell h counter = Some (NumberCell n) ->
  Process.increment counter h = (Ok tt, write counter (NumberCell (S n)) h).
Proof.
  intros H. unfold Process.increment.
  rewrite (andThen_Ok _ _ _ _ _ (readNumber_run _ _ _ H)). reflexivity.
Qed.

(** ** What a run leaves alone *)

Lemma sameElsewhere_refl (owned : list address) (h : heap) : sameElsewhere owned h h.
Proof. split; [reflexivity | intros; reflexivity]. Qed.

Lemma sameElsewhere_trans (owned : list address) (h1 h2 h3 : heap) :
  sameElsewhere owned h1 h2 -> sameElsewhere owned h2 h3 -> sameElsewhere owned h1 h3.
Proof.
  intros [N1 C1] [N2 C2]. split; [congruence|].
  intros a Ha. rewrite (C2 a Ha). exact (C1 a Ha).
Qed.

Lemma sameElsewhere_write (owned : list address) (a : address) (c : Cell) (h : heap) :
  In a owned -> sameElsewhere owned h (write a c h).
Proof.
  intros Hin. split; [reflexivity|].
  intros b Hb. apply cell_write_other. intros ->. exact (Hb Hin).
Qed.

Lemma sameElsewhere_more (owned owned' : list address) (h h' : heap) :
  incl owned owned' -> sameElsewhere owned h h' -> sameElsewhere owned' h h'.
Proof.
  intros Hincl [N C]. split; [exact N|].
  intros a Ha. apply C. intros Hin. exact (Ha (Hincl a Hin)).
Qed.

Lemma extends_refl (h : heap) : extends h h.
Proof. split; [lia | intros; reflexivity]. Qed.

Lemma extends_trans (h1 h2 h3 : heap) : extends h1 h2 -> extends h2 h3 -> extends h1 h3.
Proof.
  intros [N1 C1] [N2 C2]. split; [lia|].
  intros a Ha. rewrite C2 by lia. exact (C1 a Ha).
Qed.

Lemma extends_allocate (c : Cell) (h : heap) : extends h (snd (allocate c h)).
Proof.
  split; [rewrite next_allocate; lia|].
  intros a Ha. apply cell_allocate_other. lia.
Qed.

Lemma extends_cell (h h' : heap) (a : address) (c : Cell) :
  extends h h' -> a < next h -> cell h a = Some c -> cell h' a = Some c.
Proof. intros [_ C] Ha Hc. rewrite (C a Ha). exact Hc. Qed.

(** Writing to cells allocated after [h0] leaves [h0] as it was. *)
Lemma extends_sameElsewhere (owned : list address) (h0 h h' : heap) :
  extends h0 h ->
  sameElsewhere owned h h' ->
  (forall a, In a owned -> next h0 <= a) ->
  extends h0 h'.
Proof.
  intros [N C] [N' C'] Hnew. split; [lia|].
  intros a Ha. rewrite C'; [exact (C a Ha)|].
  intros Hin. apply Hnew in Hin. lia.
Qed.


(** ** [generateTAC] on the store *)

Ltac apart := first [assumption | congruence | cbn [next allocate snd write]; lia].

Ltac cells :=
  repeat first
    [ rewrite cell_write_same
    | rewrite cell_write_other by apart
    | rewrite cell_allocate_same
    | rewrite cell_allocate_other by apart ];
  first [reflexivity | eassumption].

Ltac primitive :=
  first
    [ apply new_run
    | apply assign_run
    | apply readNumber_run; cells
    | apply readStrings_run; cells
    | apply readTokens_run; cells
    | apply readParser_run; cells
    | apply pushString_run; cells
    | apply pushToken_run; cells
    | apply addToSet_run; cells
    | apply postIncrement_run; cells
    | apply increment_run; cells
    | eassumption ].

Ltac step := erewrite andThen_Ok by primitive.

Lemma gen_on_store (tac tempCounter : address) (node : Node) :
  tac <> tempCounter ->
  forall (h : heap) (st : Tac.GenState),
    holdsGenState tac tempCounter st h ->
    exists h',
      Process.gen tac tempCounter node h = (mapResult fst (Tac.gen node st), h')
      /\ sameElsewhere [tac; tempCounter] h h'
      /\ forall result st',
           Tac.gen node st = Ok (result, st') -> holdsGenState tac tempCounter st' h'.
Proof.
  intros Hneq.
  induction node as [v | n | op l IHl r IHr | op e IHe]; intros h st Hst;
    cbn [Process.gen Tac.gen].
  - exists h. split; [reflexivity|]. split; [apply sameElsewhere_refl|].
    intros ? ? H. injection H as <- <-. exact Hst.
  - exists h. split; [reflexivity|]. split; [apply sameElsewhere_refl|].
    intros ? ? H. injection H as <- <-. exact Hst.
  - destruct (IHl h st Hst) as (h1 & Hrun1 & Hsame1 & Hst1).
    rewrite (andThen_mapResult _ _ _ _ _ _ Hrun1).
    destruct (Tac.gen l st) as [[left' st1]| message |];
      cbn [bind mapResult fst];
      [| exists h1; repeat split; try apply Hsame1; intros; discriminate
       | exists h1; repeat split; try apply Hsame1; intros; discriminate ].
    specialize (Hst1 _ _ eq_refl).
    destruct (IHr h1 st1 Hst1) as (h2 & Hrun2 & Hsame2 & Hst2).
    rewrite (andThen_mapResult _ _ _ _ _ _ Hrun2).
    destruct (Tac.gen r st1) as [[right' st2]| message |];
      cbn [bind mapResult fst];
      [| exists h2; split; [reflexivity|];
         split; [exact (sameElsewhere_trans _ _ _ _ Hsame1 Hsame2) | intros; discriminate]
       | exists h2; split; [reflexivity|];
         split; [exact (sameElsewhere_trans _ _ _ _ Hsame1 Hsame2) | intros; discriminate] ].
    destruct (Hst2 _ _ eq_refl) as [Htac Hcounter].
    do 2 step. unfold ret, Tac.emit. cbn [fst].
    eexists. split; [reflexivity|]. split.
    + apply (sameElsewhere_trans _ _ _ _ Hsame1).
      apply (sameElsewhere_trans _ _ _ _ Hsame2).
      eapply sameElsewhere_trans; apply sameElsewhere_write; cbn; auto.
    + intros ? ? H. injection H as <- <-. split; cbn [Tac.tac Tac.tempCounter]; cells.
  - destruct (String.eqb op "-").
    + destruct (IHe h st Hst) as (h1 & Hrun1 & Hsame1 & Hst1).
      rewrite (andThen_mapResult _ _ _ _ _ _ Hrun1).
      destruct (Tac.gen e st) as [[operand' st1]| message |];
        cbn [bind mapResult fst];
        [| exists h1; repeat split; try apply Hsame1; intros; discriminate
         | exists h1; repeat split; try apply Hsame1; intros; discriminate ].
      destruct (Hst1 _ _ eq_refl) as [Htac Hcounter].
      do 2 step. unfold ret, Tac.emit. cbn [fst].
      eexists. split; [reflexivity|]. split.
      * apply (sameElsewhere_trans _ _ _ _ Hsame1).
        eapply sameElsewhere_trans; apply sameElsewhere_write; cbn; auto.
      * intros ? ? H. injection H as <- <-. split; cbn [Tac.tac Tac.tempCounter]; cells.
    + exists h. split; [reflexivity|]. split; [apply sameElsewhere_refl|].
      intros ? ? H. discriminate.
Qed.


Lemma generateTAC_on_store (node : Node) (h : heap) :
  exists h',
    Process.generateTAC node h = (mapResult (fun _ => next h) (generateTAC node), h')
    /\ extends h h'
    /\ forall lines,
         generateTAC node = Ok lines ->
         next h < next h' /\ cell h' (next h) = Some (StringsCell lines).
Proof.
  unfold Process.generateTAC, generateTAC.
  do 2 step.
  set (h0 := snd (allocate (NumberCell 0) (snd (allocate (StringsCell []) h)))).
  assert (Hneq : next h <> next (snd (allocate (StringsCell []) h)))
    by (rewrite next_allocate; lia).
  assert (Hst : holdsGenState (next h) (next (snd (allocate (StringsCell []) h)))
                  Tac.initial h0).
  { split; subst h0; cbn [Tac.initial Tac.tac Tac.tempCounter]; cells. }
  assert (Hext : extends h h0).
  { subst h0. eapply extends_trans; apply extends_allocate. }
  assert (Hnext : next h0 = S (S (next h))) by reflexivity.
  destruct (gen_on_store _ _ node Hneq h0 Tac.initial Hst) as (h1 & Hrun & Hsame & Hst1).
  rewrite (andThen_mapResult _ _ _ _ _ _ Hrun).
  assert (Hown : forall a,
             In a [next h; next (snd (allocate (StringsCell []) h))] -> next h <= a).
  { intros a [<- | [<- | []]]; [lia | rewrite next_allocate; lia]. }
  pose proof (extends_sameElsewhere _ _ _ _ Hext Hsame Hown) as Hext1.
  destruct (Tac.gen node Tac.initial) as [[result st1]| message |];
    cbn [bind mapResult fst];
    [| exists h1; split; [reflexivity|]; split; [exact Hext1 | intros; discriminate]
     | exists h1; split; [reflexivity|]; split; [exact Hext1 | intros; discriminate] ].
  destruct (Hst1 _ _ eq_refl) as [Htac Hcounter].
  step.
  assert (Hpush : forall h2,
             (Process.pushString (next h) ("result = " ++ result) ;; ret (next h)) h1
             = h2 ->
             h2 = (Ok (next h),
                   write (next h)
                     (StringsCell (Js.push (Tac.tac st1) ("result = " ++ result))) h1)).
  { intros h2 <-. step. reflexivity. }
  eexists. split; [|split].
  - destruct (Nat.eqb (List.length (Tac.tac st1)) 0); cbn [mapResult];
      exact (Hpush _ eq_refl).
  - apply (extends_sameElsewhere [next h] h h1 _ Hext1);
      [apply sameElsewhere_write; left; reflexivity | intros a [<- | []]; lia].
  - intros lines Hlines. rewrite next_write. destruct Hsame as [Hn _].
    split; [lia|].
    rewrite cell_write_same.
    destruct (Nat.eqb (List.length (Tac.tac st1)) 0); injection Hlines as <-; reflexivity.
Qed.


(** ** [semanticAnalysis] on the store *)

Ltac analysis :=
  unfold holdsAnalysis, Semantic.pushConstant, Semantic.addVariable,
    Semantic.pushOperator, Semantic.countNode;
  cbn [Semantic.variables Semantic.constants Semantic.operators Semantic.nodeCount];
  repeat apply conj; cells.

Lemma walk_on_store (variables constants operators nodeCount : address) (node : Node) :
  NoDup [variables; constants; operators; nodeCount] ->
  forall (h : heap) (st : Semantic.Analysis),
    holdsAnalysis variables constants operators nodeCount st h ->
    exists h',
      Process.walk variables constants operators nodeCount node h = (Ok tt, h')
      /\ sameElsewhere [variables; constants; operators; nodeCount] h h'
      /\ holdsAnalysis variables constants operators nodeCount (Semantic.walk node st) h'.
Proof.
  intros Hdistinct.
  assert (Hvc : variables <> constants /\ variables <> operators
                /\ variables <> nodeCount /\ constants <> operators
                /\ constants <> nodeCount /\ operators <> nodeCount).
  { inversion Hdistinct as [|? ? H1 D1]; subst.
    inversion D1 as [|? ? H2 D2]; subst.
    inversion D2 as [|? ? H3 D3]; subst.
    cbn [In] in H1, H2, H3. repeat split; intros ->; tauto. }
  destruct Hvc as (Hvc & Hvo & Hvn & Hco & Hcn & Hon).
  induction node as [v | name | op l IHl r IHr | op e IHe];
    intros h st (Hv & Hc & Ho & Hn); cbn [Process.walk Semantic.walk].
  - do 1 step. erewrite pushString_run by cells.
    eexists. split; [reflexivity|]. split.
    + eapply sameElsewhere_trans; apply sameElsewhere_write; cbn; auto.
    + analysis.
  - do 1 step. erewrite addToSet_run by cells.
    eexists. split; [reflexivity|]. split.
    + eapply sameElsewhere_trans; apply sameElsewhere_write; cbn; auto.
    + analysis.
  - do 2 step.
    match goal with
    | |- context [andThen _ _ ?h0] =>
        destruct (IHl h0 (Semantic.pushOperator op (Semantic.countNode st)))
          as (h1 & Hrun1 & Hsame1 & Hst1); [analysis|]
    end.
    rewrite (andThen_Ok _ _ _ _ _ Hrun1).
    destruct (IHr h1 _ Hst1) as (h2 & Hrun2 & Hsame2 & Hst2).
    exists h2. split; [exact Hrun2|]. split; [|exact Hst2].
    eapply sameElsewhere_trans; [|exact Hsame2].
    eapply sameElsewhere_trans; [|exact Hsame1].
    eapply sameElsewhere_trans; apply sameElsewhere_write; cbn; auto.
  - do 1 step.
    erewrite andThen_Ok by (apply pushString_run; cells).
    match goal with
    | |- context [Process.walk _ _ _ _ _ ?h0] =>
        destruct (IHe h0 (Semantic.pushOperator ("unary " ++ op) (Semantic.countNode st)))
          as (h1 & Hrun1 & Hsame1 & Hst1); [analysis|]
    end.
    exists h1. split; [exact Hrun1|]. split; [|exact Hst1].
    eapply sameElsewhere_trans; [|exact Hsame1].
    eapply sameElsewhere_trans; apply sameElsewhere_write; cbn; auto.
Qed.


Lemma semanticAnalysis_on_store (ast : Node) (h : heap) :
  exists h',
    Process.semanticAnalysis ast h = (Ok (semanticAnalysis ast), h') /\ extends h h'.
Proof.
  unfold Process.semanticAnalysis, semanticAnalysis.
  do 4 step.
  match goal with
  | |- context [Process.walk ?v ?c ?o ?n ast] =>
      match goal with
      | |- context [andThen _ _ ?h4] =>
          assert (Hdistinct : NoDup [v; c; o; n]);
          [| assert (Hst : holdsAnalysis v c o n Semantic.empty h4);
             [| assert (Hext : extends h h4);
                [| assert (Hown : forall a, In a [v; c; o; n] -> next h <= a);
                   [| destruct (walk_on_store v c o n ast Hdistinct h4 _ Hst)
                        as (h5 & Hrun & Hsame & (Hv & Hc & Ho & Hn)) ] ] ] ]
      end
  end.
  - repeat constructor; cbn [In next allocate snd]; lia.
  - unfold Semantic.empty. analysis.
  - repeat (eapply extends_trans; [|apply extends_allocate]). apply extends_refl.
  - cbn [In next allocate snd]. intros a Ha. lia.
  - rewrite (andThen_Ok _ _ _ _ _ Hrun).
    do 4 step. unfold ret.
    exists h5. split; [reflexivity|].
    exact (extends_sameElsewhere _ _ _ _ Hext Hsame Hown).
Qed.


(** ** [generateFinalCode] on the store *)

Lemma finalCodeLoop_on_store (lines : address) (tacLines : list string) :
  forall (h : heap) (built : list string),
    cell h lines = Some (StringsCell built) ->
    exists h',
      Process.finalCodeLoop tacLines lines h
      = (mapResult (fun _ => tt) (finalCodeLines tacLines built), h')
      /\ sameElsewhere [lines] h h'
      /\ forall all,
           finalCodeLines tacLines built = Ok all ->
           cell h' lines = Some (StringsCell all).
Proof.
  induction tacLines as [|line rest IH]; intros h built Hbuilt;
    cbn [Process.finalCodeLoop finalCodeLines].
  - exists h. split; [reflexivity|]. split; [apply sameElsewhere_refl|].
    intros all H. injection H as <-. exact Hbuilt.
  - destruct (Js.includes line "="); [|exact (IH h built Hbuilt)].
    destruct (Js.split line " = ") as [|target [|expr others]];
      try (exists h; split; [reflexivity|]; split; [apply sameElsewhere_refl|];
           intros; discriminate).
    step.
    match goal with
    | |- context [Process.finalCodeLoop rest lines ?h0] =>
        destruct (IH h0 (Js.push built ("MOV " ++ Js.trim target ++ ", " ++ Js.trim expr)))
          as (h1 & Hrun & Hsame & Hall); [cells|]
    end.
    exists h1. split; [exact Hrun|]. split; [|exact Hall].
    eapply sameElsewhere_trans; [|exact Hsame].
    apply sameElsewhere_write. left. reflexivity.
Qed.

Lemma generateFinalCode_on_store (tacLines : address) (h : heap) (items : list string) :
  tacLines < next h ->
  cell h tacLines = Some (StringsCell items) ->
  exists h',
    Process.generateFinalCode tacLines h = (generateFinalCode items, h')
    /\ extends h h'.
Proof.
  intros Hlt Hitems. unfold Process.generateFinalCode, generateFinalCode.
  do 2 step.
  match goal with
  | |- context [Process.finalCodeLoop items ?lines] =>
      match goal with
      | |- context [andThen _ _ ?h0] =>
          destruct (finalCodeLoop_on_store lines items h0 [])
            as (h1 & Hrun & Hsame & Hall); [cells|]
      end
  end.
  rewrite (andThen_mapResult _ _ _ _ _ _ Hrun).
  assert (Hext : extends h h1).
  { eapply extends_sameElsewhere;
      [apply extends_allocate | exact Hsame | intros a [<- | []]; lia]. }
  destruct (finalCodeLines items []) as [all| message |]; cbn [bind].
  - specialize (Hall _ eq_refl). step. unfold ret.
    exists h1. split; [reflexivity | exact Hext].
  - exists h1. split; [reflexivity | exact Hext].
  - exists h1. split; [reflexivity | exact Hext].
Qed.


(** ** [tokenize] on the store *)

Lemma sliceFrom_zero (input : string) : Process.sliceFrom 0 input = input.
Proof. destruct input; reflexivity. Qed.

Lemma sliceFrom_next (i : nat) :
  forall (input : string) (c : ascii) (r : string),
    Process.sliceFrom i input = String c r -> Process.sliceFrom (S i) input = r.
Proof.
  induction i as [|k IH]; intros input c r H.
  - rewrite sliceFrom_zero in H. subst input. cbn [Process.sliceFrom].
    apply sliceFrom_zero.
  - destruct input as [|c0 r0]; [discriminate|].
    cbn [Process.sliceFrom] in H. exact (IH r0 c r H).
Qed.

Lemma skipWhitespace_slice (input : string) (rest : string) :
  forall i,
    rest = Process.sliceFrom i input ->
    fst (Lexer.skipWhitespace rest i)
    = Process.sliceFrom (snd (Lexer.skipWhitespace rest i)) input.
Proof.
  induction rest as [|c r IH]; intros i H; cbn [Lexer.skipWhitespace].
  - exact H.
  - destruct (Js.isSpace c); [|exact H].
    apply IH. symmetry. exact (sliceFrom_next i input c r (eq_sym H)).
Qed.

Lemma scan_slice (p : ascii -> bool) (input : string) (rest : string) :
  forall i,
    rest = Process.sliceFrom i input ->
    fst (snd (Lexer.scan p rest i))
    = Process.sliceFrom (snd (snd (Lexer.scan p rest i))) input.
Proof.
  induction rest as [|c r IH]; intros i H; cbn [Lexer.scan].
  - exact H.
  - destruct (p c); [|exact H].
    specialize (IH (S i) (eq_sym (sliceFrom_next i input c r (eq_sym H)))).
    destruct (Lexer.scan p r (S i)) as [acc [rest' i']]. exact IH.
Qed.

Lemma skipWhitespace_on_store (input : string) (i : address) (h : heap) (start : nat) :
  cell h i = Some (NumberCell start) ->
  Process.skipWhitespace input i h
  = (Ok tt,
     write i (NumberCell (snd (Lexer.skipWhitespace (Process.sliceFrom start input) start)))
       h).
Proof. intros H. unfold Process.skipWhitespace. step. reflexivity. Qed.

Lemma scan_on_store (p : ascii -> bool) (input : string) (i : address) (h : heap)
      (start : nat) :
  cell h i = Some (NumberCell start) ->
  Process.scan p input i h
  = (Ok (fst (Lexer.scan p (Process.sliceFrom start input) start)),
     write i (NumberCell (snd (snd (Lexer.scan p (Process.sliceFrom start input) start))))
       h).
Proof.
  intros H. unfold Process.scan. step.
  destruct (Lexer.scan p (Process.sliceFrom start input) start) as [acc [rest stop]].
  step. reflexivity.
Qed.

Lemma tokenizeLoop_on_store (input : string) (tokens i : address) (fuel : nat) :
  tokens <> i ->
  forall (h : heap) (start : nat) (items : list Token),
    cell h tokens = Some (TokensCell items) ->
    cell h i = Some (NumberCell start) ->
    exists h',
      Process.tokenizeLoop fuel input tokens i h
      = (mapResult (fun _ => tt)
           (Lexer.tokenizeLoop fuel (Process.sliceFrom start input) start items), h')
      /\ sameElsewhere [tokens; i] h h'
      /\ forall all,
           Lexer.tokenizeLoop fuel (Process.sliceFrom start input) start items = Ok all ->
           cell h' tokens = Some (TokensCell all).
Proof.
  intros Hneq.
  assert (Hneq' : i <> tokens) by congruence.
  induction fuel as [|fuel IH]; intros h start items Hitems Hstart;
    cbn [Process.tokenizeLoop Lexer.tokenizeLoop].
  - exists h. split; [reflexivity|]. split; [apply sameElsewhere_refl | intros; discriminate].
  - step.
    destruct (Process.sliceFrom start input) as [|c0 r0] eqn:Hrest.
    { exists h. split; [reflexivity|]. split; [apply sameElsewhere_refl|].
      intros all H. injection H as <-. exact Hitems. }
    rewrite <- Hrest.
    rewrite (andThen_Ok _ _ _ _ _ (skipWhitespace_on_store input i h start Hstart)).
    pose proof (skipWhitespace_slice input _ start eq_refl) as Hskip.
    destruct (Lexer.skipWhitespace (Process.sliceFrom start input) start)
      as [rest1 here] eqn:Hsk.
    cbn [fst snd] in Hskip |- *.
    step. rewrite <- Hskip.
    set (h1 := write i (NumberCell here) h).
    assert (Hsame1 : sameElsewhere [tokens; i] h h1)
      by (apply sameElsewhere_write; cbn; auto).
    assert (Hitems1 : cell h1 tokens = Some (TokensCell items)) by (subst h1; cells).
    assert (Hhere1 : cell h1 i = Some (NumberCell here)) by (subst h1; cells).
    destruct rest1 as [|ch r].
    { exists h1. split; [reflexivity|]. split; [exact Hsame1|].
      intros all H. injection H as <-. exact Hitems1. }
    destruct (Js.isDigit ch || (Nat.eqb (Js.code ch) 46 && Lexer.nextIsDigit (String ch r))).
    { rewrite (andThen_Ok _ _ _ _ _ (scan_on_store Js.isDigitOrDot input i h1 here Hhere1)).
      rewrite <- Hskip.
      pose proof (scan_slice Js.isDigitOrDot input _ here Hskip) as Hscan.
      destruct (Lexer.scan Js.isDigitOrDot (String ch r) here) as [num [rest2 stop]].
      cbn [fst snd] in Hscan |- *.
      destruct (Nat.ltb 1 (Lexer.countDots num)).
      { eexists. split; [reflexivity|]. split; [|intros; discriminate].
        eapply sameElsewhere_trans; [exact Hsame1|].
        apply sameElsewhere_write; cbn; auto. }
      step.
      match goal with
      | |- context [Process.tokenizeLoop fuel input tokens i ?h2] =>
          destruct (IH h2 stop (Js.push items (mkToken "NUMBER" num)))
            as (h3 & Hrun & Hsame & Hall); [cells | cells |]
      end.
      rewrite <- Hscan in Hrun, Hall.
      exists h3. split; [exact Hrun|]. split; [|exact Hall].
      eapply sameElsewhere_trans; [exact Hsame1|].
      eapply sameElsewhere_trans; [|exact Hsame].
      eapply sameElsewhere_trans; apply sameElsewhere_write; cbn; auto. }
    destruct (Js.isAlpha ch).
    { rewrite (andThen_Ok _ _ _ _ _ (scan_on_store Js.isAlnum input i h1 here Hhere1)).
      rewrite <- Hskip.
      pose proof (scan_slice Js.isAlnum input _ here Hskip) as Hscan.
      destruct (Lexer.scan Js.isAlnum (String ch r) here) as [id [rest2 stop]].
      cbn [fst snd] in Hscan |- *.
      step.
      match goal with
      | |- context [Process.tokenizeLoop fuel input tokens i ?h2] =>
          destruct (IH h2 stop (Js.push items (mkToken "IDENT" id)))
            as (h3 & Hrun & Hsame & Hall); [cells | cells |]
      end.
      rewrite <- Hscan in Hrun, Hall.
      exists h3. split; [exact Hrun|]. split; [|exact Hall].
      eapply sameElsewhere_trans; [exact Hsame1|].
      eapply sameElsewhere_trans; [|exact Hsame].
      eapply sameElsewhere_trans; apply sameElsewhere_write; cbn; auto. }
    destruct (Js.includesChar "+-*/()" ch).
    { do 2 step.
      match goal with
      | |- context [Process.tokenizeLoop fuel input tokens i ?h2] =>
          destruct (IH h2 (S here) (Js.push items (mkToken "OPERATOR" (String ch ""))))
            as (h3 & Hrun & Hsame & Hall); [cells | cells |]
      end.
      rewrite (sliceFrom_next here input ch r (eq_sym Hskip)) in Hrun, Hall.
      exists h3. split; [exact Hrun|]. split; [|exact Hall].
      eapply sameElsewhere_trans; [exact Hsame1|].
      eapply sameElsewhere_trans; [|exact Hsame].
      eapply sameElsewhere_trans; apply sameElsewhere_write; cbn; auto. }
    exists h1. split; [reflexivity|]. split; [exact Hsame1 | intros; discriminate].
Qed.

Lemma tokenize_on_store (input : string) (h : heap) :
  exists h',
    Process.tokenize input h = (mapResult (fun _ => next h) (Lexer.tokenize input), h')
    /\ extends h h'
    /\ forall items,
         Lexer.tokenize input = Ok items ->
         next h < next h' /\ cell h' (next h) = Some (TokensCell items).
Proof.
  unfold Process.tokenize, Lexer.tokenize.
  do 2 step.
  match goal with
  | |- context [Process.tokenizeLoop _ input ?tokens ?i] =>
      match goal with
      | |- context [andThen _ _ ?h0] =>
          destruct (tokenizeLoop_on_store input tokens i (S (String.length input))
                      ltac:(cbn [next allocate snd]; lia) h0 0 [])
            as (h1 & Hrun & Hsame & Hall); [cells | cells |];
          assert (Hext : extends h h1);
          [ apply (extends_sameElsewhere [tokens; i] h h0 h1);
            [ eapply extends_trans; apply extends_allocate
            | exact Hsame
            | cbn [In next allocate snd]; intros a Ha; lia ] |];
          assert (Hnext : next h < next h1);
          [ destruct Hsame as [-> _]; cbn [next allocate snd]; lia |]
      end
  end.
  rewrite sliceFrom_zero in Hrun, Hall.
  rewrite (andThen_mapResult _ _ _ _ _ _ Hrun).
  destruct (Lexer.tokenizeLoop (S (String.length input)) input 0 []) as [all| message |];
    cbn [mapResult].
  - exists h1. split; [reflexivity|]. split; [exact Hext|].
    intros items H. injection H as <-. split; [exact Hnext | exact (Hall _ eq_refl)].
  - exists h1. split; [reflexivity|]. split; [exact Hext | intros; discriminate].
  - exists h1. split; [reflexivity|]. split; [exact Hext | intros; discriminate].
Qed.


(** ** The parser on the store *)

Lemma peek_on_store (this tokens : address) (items : list Token) (pos : nat) (h : heap) :
  holdsParser this tokens items pos h ->
  Process.peek this h = (Ok (Parser.peek items pos), h).
Proof.
  intros [Hthis Hitems]. unfold Process.peek.
  step. cbn [fst snd]. step. reflexivity.
Qed.

Lemma consume_on_store (this tokens : address) (items : list Token) (pos : nat)
      (h : heap) :
  this <> tokens ->
  holdsParser this tokens items pos h ->
  Process.consume this h
  = (Ok (Parser.peek items pos), write this (ParserCell tokens (S pos)) h)
  /\ holdsParser this tokens items (S pos) (write this (ParserCell tokens (S pos)) h).
Proof.
  intros Hneq [Hthis Hitems]. assert (Hneq' : tokens <> this) by congruence.
  split.
  - unfold Process.consume. step. cbn [fst snd]. do 2 step. reflexivity.
  - split; cells.
Qed.

Lemma eat_on_store (this tokens : address) (items : list Token) (ty val : string)
      (pos : nat) (h : heap) :
  this <> tokens ->
  holdsParser this tokens items pos h ->
  exists h',
    Process.eat this ty val h
    = (mapResult (fun r => Some (fst r)) (Parser.eat items ty val pos), h')
    /\ sameElsewhere [this] h h'
    /\ forall tok pos',
         Parser.eat items ty val pos = Ok (tok, pos') ->
         holdsParser this tokens items pos' h'.
Proof.
  intros Hneq Hp. unfold Process.eat, Parser.eat.
  rewrite (andThen_Ok _ _ _ _ _ (peek_on_store _ _ _ _ _ Hp)).
  destruct (Parser.peek items pos) as [t|] eqn:Hpeek.
  - destruct (negb (String.eqb (type t) ty)
              || (Js.truthy val && negb (String.eqb (value t) val))).
    + exists h. split; [reflexivity|]. split; [apply sameElsewhere_refl|].
      intros; discriminate.
    + destruct (consume_on_store _ _ _ _ _ Hneq Hp) as [Hrun Hp'].
      rewrite Hrun, Hpeek. eexists. split; [reflexivity|]. split.
      * apply sameElsewhere_write. left. reflexivity.
      * intros tok pos' H. injection H as <- <-. exact Hp'.
  - exists h. split; [reflexivity|]. split; [apply sameElsewhere_refl|].
    intros; discriminate.
Qed.

Lemma parser_on_store (this tokens : address) (items : list Token) (fuel : nat) :
  this <> tokens ->
  (forall h pos,
      holdsParser this tokens items pos h ->
      exists h',
        Process.parseFactor fuel this h
        = (mapResult fst (Parser.parseFactor items fuel pos), h')
        /\ sameElsewhere [this] h h'
        /\ forall node pos',
             Parser.parseFactor items fuel pos = Ok (node, pos') ->
             holdsParser this tokens items pos' h')
  /\ (forall h pos,
        holdsParser this tokens items pos h ->
        exists h',
          Process.parseTerm fuel this h
          = (mapResult fst (Parser.parseTerm items fuel pos), h')
          /\ sameElsewhere [this] h h'
          /\ forall node pos',
               Parser.parseTerm items fuel pos = Ok (node, pos') ->
               holdsParser this tokens items pos' h')
  /\ (forall h pos,
        holdsParser this tokens items pos h ->
        exists h',
          Process.parseExpression fuel this h
          = (mapResult fst (Parser.parseExpression items fuel pos), h')
          /\ sameElsewhere [this] h h'
          /\ forall node pos',
               Parser.parseExpression items fuel pos = Ok (node, pos') ->
               holdsParser this tokens items pos' h')
  /\ (forall h node0 pos,
        holdsParser this tokens items pos h ->
        exists h',
          Process.parseTermLoop fuel this node0 h
          = (mapResult fst (Parser.parseTermLoop items fuel node0 pos), h')
          /\ sameElsewhere [this] h h'
          /\ forall node pos',
               Parser.parseTermLoop items fuel node0 pos = Ok (node, pos') ->
               holdsParser this tokens items pos' h')
  /\ (forall h node0 pos,
        holdsParser this tokens items pos h ->
        exists h',
          Process.parseExpressionLoop fuel this node0 h
          = (mapResult fst (Parser.parseExpressionLoop items fuel node0 pos), h')
          /\ sameElsewhere [this] h h'
          /\ forall node pos',
               Parser.parseExpressionLoop items fuel node0 pos = Ok (node, pos') ->
               holdsParser this tokens items pos' h').
Proof.
  intros Hneq.
  induction fuel as [|f (IHF & IHT & IHE & IHTL & IHEL)].
  - repeat apply conj; intros; exists h;
      (split; [reflexivity|]; split; [apply sameElsewhere_refl | intros; discriminate]).
  - repeat apply conj.
    + (* parseFactor *)
      intros h pos Hp. cbn [Process.parseFactor]. rewrite parseFactor_S.
      rewrite (andThen_Ok _ _ _ _ _ (peek_on_store _ _ _ _ _ Hp)).
      destruct (Parser.peek items pos) as [t|] eqn:Hpeek.
      2:{ exists h. split; [reflexivity|]. split; [apply sameElsewhere_refl|].
          intros; discriminate. }
      destruct (consume_on_store _ _ _ _ _ Hneq Hp) as [Hconsume Hp1].
      set (h1 := write this (ParserCell tokens (S pos)) h) in *.
      assert (Hsame1 : sameElsewhere [this] h h1)
        by (apply sameElsewhere_write; left; reflexivity).
      destruct (String.eqb (type t) "NUMBER").
      { rewrite (andThen_Ok _ _ _ _ _ Hconsume). exists h1.
        split; [reflexivity|]. split; [exact Hsame1|].
        intros node pos' H. injection H as <- <-. exact Hp1. }
      destruct (String.eqb (type t) "IDENT").
      { rewrite (andThen_Ok _ _ _ _ _ Hconsume). exists h1.
        split; [reflexivity|]. split; [exact Hsame1|].
        intros node pos' H. injection H as <- <-. exact Hp1. }
      destruct (String.eqb (value t) "(").
      { rewrite (andThen_Ok _ _ _ _ _ Hconsume).
        destruct (IHE h1 (S pos) Hp1) as (h2 & Hrun2 & Hsame2 & Hp2).
        rewrite (andThen_mapResult _ _ _ _ _ _ Hrun2).
        destruct (Parser.parseExpression items f (S pos)) as [[n1 p1]| message |];
          cbn [bind mapResult fst snd];
          [| exists h2; split; [reflexivity|];
             split; [exact (sameElsewhere_trans _ _ _ _ Hsame1 Hsame2)
                    | intros; discriminate]
           | exists h2; split; [reflexivity|];
             split; [exact (sameElsewhere_trans _ _ _ _ Hsame1 Hsame2)
                    | intros; discriminate] ].
        destruct (eat_on_store this tokens items "OPERATOR" ")" p1 h2 Hneq
                    (Hp2 _ _ eq_refl)) as (h3 & Hrun3 & Hsame3 & Hp3).
        rewrite (andThen_mapResult _ _ _ _ _ _ Hrun3).
        assert (Hsame : sameElsewhere [this] h h3).
        { eapply sameElsewhere_trans; [exact Hsame1|].
          eapply sameElsewhere_trans; [exact Hsame2 | exact Hsame3]. }
        destruct (Parser.eat items "OPERATOR" ")" p1) as [[tok p2]| message |];
          cbn [bind mapResult fst snd];
          exists h3; (split; [reflexivity|]; split; [exact Hsame|]);
          [| intros; discriminate | intros; discriminate].
        intros node pos' H. injection H as <- <-. exact (Hp3 _ _ eq_refl). }
      destruct (String.eqb (value t) "-").
      { rewrite (andThen_Ok _ _ _ _ _ Hconsume).
        destruct (IHF h1 (S pos) Hp1) as (h2 & Hrun2 & Hsame2 & Hp2).
        rewrite (andThen_mapResult _ _ _ _ _ _ Hrun2).
        assert (Hsame : sameElsewhere [this] h h2)
          by exact (sameElsewhere_trans _ _ _ _ Hsame1 Hsame2).
        destruct (Parser.parseFactor items f (S pos)) as [[n1 p1]| message |];
          cbn [bind mapResult fst snd];
          exists h2; (split; [reflexivity|]; split; [exact Hsame|]);
          [| intros; discriminate | intros; discriminate].
        intros node pos' H. injection H as <- <-. exact (Hp2 _ _ eq_refl). }
      exists h. split; [reflexivity|]. split; [apply sameElsewhere_refl|].
      intros; discriminate.
    + (* parseTerm *)
      intros h pos Hp. cbn [Process.parseTerm]. rewrite parseTerm_S.
      destruct (IHF h pos Hp) as (h1 & Hrun1 & Hsame1 & Hp1).
      rewrite (andThen_mapResult _ _ _ _ _ _ Hrun1).
      destruct (Parser.parseFactor items f pos) as [[n1 p1]| message |];
        cbn [bind mapResult fst snd];
        [| exists h1; split; [reflexivity|]; split; [exact Hsame1 | intros; discriminate]
         | exists h1; split; [reflexivity|]; split; [exact Hsame1 | intros; discriminate] ].
      destruct (IHTL h1 n1 p1 (Hp1 _ _ eq_refl)) as (h2 & Hrun2 & Hsame2 & Hp2).
      exists h2. split; [exact Hrun2|].
      split; [exact (sameElsewhere_trans _ _ _ _ Hsame1 Hsame2) | exact Hp2].
    + (* parseExpression *)
      intros h pos Hp. cbn [Process.parseExpression]. rewrite parseExpression_S.
      destruct (IHT h pos Hp) as (h1 & Hrun1 & Hsame1 & Hp1).
      rewrite (andThen_mapResult _ _ _ _ _ _ Hrun1).
      destruct (Parser.parseTerm items f pos) as [[n1 p1]| message |];
        cbn [bind mapResult fst snd];
        [| exists h1; split; [reflexivity|]; split; [exact Hsame1 | intros; discriminate]
         | exists h1; split; [reflexivity|]; split; [exact Hsame1 | intros; discriminate] ].
      destruct (IHEL h1 n1 p1 (Hp1 _ _ eq_refl)) as (h2 & Hrun2 & Hsame2 & Hp2).
      exists h2. split; [exact Hrun2|].
      split; [exact (sameElsewhere_trans _ _ _ _ Hsame1 Hsame2) | exact Hp2].
    + (* parseTermLoop *)
      intros h node0 pos Hp. cbn [Process.parseTermLoop]. rewrite parseTermLoop_S.
      rewrite (andThen_Ok _ _ _ _ _ (peek_on_store _ _ _ _ _ Hp)).
      destruct (Parser.peek items pos) as [t|] eqn:Hpeek.
      2:{ exists h. split; [reflexivity|]. split; [apply sameElsewhere_refl|].
          intros node pos' H. injection H as <- <-. exact Hp. }
      destruct (Parser.isMultiplicative (value t)).
      2:{ exists h. split; [reflexivity|]. split; [apply sameElsewhere_refl|].
          intros node pos' H. injection H as <- <-. exact Hp. }
      destruct (consume_on_store _ _ _ _ _ Hneq Hp) as [Hconsume Hp1].
      set (h1 := write this (ParserCell tokens (S pos)) h) in *.
      assert (Hsame1 : sameElsewhere [this] h h1)
        by (apply sameElsewhere_write; left; reflexivity).
      rewrite (andThen_Ok _ _ _ _ _ Hconsume). rewrite Hpeek.
      cbn [Process.valueOf]. rewrite (andThen_Ok _ _ h1 h1 (value t) eq_refl).
      destruct (IHF h1 (S pos) Hp1) as (h2 & Hrun2 & Hsame2 & Hp2).
      rewrite (andThen_mapResult _ _ _ _ _ _ Hrun2).
      destruct (Parser.parseFactor items f (S pos)) as [[n1 p1]| message |];
        cbn [bind mapResult fst snd];
        [| exists h2; split; [reflexivity|];
           split; [exact (sameElsewhere_trans _ _ _ _ Hsame1 Hsame2) | intros; discriminate]
         | exists h2; split; [reflexivity|];
           split; [exact (sameElsewhere_trans _ _ _ _ Hsame1 Hsame2)
                  | intros; discriminate] ].
      destruct (IHTL h2 (BinaryOp (value t) node0 n1) p1 (Hp2 _ _ eq_refl))
        as (h3 & Hrun3 & Hsame3 & Hp3).
      exists h3. split; [exact Hrun3|]. split; [|exact Hp3].
      eapply sameElsewhere_trans; [exact Hsame1|].
      eapply sameElsewhere_trans; [exact Hsame2 | exact Hsame3].
    + (* parseExpressionLoop *)
      intros h node0 pos Hp. cbn [Process.parseExpressionLoop].
      rewrite parseExpressionLoop_S.
      rewrite (andThen_Ok _ _ _ _ _ (peek_on_store _ _ _ _ _ Hp)).
      destruct (Parser.peek items pos) as [t|] eqn:Hpeek.
      2:{ exists h. split; [reflexivity|]. split; [apply sameElsewhere_refl|].
          intros node pos' H. injection H as <- <-. exact Hp. }
      destruct (Parser.isAdditive (value t)).
      2:{ exists h. split; [reflexivity|]. split; [apply sameElsewhere_refl|].
          intros node pos' H. injection H as <- <-. exact Hp. }
      destruct (consume_on_store _ _ _ _ _ Hneq Hp) as [Hconsume Hp1].
      set (h1 := write this (ParserCell tokens (S pos)) h) in *.
      assert (Hsame1 : sameElsewhere [this] h h1)
        by (apply sameElsewhere_write; left; reflexivity).
      rewrite (andThen_Ok _ _ _ _ _ Hconsume). rewrite Hpeek.
      cbn [Process.valueOf]. rewrite (andThen_Ok _ _ h1 h1 (value t) eq_refl).
      destruct (IHT h1 (S pos) Hp1) as (h2 & Hrun2 & Hsame2 & Hp2).
      rewrite (andThen_mapResult _ _ _ _ _ _ Hrun2).
      destruct (Parser.parseTerm items f (S pos)) as [[n1 p1]| message |];
        cbn [bind mapResult fst snd];
        [| exists h2; split; [reflexivity|];
           split; [exact (sameElsewhere_trans _ _ _ _ Hsame1 Hsame2) | intros; discriminate]
         | exists h2; split; [reflexivity|];
           split; [exact (sameElsewhere_trans _ _ _ _ Hsame1 Hsame2)
                  | intros; discriminate] ].
      destruct (IHEL h2 (BinaryOp (value t) node0 n1) p1 (Hp2 _ _ eq_refl))
        as (h3 & Hrun3 & Hsame3 & Hp3).
      exists h3. split; [exact Hrun3|]. split; [|exact Hp3].
      eapply sameElsewhere_trans; [exact Hsame1|].
      eapply sameElsewhere_trans; [exact Hsame2 | exact Hsame3].
Qed.


(** ** The handler on the store *)

Lemma pipeline_on_store (expression : string) (h : heap) :
  exists h', Process.pipeline expression h = (pipeline expression, h') /\ extends h h'.
Proof.
  unfold Process.pipeline, pipeline, pipelineWith.
  destruct (tokenize_on_store expression h) as (h1 & Hrun1 & Hext1 & Htokens).
  rewrite (andThen_mapResult _ _ _ _ _ _ Hrun1).
  destruct (Lexer.tokenize expression) as [items| message |]; cbn [bind];
    [| exists h1; split; [reflexivity | exact Hext1]
     | exists h1; split; [reflexivity | exact Hext1] ].
  destruct (Htokens _ eq_refl) as [Hlt1 Hitems1].
  unfold Process.newParser. step.
  set (h2 := snd (allocate (ParserCell (next h) 0) h1)).
  assert (Hext2 : extends h1 h2) by apply extends_allocate.
  assert (Hneq : next h1 <> next h) by lia.
  assert (Hp2 : holdsParser (next h1) (next h) items 0 h2).
  { split; subst h2; cells. }
  rewrite (andThen_Ok _ _ _ _ _ (readTokens_run _ _ _ (proj2 Hp2))).
  destruct (parser_on_store (next h1) (next h) items (Parser.enough items) Hneq)
    as (_ & _ & PE & _ & _).
  destruct (PE h2 0 Hp2) as (h3 & Hrun3 & Hsame3 & Hp3).
  rewrite (andThen_mapResult _ _ _ _ _ _ Hrun3).
  assert (Hext3 : extends h1 h3).
  { apply (extends_sameElsewhere [next h1] h1 h2 h3 Hext2 Hsame3).
    intros a [<- | []]. lia. }
  unfold parse.
  destruct (Parser.parseExpression items (Parser.enough items) 0)
    as [[ast pos]| message |]; cbn [bind mapResult fst snd];
    [| exists h3; split; [reflexivity | exact (extends_trans _ _ _ Hext1 Hext3)]
     | exists h3; split; [reflexivity | exact (extends_trans _ _ _ Hext1 Hext3)] ].
  destruct (Hp3 _ _ eq_refl) as [Hthis3 Hitems3].
  do 2 step. cbn [snd].
  destruct (negb (Nat.eqb pos (List.length items))); cbn [bind];
    [exists h3; split; [reflexivity | exact (extends_trans _ _ _ Hext1 Hext3)]|].
  destruct (generateTAC_on_store ast h3) as (h4 & Hrun4 & Hext4 & Hlines).
  rewrite (andThen_mapResult _ _ _ _ _ _ Hrun4).
  assert (Hext14 : extends h1 h4) by exact (extends_trans _ _ _ Hext3 Hext4).
  destruct (generateTAC ast) as [lines| message |]; cbn [bind];
    [| exists h4; split; [reflexivity | exact (extends_trans _ _ _ Hext1 Hext14)]
     | exists h4; split; [reflexivity | exact (extends_trans _ _ _ Hext1 Hext14)] ].
  destruct (Hlines _ eq_refl) as [Hlt4 Hlines4].
  destruct (generateFinalCode_on_store (next h3) h4 lines Hlt4 Hlines4)
    as (h5 & Hrun5 & Hext5).
  rewrite (andThen_result _ _ _ _ _ Hrun5).
  assert (Hext15 : extends h1 h5) by exact (extends_trans _ _ _ Hext14 Hext5).
  destruct (generateFinalCode lines) as [finalCode| message |]; cbn [bind];
    [| exists h5; split; [reflexivity | exact (extends_trans _ _ _ Hext1 Hext15)]
     | exists h5; split; [reflexivity | exact (extends_trans _ _ _ Hext1 Hext15)] ].
  rewrite (andThen_Ok _ _ _ _ _
             (readTokens_run _ _ _ (extends_cell _ _ _ _ Hext15 Hlt1 Hitems1))).
  destruct (semanticAnalysis_on_store ast h5) as (h6 & Hrun6 & Hext6).
  rewrite (andThen_Ok _ _ _ _ _ Hrun6).
  rewrite (andThen_Ok _ _ _ _ _
             (readStrings_run _ _ _
                (extends_cell _ _ _ _ (extends_trans _ _ _ Hext5 Hext6) Hlt4 Hlines4))).
  exists h6. split; [reflexivity|].
  exact (extends_trans _ _ _ Hext1 (extends_trans _ _ _ Hext15 Hext6)).
Qed.

Lemma compile_on_store (expression : JsValue) (h : heap) :
  exists h', Process.compile expression h = (compile expression, h') /\ extends h h'.
Proof.
  unfold Process.compile, compile, compileWith.
  destruct (rejected expression); [exists h; split; [reflexivity | apply extends_refl]|].
  destruct expression as [| | b | n | s |];
    try (exists h; split; [reflexivity | apply extends_refl]).
  destruct (pipeline_on_store s h) as (h' & Hrun & Hext).
  rewrite Hrun. fold pipeline.
  exists h'. split; [|exact Hext].
  destruct (pipeline s); reflexivity.
Qed.

Lemma serve_on_store (requests : list JsValue) :
  forall h,
    exists h', Process.serve requests h = (map compile requests, h') /\ extends h h'.
Proof.
  induction requests as [|request rest IH]; intros h; cbn [Process.serve map].
  - exists h. split; [reflexivity | apply extends_refl].
  - destruct (compile_on_store request h) as (h1 & Hrun1 & Hext1).
    destruct (IH h1) as (h2 & Hrun2 & Hext2).
    rewrite Hrun1, Hrun2. exists h2. split; [reflexivity|].
    exact (extends_trans _ _ _ Hext1 Hext2).
Qed.

End OnTheStore.

Lemma generateTAC_returnedLines (ast : Node) (h : Heap.heap) :
  returnedLines (Process.generateTAC ast h) = generateTAC ast.
Proof.
  destruct (generateTAC_on_store ast h) as (h' & Hrun & _ & Hlines).
  unfold returnedLines. rewrite Hrun. cbn [fst snd].
  destruct (generateTAC ast) as [lines| message |]; cbn [mapResult]; [|reflexivity..].
  destruct (Hlines _ eq_refl) as [_ Hcell]. rewrite Hcell. reflexivity.
Qed.

(** C9. No state leaks between compile calls.  The handler runs against
    the store of the process, which every call leaves changed and hands to
    the next call.  The response to a request does not depend on what that
    store holds: a second request served after a first gets the response
    that it gets alone, on the empty store of a fresh process, and so does
    each request of a sequence; this response is the one that the
    state-passing handler computes from the request.  A call writes to no
    cell that was there before it.  [semanticAnalysis] and [generateTAC]
    likewise return the same whatever the store holds, their accumulators
    and the temporary counter being allocated by the call itself: the
    report is the report of the AST, and the lines are those of the AST,
    the temporaries numbered from [t0].  After ["a+1"] the store still
    holds the counter at 1 and the set with [a]; ["b+2"] served on that
    store starts again at [t0] and reports [b] only. *)
Theorem C9_no_state_between_compile_calls :
  (forall expression h h',
      fst (Process.compile expression h) = fst (Process.compile expression h'))
  /\ (forall first second h,
         fst (Process.compile second (snd (Process.compile first h)))
         = fst (Process.compile second Heap.empty))
  /\ (forall requests h,
         fst (Process.serve requests h)
         = map (fun request => fst (Process.compile request Heap.empty)) requests)
  /\ (forall expression h, fst (Process.compile expression h) = compile expression)
  /\ (forall expression h, extends h (snd (Process.compile expression h)))
  /\ (forall ast h h',
         fst (Process.semanticAnalysis ast h) = fst (Process.semanticAnalysis ast h'))
  /\ (forall ast h report,
         fst (Process.semanticAnalysis ast h) = Ok report ->
         report = semanticAnalysis ast)
  /\ (forall ast h, extends h (snd (Process.semanticAnalysis ast h)))
  /\ (forall ast h h',
         returnedLines (Process.generateTAC ast h)
         = returnedLines (Process.generateTAC ast h'))
  /\ (forall ast h, returnedLines (Process.generateTAC ast h) = generateTAC ast)
  /\ (forall ast h lines,
         returnedLines (Process.generateTAC ast h) = Ok lines ->
         exists body result,
           lines = Js.push body ("result = " ++ result) /\ numberedFrom 0 body)
  /\ (forall ast h, extends h (snd (Process.generateTAC ast h)))
  /\ (let first := Process.compile (JsString "a+1") Heap.empty in
      let second := Process.compile (JsString "b+2") (snd first) in
      intermediateOf (fst first) = Some ("t0 = a + 1" ++ nl ++ "result = t0")
      /\ Heap.cell (snd first) 4 = Some (Heap.NumberCell 1)
      /\ Heap.cell (snd first) 6 = Some (Heap.StringsCell ["a"])
      /\ intermediateOf (fst second) = Some ("t0 = b + 2" ++ nl ++ "result = t0")
      /\ semanticOf (fst second)
         = Some (semanticAnalysis (BinaryOp "+" (VariableRef "b") (Number "2")))
      /\ Heap.cell (snd second) 14 = Some (Heap.NumberCell 1)
      /\ Heap.cell (snd second) 16 = Some (Heap.StringsCell ["b"])).
Proof.
  assert (Hcompile : forall expression h,
             fst (Process.compile expression h) = compile expression).
  { intros expression h. destruct (compile_on_store expression h) as (h' & -> & _).
    reflexivity. }
  assert (Hsemantic : forall ast h,
             fst (Process.semanticAnalysis ast h) = Ok (semanticAnalysis ast)).
  { intros ast h. destruct (semanticAnalysis_on_store ast h) as (h' & -> & _).
    reflexivity. }
  split; [intros expression h h'; rewrite !Hcompile; reflexivity|].
  split; [intros first second h; rewrite !Hcompile; reflexivity|].
  split.
  { intros requests h. destruct (serve_on_store requests h) as (h' & -> & _).
    cbn [fst]. apply map_ext. intros request. symmetry. apply Hcompile. }
  split; [exact Hcompile|].
  split.
  { intros expression h. destruct (compile_on_store expression h) as (h' & -> & Hext).
    exact Hext. }
  split; [intros ast h h'; rewrite !Hsemantic; reflexivity|].
  split.
  { intros ast h report H. rewrite Hsemantic in H. injection H as <-. reflexivity. }
  split.
  { intros ast h. destruct (semanticAnalysis_on_store ast h) as (h' & -> & Hext).
    exact Hext. }
  split; [intros ast h h'; rewrite !generateTAC_returnedLines; reflexivity|].
  split; [exact generateTAC_returnedLines|].
  split.
  { intros ast h lines H. rewrite generateTAC_returnedLines in H.
    exact (generateTAC_numbered ast lines H). }
  split.
  { intros ast h. destruct (generateTAC_on_store ast h) as (h' & -> & Hext & _).
    exact Hext. }
  vm_compute. repeat split.
Qed.
